(** * Render tree and render cache of renpy/display/render.pyx

    A shallow embedding of the render cache, the Render node graph, the
    mark-and-sweep collector and the redraw queue of
    [renpy/display/render.pyx].

    Conventions of the embedding.
    - Python objects have identity: a Render is a natural number naming a
      record in the heap, a displayable is named by its [id].
    - Numbers (sizes, offsets, time bases) are modelled as integers [Z].
      Where [render] assigns a size to a C [float], the model applies
      the conversion [to_float] of the environment, so that a size a
      float cannot hold is rounded as the code rounds it; the example
      environments round to 24 significant bits ([float32_round]).
    - A Python [dict] keeps insertion order: it is an association list
      with distinct keys.  The outer [render_cache], whose order is never
      observed, is a finite map.
    - [kill], [kill_cache] and the marking loop are recursive over a graph
      that may have cycles: they take fuel and return [None] when it runs
      out; the theorems show how much fuel is enough. *)

From Stdlib Require Import ZArith Lia String.
From stdpp Require Import gmap list fin_maps strings.

Set Warnings "-clear-no-such-hyp".

(** * Part I: the model *)

(** ** One-dimensional overlap: [Render.compute_subline] *)

(** [compute_subline(self, sx, sw, cx, cw, bx, bw)] returns
    [(offset, crop, width)]; [self] is not used by the method.  The
    method computes on the Python numbers it is given; the model takes
    integers, on which the method is exact when they are Python ints,
    and also when they are floats holding integers small enough (see
    [exact_int]). *)
Definition compute_subline (sx sw cx cw bx bw : Z) : Z * Z * Z :=
  let s_end := (sx + sw)%Z in
  let c_end := (cx + cw)%Z in
  let start := Z.max sx cx in
  let offset := (start - cx)%Z in
  let crop := (start - sx)%Z in
  let end_ := Z.min s_end c_end in
  let width := (end_ - start)%Z in
  let bsx := Z.max sx bx in
  if (bsx <? 0)%Z
  then ((offset + bsx)%Z, (crop + bsx)%Z, (width - bsx)%Z)
  else (offset, crop, width).

(** Two spans [sx, sx+sw) and [cx, cx+cw) that do not meet. *)
Definition disjoint_spans (sx sw cx cw : Z) : Prop :=
  (sx + sw <= cx)%Z \/ (cx + cw <= sx)%Z.

Definition subline_offset (t : Z * Z * Z) : Z := fst (fst t).
Definition subline_crop (t : Z * Z * Z) : Z := snd (fst t).
Definition subline_width (t : Z * Z * Z) : Z := snd t.

(** ** Python dictionaries

    Insertion-ordered association lists.  [dict_set] overwrites in place
    when the key is present and appends otherwise, as [d[k] = v] does. *)

Section Dict.
Context {K V : Type} `{EqDecision K}.

Fixpoint dict_get (k : K) (d : list (K * V)) : option V :=
  match d with
  | [] => None
  | (k', v) :: d' => if decide (k' = k) then Some v else dict_get k d'
  end.

Fixpoint dict_set (k : K) (v : V) (d : list (K * V)) : list (K * V) :=
  match d with
  | [] => [(k, v)]
  | (k', v') :: d' =>
      if decide (k' = k) then (k', v) :: d' else (k', v') :: dict_set k v d'
  end.

Definition dict_keys (d : list (K * V)) : list K := map fst d.
End Dict.

(** ** Render nodes *)

(** What a [children] entry or a mask may refer to: another Render, a
    pygame surface, or a texture/model of the drawing backend. *)
Inductive child_ref : Type :=
  | CRender (r : nat)
  | CSurface (s : nat)
  | CModel (m : nat).

Global Instance child_ref_eq_dec : EqDecision child_ref.
Proof. solve_decision. Defined.

(** Offsets keep the conversion the blit variant applied to them:
    [int(xo)], [float(xo)] or [absolute(xo)]. *)
Inductive coord : Type :=
  | CoordInt (z : Z)
  | CoordFloat (z : Z)
  | CoordAbsolute (z : Z).

(** A [(source, xo, yo, focus, main)] tuple of [self.children]. *)
Record child_entry : Type := mkChild {
  ch_source : child_ref;
  ch_xo : coord;
  ch_yo : coord;
  ch_focus : bool;
  ch_main : bool
}.

(** A [(d, arg, x, y, w, h, mx, my, mask)] tuple of [self.focuses]. *)
Record focus_entry : Type := mkFocus {
  fo_d : nat;
  fo_arg : option nat;
  fo_x : option Z;
  fo_y : option Z;
  fo_w : option Z;
  fo_h : option Z;
  fo_mx : option Z;
  fo_my : option Z;
  fo_mask : option child_ref
}.

(** A uniform value is a Render or anything else. *)
Inductive uniform_value : Type :=
  | URender (r : nat)
  | UOther (v : nat).

(** The fields of [cdef class Render] that the cache, the dependency
    graph and the collector read or write. *)
Record Render : Type := mkRender {
  mark : bool;
  cache_killed : bool;
  killed : bool;
  width : Z;
  height : Z;
  children : list child_entry;
  focuses : option (list focus_entry);
  pass_focuses : option (list nat);
  render_of : list nat;
  parents : gset nat;
  depends_on_list : list nat;
  uniforms : option (list (string * uniform_value));
  uniforms_has_render : bool;
  cached_texture : option nat;
  cached_model : option nat;
  debug : bool
}.

Definition set_mark (b : bool) (r : Render) : Render :=
  mkRender b (cache_killed r) (killed r) (width r) (height r) (children r)
    (focuses r) (pass_focuses r) (render_of r) (parents r)
    (depends_on_list r) (uniforms r) (uniforms_has_render r)
    (cached_texture r) (cached_model r) (debug r).

Definition set_cache_killed (b : bool) (r : Render) : Render :=
  mkRender (mark r) b (killed r) (width r) (height r) (children r)
    (focuses r) (pass_focuses r) (render_of r) (parents r)
    (depends_on_list r) (uniforms r) (uniforms_has_render r)
    (cached_texture r) (cached_model r) (debug r).

Definition set_killed (b : bool) (r : Render) : Render :=
  mkRender (mark r) (cache_killed r) b (width r) (height r) (children r)
    (focuses r) (pass_focuses r) (render_of r) (parents r)
    (depends_on_list r) (uniforms r) (uniforms_has_render r)
    (cached_texture r) (cached_model r) (debug r).

Definition set_children (c : list child_entry) (r : Render) : Render :=
  mkRender (mark r) (cache_killed r) (killed r) (width r) (height r) c
    (focuses r) (pass_focuses r) (render_of r) (parents r)
    (depends_on_list r) (uniforms r) (uniforms_has_render r)
    (cached_texture r) (cached_model r) (debug r).

Definition set_focuses (f : option (list focus_entry)) (r : Render) : Render :=
  mkRender (mark r) (cache_killed r) (killed r) (width r) (height r)
    (children r) f (pass_focuses r) (render_of r) (parents r)
    (depends_on_list r) (uniforms r) (uniforms_has_render r)
    (cached_texture r) (cached_model r) (debug r).

Definition set_pass_focuses (f : option (list nat)) (r : Render) : Render :=
  mkRender (mark r) (cache_killed r) (killed r) (width r) (height r)
    (children r) (focuses r) f (render_of r) (parents r)
    (depends_on_list r) (uniforms r) (uniforms_has_render r)
    (cached_texture r) (cached_model r) (debug r).

Definition set_render_of (l : list nat) (r : Render) : Render :=
  mkRender (mark r) (cache_killed r) (killed r) (width r) (height r)
    (children r) (focuses r) (pass_focuses r) l (parents r)
    (depends_on_list r) (uniforms r) (uniforms_has_render r)
    (cached_texture r) (cached_model r) (debug r).

Definition set_parents (p : gset nat) (r : Render) : Render :=
  mkRender (mark r) (cache_killed r) (killed r) (width r) (height r)
    (children r) (focuses r) (pass_focuses r) (render_of r) p
    (depends_on_list r) (uniforms r) (uniforms_has_render r)
    (cached_texture r) (cached_model r) (debug r).

Definition set_depends_on_list (l : list nat) (r : Render) : Render :=
  mkRender (mark r) (cache_killed r) (killed r) (width r) (height r)
    (children r) (focuses r) (pass_focuses r) (render_of r) (parents r)
    l (uniforms r) (uniforms_has_render r)
    (cached_texture r) (cached_model r) (debug r).

Definition set_uniforms (u : option (list (string * uniform_value)))
    (has : bool) (r : Render) : Render :=
  mkRender (mark r) (cache_killed r) (killed r) (width r) (height r)
    (children r) (focuses r) (pass_focuses r) (render_of r) (parents r)
    (depends_on_list r) u has
    (cached_texture r) (cached_model r) (debug r).

Definition set_cached (t m : option nat) (r : Render) : Render :=
  mkRender (mark r) (cache_killed r) (killed r) (width r) (height r)
    (children r) (focuses r) (pass_focuses r) (render_of r) (parents r)
    (depends_on_list r) (uniforms r) (uniforms_has_render r) t m (debug r).

Definition set_debug (b : bool) (r : Render) : Render :=
  mkRender (mark r) (cache_killed r) (killed r) (width r) (height r)
    (children r) (focuses r) (pass_focuses r) (render_of r) (parents r)
    (depends_on_list r) (uniforms r) (uniforms_has_render r)
    (cached_texture r) (cached_model r) b.

(** [Render(width, height)] as [__init__] leaves it. *)
Definition new_render (w h : Z) : Render :=
  mkRender false false false w h [] None None [] ∅ [] None false None None
    false.

(** ** The module state *)

(** A key of a per-displayable cache: [(w, h, st_base, at_base)]. *)
Definition cache_key : Type := Z * Z * Z * Z.

Definition key_st (k : cache_key) : Z := snd (fst k).
Definition key_at (k : cache_key) : Z := snd k.

(** The module-level variables of render.pyx, and the heap of Renders. *)
Record State : Type := mkState {
  heap : gmap nat Render;
  render_cache : gmap nat (list (cache_key * nat));
  live_renders : list nat;
  screen_render : option nat;
  frame_time : Z;
  sizing : bool;
  models : bool;
  rendering : Z;
  render_st : Z;
  render_at : Z;
  render_width : Z;
  render_height : Z;
  render_is_ready : bool
}.

Definition set_heap (h : gmap nat Render) (s : State) : State :=
  mkState h (render_cache s) (live_renders s) (screen_render s)
    (frame_time s) (sizing s) (models s) (rendering s) (render_st s)
    (render_at s) (render_width s) (render_height s) (render_is_ready s).

Definition set_render_cache (c : gmap nat (list (cache_key * nat)))
    (s : State) : State :=
  mkState (heap s) c (live_renders s) (screen_render s)
    (frame_time s) (sizing s) (models s) (rendering s) (render_st s)
    (render_at s) (render_width s) (render_height s) (render_is_ready s).

Definition set_live_renders (l : list nat) (s : State) : State :=
  mkState (heap s) (render_cache s) l (screen_render s)
    (frame_time s) (sizing s) (models s) (rendering s) (render_st s)
    (render_at s) (render_width s) (render_height s) (render_is_ready s).

Definition set_screen_render (r : option nat) (s : State) : State :=
  mkState (heap s) (render_cache s) (live_renders s) r
    (frame_time s) (sizing s) (models s) (rendering s) (render_st s)
    (render_at s) (render_width s) (render_height s) (render_is_ready s).

Definition set_frame_time (t : Z) (s : State) : State :=
  mkState (heap s) (render_cache s) (live_renders s) (screen_render s)
    t (sizing s) (models s) (rendering s) (render_st s)
    (render_at s) (render_width s) (render_height s) (render_is_ready s).

Definition set_sizing (b : bool) (s : State) : State :=
  mkState (heap s) (render_cache s) (live_renders s) (screen_render s)
    (frame_time s) b (models s) (rendering s) (render_st s)
    (render_at s) (render_width s) (render_height s) (render_is_ready s).

Definition set_rendering (n st at_ : Z) (s : State) : State :=
  mkState (heap s) (render_cache s) (live_renders s) (screen_render s)
    (frame_time s) (sizing s) (models s) n st at_
    (render_width s) (render_height s) (render_is_ready s).

Definition set_render_size (w h : Z) (s : State) : State :=
  mkState (heap s) (render_cache s) (live_renders s) (screen_render s)
    (frame_time s) (sizing s) (models s) (rendering s) (render_st s)
    (render_at s) w h (render_is_ready s).

(** Field update of the Render named [n]; a name without a record (which
    a Python reference can never be) is left alone. *)
Definition upd (n : nat) (f : Render -> Render) (s : State) : State :=
  set_heap (alter f n (heap s)) s.

(** [Render(width, height)]: a fresh record, appended to [live_renders]
    as [__init__] does. *)
Definition alloc_render (w h : Z) (s : State) : nat * State :=
  let n := fresh (dom (heap s)) in
  (n, set_live_renders (live_renders s ++ [n])
        (set_heap (<[n := new_render w h]> (heap s)) s)).

(** ** Errors *)

(** The exceptions render.pyx raises itself carry their message; the
    spec files both under ContractViolation, except the init-phase check
    (PreconditionViolation).  [CallbackError] is whatever an external
    callback raised.  [TypeError] is what the assignment of a value that
    is neither [None] nor a Render to a variable declared [cdef Render]
    raises. *)
Inductive exn : Type :=
  | ContractViolation (msg : string)
  | PreconditionViolation (msg : string)
  | CallbackError (code : nat)
  | TypeError.

(** ** Dependency edges: [depends_on], the blit variants, [add_focus],
    [add_uniform] *)

(** The methods below return the state they leave and either the
    exception they raised or their result; a raise keeps the state. *)

(** [list.insert(index, x)] with Python's treatment of negative and
    too large indexes. *)
Definition py_insert {A} (index : Z) (x : A) (l : list A) : list A :=
  let n := Z.of_nat (length l) in
  let i := if (index <? 0)%Z then Z.max 0 (index + n) else Z.min index n in
  take (Z.to_nat i) l ++ x :: drop (Z.to_nat i) l.

Definition add_dependency (source : nat) (r : Render) : Render :=
  set_depends_on_list (depends_on_list r ++ [source]) r.

Definition add_parent (p : nat) (r : Render) : Render :=
  set_parents (parents r ∪ {[p]}) r.

(** [self.depends_on_list.append(source); source.parents.add(self)] *)
Definition link (self source : nat) (s : State) : State :=
  upd source (add_parent self) (upd self (add_dependency source) s).

(** [Render.depends_on(self, source, focus=False)] *)
Definition depends_on (self source : nat) (focus : bool) (s : State)
    : State * (exn + unit) :=
  if decide (source = self)
  then (s, inl (ContractViolation "Render depends on itself."))
  else
    let s1 := link self source s in
    let s2 :=
      if focus
      then upd self (fun r =>
             set_pass_focuses
               (match pass_focuses r with
                | None => Some [source]
                | Some l => Some (l ++ [source])
                end) r) s1
      else s1 in
    (s2, inr tt).

(** The body shared by [blit], [subpixel_blit] and [absolute_blit]; they
    differ in the conversion [conv] applied to the offsets.
    [load_texture] is the drawing backend's. *)
Definition blit_with (conv : Z -> coord) (load_texture : nat -> nat)
    (self : nat) (source : child_ref) (pos : Z * Z) (focus main : bool)
    (index : option Z) (s : State) : State * (exn + Z) :=
  if decide (source = CRender self)
  then (s, inl (ContractViolation "Blitting to self."))
  else
    let source :=
      if models s
      then match source with
           | CSurface x => CModel (load_texture x)
           | _ => source
           end
      else source in
    let entry := mkChild source (conv (fst pos)) (conv (snd pos)) focus main in
    let s1 :=
      upd self (fun r =>
        set_children
          (match index with
           | None => children r ++ [entry]
           | Some i => py_insert i entry (children r)
           end) r) s in
    match source with
    | CRender src => (link self src s1, inr 0%Z)
    | _ => (s1, inr 0%Z)
    end.

Definition blit := blit_with CoordInt.
Definition subpixel_blit := blit_with CoordFloat.
Definition absolute_blit := blit_with CoordAbsolute.

(** [Render.add_focus(self, d, arg, x, y, w, h, mx, my, mask)] *)
Definition add_focus (self : nat) (t : focus_entry) (s : State)
    : State * (exn + unit) :=
  let after_mask :=
    match fo_mask t with
    | Some (CRender m) =>
        if decide (m = self) then (s, inr tt) else depends_on self m false s
    | _ => (s, inr tt)
    end in
  match after_mask with
  | (s1, inl e) => (s1, inl e)
  | (s1, inr _) =>
      (upd self (fun r =>
         set_focuses
           (match focuses r with
            | None => Some [t]
            | Some l => Some (l ++ [t])
            end) r) s1, inr tt)
  end.

(** [Render.add_uniform(self, name, value)] *)
Definition add_uniform (self : nat) (name : string) (value : uniform_value)
    (s : State) : State * (exn + unit) :=
  let after_dep :=
    match value with
    | URender v =>
        match depends_on self v false s with
        | (s1, inl e) => (s1, inl e)
        | (s1, inr _) =>
            (upd self (fun r => set_uniforms (uniforms r) true r) s1, inr tt)
        end
    | UOther _ => (s, inr tt)
    end in
  match after_dep with
  | (s1, inl e) => (s1, inl e)
  | (s1, inr _) =>
      (upd self (fun r =>
         set_uniforms
           (match uniforms r with
            | None => Some [(name, value)]
            | Some u => Some (dict_set name value u)
            end) (uniforms_has_render r) r) s1, inr tt)
  end.

(** ** Removal from the cache and destruction: [kill_cache], [kill] *)

(** One round of the loop over [self.render_of]: drop from the cache of
    [id_ro] the entries whose value is [self], and drop the cache itself
    when that empties it.  ([render_cache] is a defaultdict: a missing
    cache is created empty and deleted again.) *)
Definition cache_remove (self id_ro : nat)
    (rc : gmap nat (list (cache_key * nat))) : gmap nat (list (cache_key * nat)) :=
  let cache := filter (fun kv => snd kv ≠ self) (default [] (rc !! id_ro)) in
  match cache with
  | [] => delete id_ro rc
  | _ => <[id_ro := cache]> rc
  end.

Definition uncache (self : nat) (s : State) : State :=
  let ros := match heap s !! self with
             | Some r => render_of r
             | None => []
             end in
  set_render_cache
    (foldl (fun rc id_ro => cache_remove self id_ro rc) (render_cache s) ros) s.

(** Run [f] on each element of a list in turn, threading the state. *)
Fixpoint for_each (f : nat -> State -> option State) (l : list nat)
    (s : State) : option State :=
  match l with
  | [] => Some s
  | i :: l' =>
      match f i s with
      | None => None
      | Some s' => for_each f l' s'
      end
  end.

(** [Render.kill_cache(self)].  [list(self.parents)] is a snapshot taken
    after the flag is set; its order is the order of [elements]. *)
Fixpoint kill_cache (fuel : nat) (self : nat) (s : State) : option State :=
  match fuel with
  | O => None
  | S fuel' =>
      match heap s !! self with
      | None => Some s
      | Some r =>
          if cache_killed r then Some s
          else
            let s1 := upd self (set_cache_killed true) s in
            match for_each (kill_cache fuel') (elements (parents r)) s1 with
            | None => None
            | Some s2 => Some (uncache self s2)
            end
      end
  end.

(** [i.parents.discard(self)] for every [i] of [self.depends_on_list]. *)
Definition discard_from_parents (self : nat) (s : State) : State :=
  let deps := match heap s !! self with
              | Some r => depends_on_list r
              | None => []
              end in
  foldl (fun s i => upd i (fun ri => set_parents (parents ri ∖ {[self]}) ri) s)
        s deps.

(** The end of [kill]: the lists are cleared only when
    [depends_on_list] is not empty. *)
Definition break_references (r : Render) : Render :=
  let r1 :=
    match depends_on_list r with
    | [] => r
    | _ => set_children [] (set_render_of [] (set_depends_on_list [] r))
    end in
  set_cached None None (set_pass_focuses None (set_focuses None r1)).

(** What [kill] does after the loop over the parents: [parents.clear()],
    the discards, the removal from the cache, and the clearing of the
    references. *)
Definition kill_finish (self : nat) (s : State) : State :=
  upd self break_references
    (uncache self (discard_from_parents self (upd self (set_parents ∅) s))).

(** [Render.kill(self)] *)
Fixpoint kill (fuel : nat) (self : nat) (s : State) : option State :=
  match fuel with
  | O => None
  | S fuel' =>
      match heap s !! self with
      | None => Some s
      | Some r =>
          if killed r then Some s
          else
            let s1 := upd self (set_killed true) s in
            match for_each (kill fuel') (elements (parents r)) s1 with
            | None => None
            | Some s2 => Some (kill_finish self s2)
            end
      end
  end.

(** ** Mark and sweep: [mark_sweep] *)

(** The inner loop of the mark phase, over [r.depends_on_list]: an
    unmarked [j] is marked and appended to the worklist. *)
Definition mark_step (acc : list nat * State) (j : nat) : list nat * State :=
  let '(worklist, s) := acc in
  match heap s !! j with
  | Some rj =>
      if mark rj then (worklist, s)
      else (worklist ++ [j], upd j (set_mark true) s)
  | None => (worklist, s)
  end.

Definition mark_dependencies (r : nat) (worklist : list nat) (s : State)
    : list nat * State :=
  let deps := match heap s !! r with
              | Some rr => depends_on_list rr
              | None => []
              end in
  foldl mark_step (worklist, s) deps.

(** [while i < len(worklist): ...; i += 1] *)
Fixpoint mark_loop (fuel : nat) (i : nat) (worklist : list nat) (s : State)
    : option (list nat * State) :=
  match fuel with
  | O => None
  | S fuel' =>
      match worklist !! i with
      | None => Some (worklist, s)
      | Some r =>
          let '(worklist', s') := mark_dependencies r worklist s in
          mark_loop fuel' (S i) worklist' s'
      end
  end.

(** [for r in live_renders: if not r.mark: r.kill() else: r.mark = False] *)
Fixpoint sweep (fuel : nat) (l : list nat) (s : State) : option State :=
  match l with
  | [] => Some s
  | r :: l' =>
      match heap s !! r with
      | None => sweep fuel l' s
      | Some rr =>
          if mark rr
          then sweep fuel l' (upd r (set_mark false) s)
          else match kill fuel r s with
               | None => None
               | Some s' => sweep fuel l' s'
               end
      end
  end.

Definition mark_all (l : list nat) (s : State) : State :=
  foldl (fun s r => upd r (set_mark true) s) s l.

(** The roots: [screen_render], when there is one, then the Renders the
    image cache holds ([renpy.display.im.cache.get_renders()], external). *)
Definition gc_roots (im_cache_renders : list nat) (s : State) : list nat :=
  match screen_render s with
  | Some r => [r]
  | None => []
  end ++ im_cache_renders.

(** [mark_sweep()].  [video_renders] is [Some] of the Renders among
    [renpy.display.video.texture.values()] when [renpy.emscripten] is
    set, [None] otherwise. *)
Definition mark_sweep (fuel : nat) (im_cache_renders : list nat)
    (video_renders : option (list nat)) (s : State) : option State :=
  let worklist := gc_roots im_cache_renders s in
  let s1 := mark_all worklist s in
  match mark_loop fuel 0 worklist s1 with
  | None => None
  | Some (worklist', s2) =>
      let s3 := match video_renders with
                | Some vs => mark_all vs s2
                | None => s2
                end in
      match sweep fuel (live_renders s3) s3 with
      | None => None
      | Some s4 => Some (set_live_renders worklist' s4)
      end
  end.

(** ** Rebasing: [adjust_render_cache_times] *)

Definition rebase_key (old_time new_time : Z) (k : cache_key) : cache_key :=
  let '(w, h, st_base, at_base) := k in
  (w, h,
   if decide (st_base = old_time) then new_time else st_base,
   if decide (at_base = old_time) then new_time else at_base).

(** The [for k in renders: if k[2] == old_time: break / else: continue]
    test. *)
Definition has_st_base (old_time : Z) (renders : list (cache_key * nat)) : bool :=
  existsb (fun kv => bool_decide (key_st (fst kv) = old_time)) renders.

Definition rebase_renders (old_time new_time : Z)
    (renders : list (cache_key * nat)) : list (cache_key * nat) :=
  foldl (fun new_renders kv =>
           dict_set (rebase_key old_time new_time (fst kv)) (snd kv) new_renders)
        [] renders.

Definition adjust_renders (old_time new_time : Z)
    (renders : list (cache_key * nat)) : list (cache_key * nat) :=
  if has_st_base old_time renders
  then rebase_renders old_time new_time renders
  else renders.

Definition adjust_render_cache_times (old_time new_time : Z) (s : State) : State :=
  set_render_cache (adjust_renders old_time new_time <$> render_cache s) s.

(** ** Rendering through the cache: [render], [render_for_size],
    [render_screen] *)

(** What a displayable's [render] method may return: a Render, [None],
    or any other object.  (An instance of a proper subclass of Render
    passes the typed assignment and fails the class test, as [None]
    does.) *)
Inductive value : Type :=
  | VRender (r : nat)
  | VNone
  | VOther.

(** The capability of a displayable that [render] consumes: its identity,
    its [repr], [style.xmaximum], [style.ymaximum], [style.debug],
    [_offer_size], [_clipping] and its [render] method, an arbitrary
    transformer of the state that returns a value or raises. *)
Record Displayable : Type := mkDisplayable {
  d_id : nat;
  d_repr : string;
  style_xmaximum : option Z;
  style_ymaximum : option Z;
  style_debug : bool;
  offer_size : option (Z * Z);
  clipping : bool;
  d_render : Z -> Z -> Z -> Z -> State -> State * (exn + value)
}.

(** What [render] takes from outside this file: [renpy.config.developer],
    [renpy.display.core.absolute.compute_raw], the crop
    [rv.subsurface((0, 0, rv.width, rv.height), focus=True)] of a clipping
    displayable, which is not embedded and may be any transformer of the
    state, and [to_float], the value a number has once it has been
    assigned to a variable declared [cdef float] and read back: [render]
    keeps [width], [height], [orig_width] and [orig_height] in such
    variables, so that a size that single precision cannot hold is
    rounded there. *)
Record Env : Type := mkEnv {
  config_developer : bool;
  compute_raw : Z -> Z -> Z;
  to_float : Z -> Z;
  subsurface_full : nat -> State -> State * (exn + nat)
}.

(** One invocation [d.render(width, height, st, at)], as [render] makes
    it. *)
Record call : Type := mkCall {
  call_d : nat;
  call_width : Z;
  call_height : Z;
  call_st : Z;
  call_at : Z
}.

(** The result of [render]: the state it leaves, the callback
    invocations it made itself, and the node or the exception. *)
Record outcome : Type := mkOutcome {
  out_state : State;
  out_calls : list call;
  out_result : exn + nat
}.

(** [render_cache[id_d]] of a [defaultdict(dict)]: a missing cache is
    created empty. *)
Definition cache_touch (id_d : nat) (s : State) : State :=
  match render_cache s !! id_d with
  | Some _ => s
  | None => set_render_cache (<[id_d := []]> (render_cache s)) s
  end.

Definition cache_of (id_d : nat) (s : State) : list (cache_key * nat) :=
  default [] (render_cache s !! id_d).

Definition cache_lookup (id_d : nat) (k : cache_key) (s : State) : option nat :=
  dict_get k (cache_of id_d s).

(** [render_cache[id_d][k] = rv] *)
Definition cache_store (id_d : nat) (k : cache_key) (rv : nat) (s : State) : State :=
  let s1 := cache_touch id_d s in
  set_render_cache (<[id_d := dict_set k rv (cache_of id_d s1)]> (render_cache s1)) s1.

(** The C floats [width] and [height] of [render] when the tests are
    done: the size asked for, or [_offer_size], then the maxima, then
    the floor at zero; each assignment to them converts. *)
Definition clamp_size (env : Env) (d : Displayable) (widtho heighto : Z) : Z * Z :=
  let '(width, height) :=
    match offer_size d with
    | Some wh => (to_float env (fst wh), to_float env (snd wh))
    | None => (to_float env widtho, to_float env heighto)
    end in
  let width :=
    match style_xmaximum d with
    | Some xmaximum =>
        to_float env (Z.min (compute_raw env xmaximum width) width)
    | None => width
    end in
  let height :=
    match style_ymaximum d with
    | Some ymaximum =>
        to_float env (Z.min (compute_raw env ymaximum height) height)
    | None => height
    end in
  (if (width <? 0)%Z then 0%Z else width,
   if (height <? 0)%Z then 0%Z else height).

(** [render] from the [try] on: the callback, the type check, the
    bookkeeping on the node, the crop of a clipping displayable, and the
    store.  [changed] is [wh is not orig_wh]. *)
Definition render_miss (env : Env) (d : Displayable) (orig_wh wh : cache_key)
    (changed : bool) (widtho heighto st at_ : Z) (s : State) : outcome :=
  let id_d := d_id d in
  let c := mkCall id_d widtho heighto st at_ in
  let old_st := render_st s in
  let old_at := render_at s in
  let s1 := set_rendering (rendering s + 1)%Z st at_ s in
  let '(s2, res) := d_render d widtho heighto st at_ s1 in
  let s3 := set_rendering (rendering s2 - 1)%Z old_st old_at s2 in
  match res with
  | inl e => mkOutcome s3 [c] (inl e)
  | inr VOther => mkOutcome s3 [c] (inl TypeError)
  | inr VNone =>
      mkOutcome s3 [c]
        (inl (ContractViolation
                (d_repr d +:+ ".render() must return a Render.")))
  | inr (VRender rv) =>
      let s4 :=
        upd rv (fun r => set_cache_killed false
                           (set_render_of (render_of r ++ [id_d]) r)) s3 in
      let clipped :=
        if clipping d
        then match subsurface_full env rv s4 with
             | (s5, inl e) => (s5, inl e)
             | (s5, inr rv') =>
                 (upd rv' (fun r => set_render_of (render_of r ++ [id_d]) r) s5,
                  inr rv')
             end
        else (s4, inr rv) in
      match clipped with
      | (s6, inl e) => mkOutcome s6 [c] (inl e)
      | (s6, inr rv) =>
          let s7 := upd rv (fun r => set_debug (style_debug d || debug r) r) s6 in
          let s8 :=
            if sizing s7 then s7
            else
              let s' := cache_store id_d wh rv s7 in
              if changed then cache_store id_d orig_wh rv s' else s' in
          mkOutcome s8 [c] (inr rv)
      end
  end.

(** [render(d, widtho, heighto, st, at)] *)
Definition render (env : Env) (d : Displayable) (widtho heighto st at_ : Z)
    (s : State) : outcome :=
  if negb (render_is_ready s) && config_developer env
  then mkOutcome s []
         (inl (PreconditionViolation
                 "Displayables may not be rendered during the init phase."))
  else
    let orig_wh := (widtho, heighto, frame_time s - st, frame_time s - at_)%Z in
    let s0 := cache_touch (d_id d) (set_render_size widtho heighto s) in
    match cache_lookup (d_id d) orig_wh s0 with
    | Some rv => mkOutcome s0 [] (inr rv)
    | None =>
        let '(width, height) := clamp_size env d widtho heighto in
        if bool_decide (to_float env widtho ≠ width ∨
                        to_float env heighto ≠ height)
        then
          let wh := (width, height, frame_time s - st, frame_time s - at_)%Z in
          match cache_lookup (d_id d) wh s0 with
          | Some rv => mkOutcome s0 [] (inr rv)
          | None => render_miss env d orig_wh wh true width height st at_ s0
          end
        else render_miss env d orig_wh orig_wh false widtho heighto st at_ s0
    end.

(** [render_for_size(d, width, height, st, at)] *)
Definition render_for_size (env : Env) (d : Displayable)
    (width height st at_ : Z) (s : State) : outcome :=
  let orig_wh := (width, height, frame_time s - st, frame_time s - at_)%Z in
  let s0 := cache_touch (d_id d) s in
  match cache_lookup (d_id d) orig_wh s0 with
  | Some rv => mkOutcome s0 [] (inr rv)
  | None =>
      let old_sizing := sizing s0 in
      let o := render env d width height st at_ (set_sizing true s0) in
      mkOutcome (set_sizing old_sizing (out_state o)) (out_calls o) (out_result o)
  end.

(** [render_screen(root, width, height)]; the two times are read from
    [renpy.display.interface].  (The assignment [invalidated = False],
    to a variable nothing else in the file reads, is left out.) *)
Definition render_screen (env : Env) (interface_frame_time : Z)
    (interact_time : option Z) (root : Displayable) (width height : Z)
    (s : State) : outcome :=
  let s0 := set_frame_time interface_frame_time s in
  let st := match interact_time with
            | None => 0%Z
            | Some it => (interface_frame_time - it)%Z
            end in
  let o := render env root width height st st s0 in
  match out_result o with
  | inr rv =>
      mkOutcome (set_screen_render (Some rv) (out_state o)) (out_calls o) (inr rv)
  | inl e => o
  end.

(** ** Predicates on requests and on external code *)

(** The keys of a request: under the size asked for, and under the size
    the displayable is actually rendered at. *)
Definition request_key (s : State) (w h st at_ : Z) : cache_key :=
  (w, h, frame_time s - st, frame_time s - at_)%Z.

(** [orig_width != width or orig_height != height], on the C floats. *)
Definition size_changed (env : Env) (d : Displayable) (w h : Z) : Prop :=
  to_float env w ≠ fst (clamp_size env d w h) \/
  to_float env h ≠ snd (clamp_size env d w h).

(** The size the displayable's method is invoked with: the C floats when
    they differ from the size asked for, else the size as it was asked
    for. *)
Definition render_size (env : Env) (d : Displayable) (w h : Z) : Z * Z :=
  if bool_decide (size_changed env d w h) then clamp_size env d w h else (w, h).

Definition clamped_key (env : Env) (d : Displayable) (s : State)
    (w h st at_ : Z) : cache_key :=
  request_key s (fst (render_size env d w h)) (snd (render_size env d w h))
    st at_.

(** [render] does not refuse to run: the subsystem is ready or the
    developer check is off. *)
Definition may_render (env : Env) (s : State) : Prop :=
  negb (render_is_ready s) && config_developer env = false.

(** The variables of the module that code outside it does not assign. *)
Definition same_globals (s s' : State) : Prop :=
  frame_time s' = frame_time s /\
  sizing s' = sizing s /\
  render_is_ready s' = render_is_ready s.

(** The displayable's [render] method and the crop leave those
    variables as they find them. *)
Definition well_behaved (env : Env) (d : Displayable) : Prop :=
  (forall w h st at_ t, same_globals t (fst (d_render d w h st at_ t))) /\
  (forall rv t, same_globals t (fst (subsurface_full env rv t))).

(** ** Measures and invariants of the node graph *)

(** The nodes of the heap whose [flag] ([killed] or [cache_killed]) is
    still unset: what bounds the depth of [kill] and [kill_cache]. *)
Definition unflagged (flag : Render -> bool) (s : State) : gset nat :=
  dom (filter (fun kv => flag (snd kv) = false) (heap s)).

(** A live node: it is in the heap and has not been killed. *)
Definition live (s : State) (n : nat) : Prop :=
  exists r, heap s !! n = Some r /\ killed r = false.

(** [b ∈ a.parents] and [a ∈ b.depends_on_list], as relations on names. *)
Definition is_parent (s : State) (a b : nat) : Prop :=
  exists ra, heap s !! a = Some ra /\ b ∈ parents ra.

Definition is_dependency (s : State) (b a : nat) : Prop :=
  exists rb, heap s !! b = Some rb /\ a ∈ depends_on_list rb.

(** On live nodes, [parents] is exactly the inverse of [depends_on_list]. *)
Definition parents_inverse (s : State) : Prop :=
  forall a b, live s a -> live s b -> (is_parent s a b <-> is_dependency s b a).

(** The effect of [kill_cache] between two states: only [cache_killed]
    flags change and they are only set; cache entries are only removed;
    and a node whose flag was set in between has no entry left in the
    cache of any displayable of its [render_of]. *)
Definition kill_cache_rel (s s' : State) : Prop :=
  (forall m, set_cache_killed true <$> heap s' !! m
             = set_cache_killed true <$> heap s !! m) /\
  (forall m r r', heap s !! m = Some r -> heap s' !! m = Some r' ->
                  cache_killed r = true -> cache_killed r' = true) /\
  (forall d k v, (k, v) ∈ cache_of d s' -> (k, v) ∈ cache_of d s) /\
  (forall m r r', heap s !! m = Some r -> heap s' !! m = Some r' ->
                  cache_killed r = false -> cache_killed r' = true ->
                  forall d k, d ∈ render_of r -> (k, m) ∉ cache_of d s').

(** A node with its [parents] set and its [mark] bit forgotten: what
    the collector leaves untouched in a node it does not kill. *)
Definition erase_parents (r : Render) : Render :=
  set_mark false (set_parents ∅ r).

(** [r'] is [r] with nothing changed except that [self] may have left
    its [parents]. *)
Definition lost_only (self : nat) (r r' : Render) : Prop :=
  erase_parents r' = erase_parents r /\
  parents r' ⊆ parents r /\
  (forall p, p ∈ parents r -> p ∉ parents r' -> p = self) /\
  mark r' = mark r.

(** One node across [kill]: parents are only removed; a killed node
    stays killed; a node whose [killed] flag did not change has changed
    in its parents only; a node that was killed in between is, parents
    apart, what [break_references] makes of it; and a parent that left a
    node still alive is itself no longer alive. *)
Definition node_kill_rel (s' : State) (r r' : Render) : Prop :=
  parents r' ⊆ parents r /\
  (killed r = true -> killed r' = true) /\
  (killed r' = killed r -> erase_parents r' = erase_parents r) /\
  (killed r = false -> killed r' = true ->
   erase_parents r' = erase_parents (break_references (set_killed true r))) /\
  (killed r' = false ->
   forall p, p ∈ parents r -> p ∉ parents r' -> ~ live s' p).

Definition kill_rel (s s' : State) : Prop :=
  dom (heap s') = dom (heap s) /\
  forall m r, heap s !! m = Some r ->
    exists r', heap s' !! m = Some r' /\ node_kill_rel s' r r'.

(** ** Reachability and the collector's invariants *)

(** The nodes the mark phase can reach: the roots, and what a reached
    node has in its [depends_on_list]. *)
Inductive reach (s : State) (roots : list nat) : nat -> Prop :=
  | reach_root r : r ∈ roots -> reach s roots r
  | reach_step a b : reach s roots a -> is_dependency s a b -> reach s roots b.

(** [S] is closed under the dependencies of its live nodes. *)
Definition deps_closed (S : nat -> Prop) (s : State) : Prop :=
  forall m r, S m -> heap s !! m = Some r -> killed r = false ->
    forall j, j ∈ depends_on_list r -> S j.

(** Among live nodes a parent is a dependent: the half of
    [parents_inverse] that [kill] relies on. *)
Definition parents_sound (s : State) : Prop :=
  forall a b, live s a -> live s b -> is_parent s a b -> is_dependency s b a.

(** No live node of [S] is killed between [s] and [s']. *)
Definition keeps_alive (S : nat -> Prop) (s s' : State) : Prop :=
  forall m, S m -> live s m -> live s' m.

(** Between [s] and [s'] only mark bits changed. *)
Definition marks_only (s s' : State) : Prop :=
  forall m, set_mark false <$> heap s' !! m = set_mark false <$> heap s !! m.

(** Every mark bit of the heap is unset, as [mark_sweep] leaves them. *)
Definition unmarked (s : State) : Prop :=
  forall m r, heap s !! m = Some r -> mark r = false.


(** The invariant of the mark phase, [i] being the index the loop has
    reached in [worklist]: only mark bits differ from the state [s0]
    before marking; the marked nodes are those of the worklist; the
    worklist holds the roots and only nodes the roots reach; and the
    dependencies of the nodes before index [i] are in the worklist. *)
Definition mark_inv (s0 : State) (roots : list nat) (i : nat)
    (worklist : list nat) (t : State) : Prop :=
  marks_only s0 t /\
  live_renders t = live_renders s0 /\
  (forall m r, heap t !! m = Some r -> (mark r = true <-> m ∈ worklist)) /\
  (forall m, m ∈ worklist -> reach s0 roots m) /\
  (forall m, m ∈ roots -> m ∈ worklist) /\
  (forall k a r j, k < i -> worklist !! k = Some a -> heap t !! a = Some r ->
     j ∈ depends_on_list r -> j ∈ dom (heap t) -> j ∈ worklist).

(** ** Concrete states and displayables

    The states and displayables at which the theorems of Part II are
    instantiated. *)

(** The state of a freshly imported module, rendering allowed. *)
Definition initial_state : State :=
  mkState ∅ ∅ [] None 0 false false 0 0 0 0 0 true.

(** One displayable (id 1) with a single cached render, node 7, under the
    key [(10, 10, 5, 3)]: shown-time base 5, animation-time base 3. *)
Definition rebase_state : State :=
  set_render_cache {[ 1 := [((10, 10, 5, 3)%Z, 7)] ]} initial_state.

(** The same displayable with shown-time base 3 as well. *)
Definition rebase_state_st : State :=
  set_render_cache {[ 1 := [((10, 10, 3, 3)%Z, 7)] ]} initial_state.

(** Two nodes, 1 and 2, each depending on the other, so that the parents
    relation has a cycle; node 1 is cached for displayable 10 and node 2
    for displayable 20. *)
Definition cycle_node (other d : nat) : Render :=
  set_render_of [d]
    (set_parents {[other]} (set_depends_on_list [other] (new_render 10 10))).

Definition cycle_state : State :=
  set_render_cache
    {[ 10 := [((10, 10, 0, 0)%Z, 1)]; 20 := [((10, 10, 0, 0)%Z, 2)] ]}
    (set_heap {[ 1 := cycle_node 2 10; 2 := cycle_node 1 20 ]} initial_state).

(** A screen whose root is node 1.  Node 2 has blitted node 1 (so it is
    in node 1's parents) and node 3 has blitted a surface only; neither
    is reached from the root.  All three are in [live_renders]. *)
Definition surface_child : child_entry :=
  mkChild (CSurface 0) (CoordInt 0) (CoordInt 0) true true.

Definition gc_root_node : Render :=
  set_parents {[2]} (new_render 100 100).

Definition gc_dependent_node : Render :=
  set_children [mkChild (CRender 1) (CoordInt 0) (CoordInt 0) true true]
    (set_depends_on_list [1] (new_render 50 50)).

Definition gc_surface_node : Render :=
  set_children [surface_child] (new_render 20 20).

Definition gc_state : State :=
  set_screen_render (Some 1)
    (set_live_renders [1; 2; 3]
       (set_heap {[ 1 := gc_root_node; 2 := gc_dependent_node;
                    3 := gc_surface_node ]} initial_state)).

(** Single precision on integers: 24 significant bits, a tie going to
    the even neighbour (integers of more than 127 bits, which overflow,
    are not meant). *)
Definition float32_round (n : Z) : Z :=
  let a := Z.abs n in
  let e := (Z.log2 a + 1 - 24)%Z in
  if (e <=? 0)%Z then n
  else
    let q := Z.shiftr a e in
    let r := Z.land a (Z.ones e) in
    let half := Z.shiftl 1 (e - 1) in
    let q' := if (half <? r)%Z || ((r =? half)%Z && Z.odd q)
              then (q + 1)%Z else q in
    (Z.sgn n * Z.shiftl q' e)%Z.

(** An environment in which a maximum is a pixel count, the C floats
    are single precision and the crop of the whole node is a fresh node
    depending on the original. *)
Definition example_env : Env :=
  mkEnv false (fun value _ => value) float32_round
    (fun rv s =>
       let w := default 0%Z (width <$> heap s !! rv) in
       let h := default 0%Z (height <$> heap s !! rv) in
       let '(n, s1) := alloc_render w h s in
       (fst (depends_on n rv false s1), inr n)).

(** A displayable whose [render] returns a new Render of the size it is
    given. *)
Definition plain_render (w h st at_ : Z) (s : State) : State * (exn + value) :=
  let '(n, s1) := alloc_render w h s in (s1, inr (VRender n)).

Definition plain_displayable : Displayable :=
  mkDisplayable 1 "plain" None None false None false plain_render.

(** The same with [style.xmaximum = 100]. *)
Definition capped_displayable : Displayable :=
  mkDisplayable 2 "capped" (Some 100%Z) None false None false plain_render.

(** The same with [style.xmaximum = 100] and [_offer_size = (50, 50)]. *)
Definition offered_displayable : Displayable :=
  mkDisplayable 3 "offered" (Some 100%Z) None false (Some (50, 50)%Z) false
    plain_render.

(** The initial state inside [render_for_size]: the sizing flag is set. *)
Definition sizing_state : State := set_sizing true initial_state.

(** ** Shaders and properties: [add_shader], [add_property],
    [get_property]

    Each of these methods reads and writes one field of the Render,
    [shaders] or [properties], and nothing else: it is modelled as a
    function on the value of that field. *)

(** [Render.add_shader(self, shader)], on [self.shaders] (a tuple or
    [None]). *)
Definition add_shader (shader : string) (shaders : option (list string))
    : option (list string) :=
  match shaders with
  | None => Some [shader]
  | Some l => if decide (shader ∈ l) then Some l else Some (l ++ [shader])
  end.

(** [name[:n]] and [name[n:]] of a Python string. *)
Fixpoint string_take (n : nat) (s : string) : string :=
  match n, s with
  | S n', String c s' => String c (string_take n' s')
  | _, _ => EmptyString
  end.

Fixpoint string_drop (n : nat) (s : string) : string :=
  match n, s with
  | S n', String _ s' => string_drop n' s'
  | _, _ => s
  end.

(** [if name[:3] == "gl_": name = name[3:]] *)
Definition property_name (name : string) : string :=
  if decide (string_take 3 name = "gl_") then string_drop 3 name else name.

(** [Render.add_property(self, name, value)], on [self.properties] (a
    dict or [None]). *)
Definition add_property {V} (name : string) (value : V)
    (properties : option (list (string * V))) : option (list (string * V)) :=
  let name := property_name name in
  match properties with
  | None => Some [(name, value)]
  | Some p => Some (dict_set name value p)
  end.

(** [Render.get_property(self, name, default)] *)
Definition get_property {V} (name : string) (default : V)
    (properties : option (list (string * V))) : V :=
  match properties with
  | None => default
  | Some p =>
      match dict_get (property_name name) p with
      | Some v => v
      | None => default
      end
  end.

(** ** Further invariants of the node graph *)

(** Every Render among the children of a node is in its
    [depends_on_list]. *)
Definition children_in_deps (s : State) : Prop :=
  forall n r c m, heap s !! n = Some r -> c ∈ children r ->
    ch_source c = CRender m -> m ∈ depends_on_list r.

(** Every node the cache holds for a displayable is in the heap, is
    neither killed nor cache-killed, and has the displayable in its
    [render_of]. *)
Definition cache_sound (s : State) : Prop :=
  forall d k v, (k, v) ∈ cache_of d s ->
    exists r, heap s !! v = Some r /\ cache_killed r = false /\
              killed r = false /\ d ∈ render_of r.

(** The effect of [kill] on the cache: entries are only removed, and a
    node killed in between has no entry left in the cache of any
    displayable of the [render_of] it had. *)
Definition kill_uncache_rel (s s' : State) : Prop :=
  kill_rel s s' /\
  (forall d k v, (k, v) ∈ cache_of d s' -> (k, v) ∈ cache_of d s) /\
  (forall m r r', heap s !! m = Some r -> heap s' !! m = Some r' ->
                  killed r = false -> killed r' = true ->
                  forall d k, d ∈ render_of r -> (k, m) ∉ cache_of d s').

(** ** [free_memory] *)

(** [free_memory()]; the last assignment, to
    [renpy.display.interface.surftree], is to another module. *)
Definition free_memory (fuel : nat) (im_cache_renders : list nat)
    (video_renders : option (list nat)) (s : State) : option State :=
  match mark_sweep fuel im_cache_renders video_renders
          (set_screen_render None s) with
  | None => None
  | Some s' => Some (set_render_cache ∅ s')
  end.


(** A displayable whose [render] returns [None]. *)
Definition faulty_displayable : Displayable :=
  mkDisplayable 4 "faulty" None None false None false
    (fun _ _ _ _ s => (s, inr VNone)).

(** The same environment with [config.developer] set, and the state of
    the init phase, before [render_ready] has been called. *)
Definition developer_env : Env :=
  mkEnv true (compute_raw example_env) (to_float example_env)
    (subsurface_full example_env).

Definition init_phase_state : State :=
  mkState ∅ ∅ [] None 0 false false 0 0 0 0 0 false.


(** ** Redraw scheduling: [invalidate], [redraw], [check_redraws],
    [process_redraws], [redraw_time]

    The module variables [redraw_queue] and [per_frame] beside the
    [State].  An entry of the queue is [(when, d)]; as everywhere, the
    displayable is named by its [id].  [renpy.game.interface] is [None]
    or an object with a [frame_time]; the functions take it as
    [interface : option Z].  [renpy.display.core.get_time()] is the
    argument [now]. *)
Record Sched : Type := mkSched {
  sched_state : State;
  redraw_queue : list (Z * nat);
  per_frame : bool
}.

Definition set_sched_state (s : State) (sc : Sched) : Sched :=
  mkSched s (redraw_queue sc) (per_frame sc).

Definition set_redraw_queue (q : list (Z * nat)) (sc : Sched) : Sched :=
  mkSched (sched_state sc) q (per_frame sc).

(** [for v in list(render_cache[id_d].values()): v.kill_cache()] *)
Definition kill_cached (fuel : nat) (id_d : nat) (s : State) : option State :=
  let s0 := cache_touch id_d s in
  for_each (kill_cache fuel) (map snd (cache_of id_d s0)) s0.

(** [redraw(d, when)].  Where the source calls [invalidate(d)],
    [per_frame] is set, so that the test at the head of [invalidate]
    fails and the call is the loop of [invalidate]; [redraw_invalidate]
    below is the equation of the source. *)
Definition redraw (fuel : nat) (interface : option Z) (d : nat) (when : Z)
    (sc : Sched) : option Sched :=
  match interface with
  | None => Some sc
  | Some interface_frame_time =>
      if per_frame sc
      then match kill_cached fuel d (sched_state sc) with
           | None => None
           | Some s' => Some (set_sched_state s' sc)
           end
      else Some (set_redraw_queue
                   (redraw_queue sc ++ [((when + interface_frame_time)%Z, d)]) sc)
  end.

(** [invalidate(d)] *)
Definition invalidate (fuel : nat) (interface : option Z) (d : nat)
    (sc : Sched) : option Sched :=
  if bool_decide (rendering (sched_state sc) = 0%Z)
     && negb (per_frame sc) && negb (sizing (sched_state sc))
  then redraw fuel interface d 0 sc
  else match kill_cached fuel d (sched_state sc) with
       | None => None
       | Some s' => Some (set_sched_state s' sc)
       end.

(** [redraw_queue.sort(key=lambda a : a[0])]: the sort of Python is
    stable; this is the stable insertion sort. *)
Fixpoint insert_by_time (t : Z * nat) (l : list (Z * nat)) : list (Z * nat) :=
  match l with
  | [] => [t]
  | u :: l' =>
      if (fst t <=? fst u)%Z then t :: u :: l' else u :: insert_by_time t l'
  end.

Definition sort_by_time (l : list (Z * nat)) : list (Z * nat) :=
  foldr insert_by_time [] l.

(** The test of the loops on an entry that is not skipped:
    [id_d in render_cache] and [when <= now]. *)
Definition cached (s : State) (d : nat) : bool :=
  bool_decide (is_Some (render_cache s !! d)).

Definition due (now : Z) (s : State) (t : Z * nat) : bool :=
  cached s (snd t) && (fst t <=? now)%Z.

(** [check_redraws()]: the result, and the state with the queue sorted
    in place. *)
Definition check_redraws (now : Z) (sc : Sched) : bool * Sched :=
  let q := sort_by_time (redraw_queue sc) in
  (existsb (due now (sched_state sc)) q, set_redraw_queue q sc).

(** The loop of [process_redraws] over the sorted queue, with [seen],
    [new_redraw_queue] and [rv]. *)
Fixpoint process_loop (fuel : nat) (now : Z) (q : list (Z * nat))
    (s : State) (seen : gset nat) (new_redraw_queue : list (Z * nat))
    (rv : bool) : option (State * list (Z * nat) * bool) :=
  match q with
  | [] => Some (s, new_redraw_queue, rv)
  | t :: q' =>
      let id_d := snd t in
      if decide (id_d ∈ seen)
      then process_loop fuel now q' s seen new_redraw_queue rv
      else
        let seen := {[id_d]} ∪ seen in
        if cached s id_d
        then
          if (fst t <=? now)%Z
          then match kill_cached fuel id_d s with
               | None => None
               | Some s' => process_loop fuel now q' s' seen new_redraw_queue true
               end
          else process_loop fuel now q' s seen (new_redraw_queue ++ [t]) rv
        else process_loop fuel now q' s seen new_redraw_queue rv
  end.

(** [process_redraws()] *)
Definition process_redraws (fuel : nat) (now : Z) (sc : Sched)
    : option (bool * Sched) :=
  match process_loop fuel now (sort_by_time (redraw_queue sc))
          (sched_state sc) ∅ [] false with
  | None => None
  | Some (s', new_redraw_queue, rv) =>
      Some (rv, mkSched s' new_redraw_queue (per_frame sc))
  end.

(** [redraw_time()] *)
Definition redraw_time (sc : Sched) : option Z :=
  match redraw_queue sc with
  | [] => None
  | t :: _ => Some (fst t)
  end.

(** A queue in the order of its times. *)
Fixpoint sorted_by_time (l : list (Z * nat)) : Prop :=
  match l with
  | [] => True
  | t :: l' => Forall (fun u => (fst t <= fst u)%Z) l' /\ sorted_by_time l'
  end.

(** Displayable 10 of [cycle_state] is to be redrawn at times 5 and 1,
    displayable 30, which has no cache, at time 0, and displayable 20 at
    time 9. *)
Definition sched_example : Sched :=
  mkSched cycle_state [(5%Z, 10); (0%Z, 30); (1%Z, 10); (9%Z, 20)] false.


(** What [kill] does to the edges of the nodes it kills: a node killed
    between [s] and [s'] has no parents left, is in the parents of none
    of the nodes it depended on, and none of the parents it had is
    alive. *)
Definition kill_edges_rel (s s' : State) : Prop :=
  forall k rk rk', heap s !! k = Some rk -> heap s' !! k = Some rk' ->
    killed rk = false -> killed rk' = true ->
    parents rk' = ∅ /\
    (forall c rc', c ∈ depends_on_list rk -> heap s' !! c = Some rc' ->
                   k ∉ parents rc') /\
    (forall p, p ∈ parents rk -> p ∉ unflagged killed s').

(** An integer on which the float arithmetic of Python is exact: the
    sums and differences of a few such numbers stay below 2^53. *)
Definition exact_int (x : Z) : Prop := (Z.abs x <= 2 ^ 50)%Z.


(** * Part II: theorems *)

(** ** compute_subline *)

Lemma compute_subline_no_tightening sx sw cx cw bx bw :
  (0 <= Z.max sx bx)%Z ->
  compute_subline sx sw cx cw bx bw =
    ((Z.max sx cx - cx)%Z, (Z.max sx cx - sx)%Z,
     (Z.min (sx + sw) (cx + cw) - Z.max sx cx)%Z).
Proof.
  intros Hb. unfold compute_subline.
  destruct (Z.ltb_spec (Z.max sx bx) 0); [lia | reflexivity].
Qed.

(** C4, as stated, fails: with source span (0,10), crop span (5,10) and
    bounds equal to the crop span the offset relative to the crop line is
    0, not 5; and the disjoint spans (-20,5) and (-10,5), with bounds
    equal to the crop span, give width 5. *)
Lemma compute_subline_claim_fails :
  compute_subline 0 10 5 10 5 10 = (0%Z, 5%Z, 5%Z) /\
  disjoint_spans (-20) 5 (-10) 5 /\
  compute_subline (-20) 5 (-10) 5 (-10) 5 = ((-10)%Z, 0%Z, 5%Z) /\
  ~ (subline_width (compute_subline 0 10 5 10 5 10) = 5%Z /\
     subline_offset (compute_subline 0 10 5 10 5 10) = 5%Z /\
     subline_crop (compute_subline 0 10 5 10 5 10) = 5%Z /\
     forall sx sw cx cw,
       disjoint_spans sx sw cx cw ->
       (subline_width (compute_subline sx sw cx cw cx cw) <= 0)%Z).
Proof.
  split; [reflexivity |]. split; [left; lia |]. split; [reflexivity |].
  intros (_ & Hoff & _). vm_compute in Hoff. discriminate.
Qed.

(** C4, amended: with source span (0,10), crop span (5,10) and bounds
    equal to the crop span, compute_subline returns offset 0, crop 5 and
    width 5; source (0,5) and crop (10,5) give width -5; and for all
    disjoint spans the width is at most 0 whenever the larger of the
    source start and the bounds start is not negative (no tightening by
    the bounds). *)
Theorem compute_subline_overlap :
  compute_subline 0 10 5 10 5 10 = (0%Z, 5%Z, 5%Z) /\
  subline_width (compute_subline 0 5 10 5 10 5) = (-5)%Z /\
  forall sx sw cx cw bx bw,
    disjoint_spans sx sw cx cw ->
    (0 <= Z.max sx bx)%Z ->
    (subline_width (compute_subline sx sw cx cw bx bw) <= 0)%Z.
Proof.
  split; [reflexivity |]. split; [reflexivity |].
  intros sx sw cx cw bx bw Hd Hb.
  rewrite compute_subline_no_tightening by exact Hb.
  unfold subline_width, disjoint_spans in *. simpl. lia.
Qed.

Lemma compute_subline_overlap_witness :
  disjoint_spans 0 5 10 5 /\ (0 <= Z.max 0 10)%Z /\
  (subline_width (compute_subline 0 5 10 5 10 5) <= 0)%Z.
Proof.
  assert (Hd : disjoint_spans 0 5 10 5) by (left; lia).
  assert (Hb : (0 <= Z.max 0 10)%Z) by lia.
  split; [exact Hd |]. split; [exact Hb |].
  exact (proj2 (proj2 compute_subline_overlap) 0%Z 5%Z 10%Z 5%Z 10%Z 5%Z Hd Hb).
Defined.

(** ** No self-dependency *)

(** C7: for every node, every blit variant called with the node itself as
    source, and depends_on called with the node itself, raises the
    contract violation and leaves the state as it was, so the node enters
    neither its own children nor its own depends_on list. *)
Theorem no_self_dependency (load_texture : nat -> nat) (self : nat)
    (pos : Z * Z) (focus main : bool) (index : option Z) (s : State) :
  blit load_texture self (CRender self) pos focus main index s
    = (s, inl (ContractViolation "Blitting to self.")) /\
  subpixel_blit load_texture self (CRender self) pos focus main index s
    = (s, inl (ContractViolation "Blitting to self.")) /\
  absolute_blit load_texture self (CRender self) pos focus main index s
    = (s, inl (ContractViolation "Blitting to self.")) /\
  depends_on self self focus s
    = (s, inl (ContractViolation "Render depends on itself.")).
Proof.
  unfold blit, subpixel_blit, absolute_blit, blit_with, depends_on.
  repeat split; case_decide; congruence.
Qed.

(** ** Dictionaries *)

Section DictFacts.
Context {K V : Type} `{EqDecision K}.
Implicit Types (d : list (K * V)) (k q : K) (v : V).

Lemma dict_get_set d k v q :
  dict_get q (dict_set k v d) = if decide (k = q) then Some v else dict_get q d.
Proof.
  induction d as [| [k' v'] d IH]; simpl.
  - reflexivity.
  - destruct (decide (k' = k)) as [-> | Hne]; simpl.
    + destruct (decide (k = q)); reflexivity.
    + destruct (decide (k' = q)) as [-> | Hq].
      * destruct (decide (k = q)); [congruence | reflexivity].
      * exact IH.
Qed.

Lemma dict_get_set_eq d k v : dict_get k (dict_set k v d) = Some v.
Proof. rewrite dict_get_set. case_decide; congruence. Qed.

Lemma dict_get_set_ne d k v q : k ≠ q -> dict_get q (dict_set k v d) = dict_get q d.
Proof. intros. rewrite dict_get_set. case_decide; congruence. Qed.

Lemma dict_get_elem_of d k v : dict_get k d = Some v -> (k, v) ∈ d.
Proof.
  induction d as [| [k' v'] d IH]; simpl; [discriminate |].
  destruct (decide (k' = k)) as [-> | _].
  - intros [= ->]. left.
  - intros Hg. right. auto.
Qed.

Lemma dict_get_nodup d k v :
  NoDup (dict_keys d) -> (k, v) ∈ d -> dict_get k d = Some v.
Proof.
  induction d as [| [k' v'] d IH]; simpl.
  - intros _ Hin. inversion Hin.
  - intros Hnd Hin. apply NoDup_cons in Hnd as [Hnotin Hnd].
    apply elem_of_cons in Hin as [[= <- <-] | Hin].
    + case_decide; congruence.
    + destruct (decide (k' = k)) as [-> | _]; [| auto].
      exfalso. apply Hnotin. unfold dict_keys.
      apply list_elem_of_fmap. exists (k, v). auto.
Qed.
End DictFacts.

(** ** Rebasing *)

Lemma rebase_renders_snoc old_time new_time l kv :
  rebase_renders old_time new_time (l ++ [kv]) =
  dict_set (rebase_key old_time new_time (fst kv)) (snd kv)
           (rebase_renders old_time new_time l).
Proof. unfold rebase_renders. rewrite foldl_app. reflexivity. Qed.

Lemma rebase_renders_get old_time new_time l k v :
  (k, v) ∈ l ->
  (forall k' v', (k', v') ∈ l ->
     rebase_key old_time new_time k' = rebase_key old_time new_time k ->
     k' = k /\ v' = v) ->
  dict_get (rebase_key old_time new_time k) (rebase_renders old_time new_time l)
    = Some v.
Proof.
  induction l as [| [k1 v1] l IH] using rev_ind; intros Hin Huniq.
  - inversion Hin.
  - rewrite rebase_renders_snoc. simpl. rewrite dict_get_set.
    destruct (decide (rebase_key old_time new_time k1
                      = rebase_key old_time new_time k)) as [Heq | Hne].
    + destruct (Huniq k1 v1) as [_ ->]; [set_solver | exact Heq | reflexivity].
    + apply IH.
      * apply elem_of_app in Hin as [Hin | Hin]; [exact Hin |].
        apply list_elem_of_singleton in Hin. congruence.
      * intros k' v' Hin'. apply Huniq. set_solver.
Qed.

Lemma rebase_renders_origin old_time new_time l q v :
  dict_get q (rebase_renders old_time new_time l) = Some v ->
  exists k, (k, v) ∈ l /\ rebase_key old_time new_time k = q.
Proof.
  induction l as [| [k1 v1] l IH] using rev_ind.
  - discriminate.
  - rewrite rebase_renders_snoc. simpl. rewrite dict_get_set.
    case_decide as Hq.
    + intros [= ->]. exists k1. split; [set_solver | exact Hq].
    + intros Hg. destruct (IH Hg) as (k & Hin & Hk).
      exists k. split; [set_solver | exact Hk].
Qed.

Lemma adjust_lookup old_time new_time s id_d :
  render_cache (adjust_render_cache_times old_time new_time s) !! id_d
  = adjust_renders old_time new_time <$> render_cache s !! id_d.
Proof. unfold adjust_render_cache_times. simpl. apply lookup_fmap. Qed.

(** C6, as stated, fails: displayable 1 has one cached render under the
    key (10,10,5,3), whose animation-time component is 3 and whose
    shown-time component is 5.  Rebasing 3 to 9 leaves the cache as it
    was: the key is still (10,10,5,3) and nothing is stored under
    (10,10,5,9). *)
Lemma rebase_claim_fails :
  cache_lookup 1 (10, 10, 5, 3)%Z rebase_state = Some 7 /\
  key_at (10, 10, 5, 3)%Z = 3%Z /\
  rebase_key 3 9 (10, 10, 5, 3)%Z = (10, 10, 5, 9)%Z /\
  adjust_render_cache_times 3 9 rebase_state = rebase_state /\
  cache_lookup 1 (10, 10, 5, 9)%Z (adjust_render_cache_times 3 9 rebase_state)
    = None /\
  ~ (forall s old_time new_time id_d k v,
       cache_lookup id_d k s = Some v ->
       cache_lookup id_d (rebase_key old_time new_time k)
         (adjust_render_cache_times old_time new_time s) = Some v).
Proof.
  assert (Hfix : adjust_render_cache_times 3 9 rebase_state = rebase_state).
  { unfold adjust_render_cache_times, rebase_state. simpl.
    rewrite map_fmap_singleton. reflexivity. }
  split; [reflexivity |]. split; [reflexivity |]. split; [reflexivity |].
  split; [exact Hfix |]. rewrite Hfix. split; [reflexivity |].
  intros Hclaim.
  specialize (Hclaim rebase_state 3%Z 9%Z 1 (10, 10, 5, 3)%Z 7 eq_refl).
  rewrite Hfix in Hclaim. vm_compute in Hclaim. discriminate.
Qed.

(** C6, amended: rebasing works per displayable.  A displayable none of
    whose keys has shown-time component old_time keeps its cache as it
    is, whatever the animation-time components are.  For a displayable
    with such a key, in every key the shown-time and animation-time
    components equal to old_time become new_time: a key that no other
    key of the displayable is rebased onto maps, once rebased, to the
    node it mapped to before, and every entry of the new cache is the
    rebasing of an old entry. *)
Theorem rebase_times_per_displayable (s : State) (old_time new_time : Z)
    (id_d : nat) (renders : list (cache_key * nat)) :
  render_cache s !! id_d = Some renders ->
  NoDup (dict_keys renders) ->
  (has_st_base old_time renders = false ->
   render_cache (adjust_render_cache_times old_time new_time s) !! id_d
     = Some renders) /\
  (has_st_base old_time renders = true ->
   (forall k v,
      dict_get k renders = Some v ->
      (forall k', k' ∈ dict_keys renders ->
         rebase_key old_time new_time k' = rebase_key old_time new_time k ->
         k' = k) ->
      cache_lookup id_d (rebase_key old_time new_time k)
        (adjust_render_cache_times old_time new_time s) = Some v) /\
   (forall q v,
      cache_lookup id_d q (adjust_render_cache_times old_time new_time s)
        = Some v ->
      exists k, dict_get k renders = Some v /\
                rebase_key old_time new_time k = q)).
Proof.
  intros Hd Hnd. split.
  - intros Hno. rewrite adjust_lookup, Hd. simpl.
    unfold adjust_renders. rewrite Hno. reflexivity.
  - intros Hyes.
    assert (Hc : forall q,
      cache_lookup id_d q (adjust_render_cache_times old_time new_time s)
      = dict_get q (rebase_renders old_time new_time renders)).
    { intros q. unfold cache_lookup, cache_of. rewrite adjust_lookup, Hd.
      simpl. unfold adjust_renders. rewrite Hyes. reflexivity. }
    split.
    + intros k v Hg Hinj. rewrite Hc. apply rebase_renders_get.
      * apply dict_get_elem_of. exact Hg.
      * intros k' v' Hin' Heq.
        assert (k' = k) as ->.
        { apply Hinj; [| exact Heq]. unfold dict_keys.
          apply list_elem_of_fmap. exists (k', v'). auto. }
        split; [reflexivity |].
        apply (dict_get_nodup _ _ _ Hnd) in Hin'. congruence.
    + intros q v Hg. rewrite Hc in Hg.
      apply rebase_renders_origin in Hg as (k & Hin & Hk).
      exists k. split; [| exact Hk]. apply dict_get_nodup; assumption.
Qed.

Lemma rebase_times_per_displayable_witness :
  cache_lookup 1 (rebase_key 3 9 (10, 10, 3, 3)%Z)
    (adjust_render_cache_times 3 9 rebase_state_st) = Some 7.
Proof.
  assert (Hd : render_cache rebase_state_st !! 1
               = Some [((10, 10, 3, 3)%Z, 7)]) by reflexivity.
  assert (Hnd : NoDup (dict_keys [((10, 10, 3, 3)%Z, 7)])).
  { apply NoDup_singleton. }
  assert (Hst : has_st_base 3 [((10, 10, 3, 3)%Z, 7)] = true) by reflexivity.
  apply (proj1 (proj2 (rebase_times_per_displayable
                         rebase_state_st 3 9 1 _ Hd Hnd) Hst)).
  - reflexivity.
  - intros k' Hin. apply list_elem_of_singleton in Hin. intros _. exact Hin.
Defined.

(** ** The heap under field updates *)

Lemma heap_upd n f s m :
  heap (upd n f s) !! m
  = if decide (n = m) then f <$> heap s !! m else heap s !! m.
Proof.
  unfold upd. simpl. destruct (decide (n = m)) as [-> | Hne].
  - apply lookup_alter_eq.
  - apply lookup_alter_ne. exact Hne.
Qed.

Lemma heap_upd_eq n f s : heap (upd n f s) !! n = f <$> heap s !! n.
Proof. rewrite heap_upd. case_decide; congruence. Qed.

Lemma heap_upd_ne n f s m : n ≠ m -> heap (upd n f s) !! m = heap s !! m.
Proof. intros. rewrite heap_upd. case_decide; congruence. Qed.

Lemma dom_heap_upd n f s : dom (heap (upd n f s)) = dom (heap s).
Proof. unfold upd. simpl. apply dom_alter_L. Qed.

Lemma elem_of_unflagged flag s n :
  n ∈ unflagged flag s <-> exists r, heap s !! n = Some r /\ flag r = false.
Proof.
  unfold unflagged. rewrite elem_of_dom. split.
  - intros [r Hr]. apply map_lookup_filter_Some in Hr as [Hr Hf]. eauto.
  - intros (r & Hr & Hf). exists r. apply map_lookup_filter_Some. auto.
Qed.

Lemma unflagged_subseteq_dom flag s : unflagged flag s ⊆ dom (heap s).
Proof.
  intros n Hn. apply elem_of_unflagged in Hn as (r & Hr & _).
  apply elem_of_dom. eauto.
Qed.

Lemma size_unflagged flag s : size (unflagged flag s) <= size (heap s).
Proof.
  rewrite <- size_dom. apply subseteq_size, unflagged_subseteq_dom.
Qed.

(** An update that keeps the flag keeps the set. *)
Lemma unflagged_upd_keep flag n f s :
  (forall r, flag (f r) = flag r) ->
  unflagged flag (upd n f s) = unflagged flag s.
Proof.
  intros Hf. apply set_eq. intros m. rewrite !elem_of_unflagged, heap_upd.
  case_decide as Hnm; [subst m | reflexivity].
  destruct (heap s !! n) as [r |]; simpl; split.
  - intros (r' & [= <-] & Hr'). exists r. rewrite <- Hf. auto.
  - intros (r' & [= <-] & Hr'). exists (f r). rewrite Hf. auto.
  - intros (r' & [=] & _).
  - intros (r' & [=] & _).
Qed.

(** Setting the flag removes the node from the set. *)
Lemma unflagged_upd_set flag n f s :
  (forall r, flag (f r) = true) ->
  unflagged flag (upd n f s) = unflagged flag s ∖ {[n]}.
Proof.
  intros Hf. apply set_eq. intros m.
  rewrite elem_of_difference, !elem_of_unflagged, heap_upd, elem_of_singleton.
  case_decide as Hnm; [subst m |].
  - split; [| tauto]. intros (r' & Hr' & Hfl).
    destruct (heap s !! n) as [r |]; simpl in Hr'; [| discriminate].
    injection Hr' as <-. rewrite Hf in Hfl. discriminate.
  - split; [intros; split; [assumption | congruence] | tauto].
Qed.

Lemma unflagged_foldl_upd_keep {A} flag (g : A -> nat) (f : A -> Render -> Render)
    (l : list A) s :
  (forall a r, flag (f a r) = flag r) ->
  unflagged flag (foldl (fun s a => upd (g a) (f a) s) s l) = unflagged flag s.
Proof.
  intros Hf. revert s. induction l as [| a l IH]; intros s; simpl.
  - reflexivity.
  - rewrite IH. apply unflagged_upd_keep. intros r. apply Hf.
Qed.

Lemma dom_heap_foldl_upd {A} (g : A -> nat) (f : A -> Render -> Render)
    (l : list A) s :
  dom (heap (foldl (fun s a => upd (g a) (f a) s) s l)) = dom (heap s).
Proof.
  revert s. induction l as [| a l IH]; intros s; simpl.
  - reflexivity.
  - rewrite IH. apply dom_heap_upd.
Qed.

(** ** Termination and idempotence of the flagged recursions

    [kill] and [kill_cache] have the same skeleton: return when the flag
    is set, set it, recurse into a snapshot of the parents, then do work
    that leaves the flags alone. *)

Section FlaggedRecursion.
Variable flag : Render -> bool.
Variable set_flag : Render -> Render.
Variable post : nat -> State -> State.
Variable op : nat -> nat -> State -> option State.

Hypothesis flag_set : forall r, flag (set_flag r) = true.
Hypothesis post_unflagged :
  forall n s, unflagged flag (post n s) = unflagged flag s.
Hypothesis post_dom : forall n s, dom (heap (post n s)) = dom (heap s).
Hypothesis op_O : forall self s, op O self s = None.
Hypothesis op_S : forall fuel self s,
  op (S fuel) self s =
  match heap s !! self with
  | None => Some s
  | Some r =>
      if flag r then Some s
      else match for_each (op fuel) (elements (parents r))
                   (upd self set_flag s) with
           | None => None
           | Some s2 => Some (post self s2)
           end
  end.

Lemma for_each_total (f : nat -> State -> option State) (bound : nat) :
  (forall n s, size (unflagged flag s) < bound ->
     exists s', f n s = Some s' /\ unflagged flag s' ⊆ unflagged flag s /\
                dom (heap s') = dom (heap s)) ->
  forall l s, size (unflagged flag s) < bound ->
    exists s', for_each f l s = Some s' /\
               unflagged flag s' ⊆ unflagged flag s /\
               dom (heap s') = dom (heap s).
Proof.
  intros Hf l. induction l as [| i l IH]; intros s Hs; simpl.
  - exists s. auto.
  - destruct (Hf i s Hs) as (s1 & -> & Hsub & Hdom).
    destruct (IH s1) as (s2 & -> & Hsub2 & Hdom2).
    + apply subseteq_size in Hsub. lia.
    + exists s2. split; [reflexivity |]. split; [set_solver | congruence].
Qed.

(** Enough fuel: more than the number of nodes whose flag is unset. *)
Lemma flagged_total fuel :
  forall self s, size (unflagged flag s) < fuel ->
    exists s', op fuel self s = Some s' /\
               unflagged flag s' ⊆ unflagged flag s /\
               dom (heap s') = dom (heap s) /\
               self ∉ unflagged flag s'.
Proof.
  induction fuel as [| fuel IH]; intros self s Hsize; [lia |].
  rewrite op_S. destruct (heap s !! self) as [r |] eqn:Hr.
  - destruct (flag r) eqn:Hfl.
    + exists s. repeat split; [set_solver |].
      rewrite elem_of_unflagged. intros (r' & Hr' & Hf'). congruence.
    + assert (Hin : self ∈ unflagged flag s).
      { apply elem_of_unflagged. eauto. }
      assert (Hset : unflagged flag (upd self set_flag s)
                     = unflagged flag s ∖ {[self]}).
      { apply unflagged_upd_set. exact flag_set. }
      assert (Hlt : size (unflagged flag (upd self set_flag s)) < fuel).
      { rewrite Hset.
        assert (size (unflagged flag s ∖ {[self]}) < size (unflagged flag s));
          [| lia].
        apply subset_size. set_solver. }
      destruct (for_each_total (op fuel) fuel) with
        (l := elements (parents r)) (s := upd self set_flag s)
        as (s2 & -> & Hsub & Hdom); [| exact Hlt |].
      { intros n s0 Hs0. destruct (IH n s0 Hs0) as (s' & ? & ? & ? & _).
        eauto. }
      exists (post self s2). rewrite post_unflagged, post_dom.
      split; [reflexivity |]. split; [set_solver |].
      split; [rewrite Hdom; apply dom_heap_upd | set_solver].
  - exists s. repeat split; [set_solver |].
    rewrite elem_of_unflagged. intros (r' & Hr' & _). congruence.
Qed.

(** A node whose flag is set, or that is not in the heap, is left
    alone: the operation returns at once. *)
Lemma flagged_noop fuel self s :
  self ∉ unflagged flag s -> op (S fuel) self s = Some s.
Proof.
  intros Hnot. rewrite op_S. destruct (heap s !! self) as [r |] eqn:Hr.
  - destruct (flag r) eqn:Hfl; [reflexivity |].
    exfalso. apply Hnot, elem_of_unflagged. eauto.
  - reflexivity.
Qed.

Lemma for_each_rel (R : State -> State -> Prop)
    (f : nat -> State -> option State) :
  (forall s, R s s) ->
  (forall s1 s2 s3, R s1 s2 -> R s2 s3 -> R s1 s3) ->
  (forall n s s', f n s = Some s' -> R s s') ->
  forall l s s', for_each f l s = Some s' -> R s s'.
Proof.
  intros Hrefl Htrans Hf l. induction l as [| i l IH]; intros s s'; simpl.
  - intros [= <-]. apply Hrefl.
  - destruct (f i s) as [s1 |] eqn:Hi; [| discriminate].
    intros Hrest. eapply Htrans; eauto.
Qed.

(** Induction over the recursion: a reflexive and transitive relation
    that holds across one node (flag set, anything related, then the
    final work) holds across the whole call. *)
Lemma flagged_rel (R : State -> State -> Prop) :
  (forall s, R s s) ->
  (forall s1 s2 s3, R s1 s2 -> R s2 s3 -> R s1 s3) ->
  (forall self s r s2,
     heap s !! self = Some r -> flag r = false ->
     R (upd self set_flag s) s2 -> R s (post self s2)) ->
  forall fuel self s s', op fuel self s = Some s' -> R s s'.
Proof.
  intros Hrefl Htrans Hnode fuel.
  induction fuel as [| fuel IH]; intros self s s' Hop.
  - rewrite op_O in Hop. discriminate.
  - rewrite op_S in Hop. destruct (heap s !! self) as [r |] eqn:Hr.
    + destruct (flag r) eqn:Hfl.
      * injection Hop as <-. apply Hrefl.
      * destruct (for_each (op fuel) (elements (parents r))
                    (upd self set_flag s)) as [s2 |] eqn:Hfe; [| discriminate].
        injection Hop as <-. eapply Hnode; eauto.
        eapply for_each_rel; eauto.
    + injection Hop as <-. apply Hrefl.
Qed.

Lemma flagged_mono fuel self s s' :
  op fuel self s = Some s' -> unflagged flag s' ⊆ unflagged flag s.
Proof.
  apply (flagged_rel (fun s s' => unflagged flag s' ⊆ unflagged flag s)).
  - intros s0. set_solver.
  - intros s1 s2 s3. set_solver.
  - intros self0 s0 r s2 _ _ Hsub. rewrite post_unflagged.
    rewrite (unflagged_upd_set flag self0 set_flag s0 flag_set) in Hsub.
    set_solver.
Qed.

(** After a call the flag of the node is set. *)
Lemma flagged_self fuel self s s' :
  op fuel self s = Some s' -> self ∉ unflagged flag s'.
Proof.
  destruct fuel as [| fuel]; [rewrite op_O; discriminate |].
  rewrite op_S. destruct (heap s !! self) as [r |] eqn:Hr.
  - destruct (flag r) eqn:Hfl.
    + intros [= <-]. rewrite elem_of_unflagged.
      intros (r' & Hr' & Hf'). congruence.
    + destruct (for_each (op fuel) (elements (parents r))
                  (upd self set_flag s)) as [s2 |] eqn:Hfe; [| discriminate].
      intros [= <-]. rewrite post_unflagged.
      assert (Hsub : unflagged flag s2 ⊆ unflagged flag (upd self set_flag s)).
      { revert Hfe.
        apply (for_each_rel (fun s s' => unflagged flag s' ⊆ unflagged flag s)).
        - intros s0. set_solver.
        - intros s1 s3 s4. set_solver.
        - intros n s0 s0'. apply flagged_mono. }
      rewrite (unflagged_upd_set flag self set_flag s flag_set) in Hsub.
      set_solver.
  - intros [= <-]. rewrite elem_of_unflagged.
    intros (r' & Hr' & _). congruence.
Qed.

Lemma for_each_flags fuel l s s' :
  for_each (op fuel) l s = Some s' ->
  unflagged flag s' ⊆ unflagged flag s /\
  forall p, p ∈ l -> p ∉ unflagged flag s'.
Proof.
  revert s. induction l as [| i l IH]; intros s; simpl.
  - intros [= <-]. split; [set_solver |]. intros p Hp. inversion Hp.
  - destruct (op fuel i s) as [s1 |] eqn:Hi; [| discriminate].
    intros Hrest. destruct (IH _ Hrest) as [Hsub Hall].
    pose proof (flagged_mono _ _ _ _ Hi) as Hsub1.
    pose proof (flagged_self _ _ _ _ Hi) as Hself.
    split; [set_solver |].
    intros p Hp. apply elem_of_cons in Hp as [-> | Hp]; [set_solver | auto].
Qed.

(** After a call on a node whose flag was unset, the flag of each of
    its parents is set. *)
Lemma flagged_parents fuel self s s' r :
  op fuel self s = Some s' ->
  heap s !! self = Some r -> flag r = false ->
  forall p, p ∈ parents r -> p ∉ unflagged flag s'.
Proof.
  destruct fuel as [| fuel]; [rewrite op_O; discriminate |].
  rewrite op_S. intros Hop Hr Hfl. rewrite Hr, Hfl in Hop.
  destruct (for_each (op fuel) (elements (parents r))
              (upd self set_flag s)) as [s2 |] eqn:Hfe; [| discriminate].
  injection Hop as <-. intros p Hp. rewrite post_unflagged.
  apply (for_each_flags _ _ _ _ Hfe). apply elem_of_elements. exact Hp.
Qed.

Lemma flagged_total_idempotent fuel self s :
  size (heap s) < fuel ->
  exists s', op fuel self s = Some s' /\ op fuel self s' = Some s' /\
             self ∉ unflagged flag s'.
Proof.
  intros Hsize.
  destruct (flagged_total fuel self s) as (s' & Hop & _ & _ & Hnot).
  { pose proof (size_unflagged flag s). lia. }
  exists s'. split; [exact Hop |]. split; [| exact Hnot].
  destruct fuel as [| fuel]; [lia |]. apply flagged_noop. exact Hnot.
Qed.
End FlaggedRecursion.

(** ** kill_cache and kill: unfolding, termination, idempotence *)

Lemma kill_cache_S fuel self s :
  kill_cache (S fuel) self s =
  match heap s !! self with
  | None => Some s
  | Some r =>
      if cache_killed r then Some s
      else match for_each (kill_cache fuel) (elements (parents r))
                   (upd self (set_cache_killed true) s) with
           | None => None
           | Some s2 => Some (uncache self s2)
           end
  end.
Proof. reflexivity. Qed.

Lemma kill_S fuel self s :
  kill (S fuel) self s =
  match heap s !! self with
  | None => Some s
  | Some r =>
      if killed r then Some s
      else match for_each (kill fuel) (elements (parents r))
                   (upd self (set_killed true) s) with
           | None => None
           | Some s2 => Some (kill_finish self s2)
           end
  end.
Proof. reflexivity. Qed.

Lemma killed_break_references r : killed (break_references r) = killed r.
Proof. unfold break_references. destruct (depends_on_list r); reflexivity. Qed.

Lemma unflagged_kill_finish self s :
  unflagged killed (kill_finish self s) = unflagged killed s.
Proof.
  unfold kill_finish.
  rewrite unflagged_upd_keep by apply killed_break_references.
  change (unflagged killed (uncache self ?x)) with (unflagged killed x).
  unfold discard_from_parents.
  rewrite (unflagged_foldl_upd_keep killed (fun i => i)
             (fun _ ri => set_parents (parents ri ∖ {[self]}) ri))
    by reflexivity.
  apply unflagged_upd_keep. reflexivity.
Qed.

Lemma dom_heap_kill_finish self s :
  dom (heap (kill_finish self s)) = dom (heap s).
Proof.
  unfold kill_finish. rewrite dom_heap_upd.
  change (heap (uncache self ?x)) with (heap x).
  unfold discard_from_parents.
  rewrite (dom_heap_foldl_upd (fun i => i)
             (fun _ ri => set_parents (parents ri ∖ {[self]}) ri)).
  apply dom_heap_upd.
Qed.

Lemma kill_cache_total_idempotent fuel self s :
  size (heap s) < fuel ->
  exists s', kill_cache fuel self s = Some s' /\
             kill_cache fuel self s' = Some s' /\
             self ∉ unflagged cache_killed s'.
Proof.
  apply (flagged_total_idempotent cache_killed (set_cache_killed true)
           uncache kill_cache).
  - reflexivity.
  - reflexivity.
  - reflexivity.
  - reflexivity.
  - apply kill_cache_S.
Qed.

Lemma kill_total_idempotent fuel self s :
  size (heap s) < fuel ->
  exists s', kill fuel self s = Some s' /\
             kill fuel self s' = Some s' /\
             self ∉ unflagged killed s'.
Proof.
  apply (flagged_total_idempotent killed (set_killed true) kill_finish kill).
  - reflexivity.
  - apply unflagged_kill_finish.
  - apply dom_heap_kill_finish.
  - reflexivity.
  - apply kill_S.
Qed.

(** C10: kill_cache and kill return at once on a node whose flag is
    already set; and on every heap, whatever cycles its parents relation
    has, each of them returns a state when given more fuel than the heap
    has nodes, in that state the flag of the node is set, and running the
    operation again on the node returns that same state. *)
Theorem kill_terminates_and_is_idempotent (fuel self : nat) (s : State) :
  size (heap s) < fuel ->
  (forall r, heap s !! self = Some r -> cache_killed r = true ->
             kill_cache fuel self s = Some s) /\
  (forall r, heap s !! self = Some r -> killed r = true ->
             kill fuel self s = Some s) /\
  (exists s', kill_cache fuel self s = Some s' /\
              kill_cache fuel self s' = Some s' /\
              forall r', heap s' !! self = Some r' -> cache_killed r' = true) /\
  (exists s', kill fuel self s = Some s' /\
              kill fuel self s' = Some s' /\
              forall r', heap s' !! self = Some r' -> killed r' = true).
Proof.
  intros Hsize.
  destruct fuel as [| fuel']; [lia |].
  split; [| split; [| split]].
  - intros r Hr Hfl. rewrite kill_cache_S, Hr, Hfl. reflexivity.
  - intros r Hr Hfl. rewrite kill_S, Hr, Hfl. reflexivity.
  - destruct (kill_cache_total_idempotent (S fuel') self s Hsize)
      as (s' & H1 & H2 & Hnot).
    exists s'. split; [exact H1 |]. split; [exact H2 |].
    intros r' Hr'. destruct (cache_killed r') eqn:Hfl; [reflexivity |].
    exfalso. apply Hnot, elem_of_unflagged. eauto.
  - destruct (kill_total_idempotent (S fuel') self s Hsize)
      as (s' & H1 & H2 & Hnot).
    exists s'. split; [exact H1 |]. split; [exact H2 |].
    intros r' Hr'. destruct (killed r') eqn:Hfl; [reflexivity |].
    exfalso. apply Hnot, elem_of_unflagged. eauto.
Qed.

Lemma kill_terminates_and_is_idempotent_witness :
  size (heap cycle_state) < 3 /\
  (exists s', kill_cache 3 1 cycle_state = Some s' /\
              kill_cache 3 1 s' = Some s' /\
              forall r', heap s' !! 1 = Some r' -> cache_killed r' = true) /\
  (exists s', kill 3 1 cycle_state = Some s' /\
              kill 3 1 s' = Some s' /\
              forall r', heap s' !! 1 = Some r' -> killed r' = true).
Proof.
  assert (Hsize : size (heap cycle_state) < 3) by (vm_compute; lia).
  split; [exact Hsize |].
  exact (proj2 (proj2 (kill_terminates_and_is_idempotent 3 1 cycle_state Hsize))).
Defined.

(** ** Removal from the cache *)

Lemma elem_of_cache_remove self id_ro rc d (kv : cache_key * nat) :
  kv ∈ default [] (cache_remove self id_ro rc !! d) <->
  kv ∈ default [] (rc !! d) /\ (d = id_ro -> snd kv ≠ self).
Proof.
  unfold cache_remove.
  destruct (decide (d = id_ro)) as [-> | Hne].
  - assert (Hf : forall l,
      l = filter (fun kv : cache_key * nat => snd kv ≠ self)
                 (default [] (rc !! id_ro)) ->
      (kv ∈ l <-> kv ∈ default [] (rc !! id_ro) /\ (id_ro = id_ro -> snd kv ≠ self))).
    { intros l ->. rewrite list_elem_of_filter. tauto. }
    destruct (filter _ (default [] (rc !! id_ro))) as [| x l] eqn:Hfl.
    + rewrite lookup_delete_eq. simpl. apply Hf. reflexivity.
    + rewrite lookup_insert_eq. simpl. apply Hf. reflexivity.
  - destruct (filter _ (default [] (rc !! id_ro))).
    + rewrite lookup_delete_ne by congruence. tauto.
    + rewrite lookup_insert_ne by congruence. tauto.
Qed.

Lemma elem_of_cache_remove_all self ros rc d (kv : cache_key * nat) :
  kv ∈ default [] (foldl (fun rc id_ro => cache_remove self id_ro rc) rc ros !! d)
  <-> kv ∈ default [] (rc !! d) /\ (d ∈ ros -> snd kv ≠ self).
Proof.
  revert rc. induction ros as [| ro ros IH]; intros rc; simpl.
  - split; [intros H; split; [exact H | intros Hin; inversion Hin] | tauto].
  - rewrite IH, elem_of_cache_remove, elem_of_cons. split.
    + intros [[Hin Hro] Hros]. split; [exact Hin |]. intros [-> | Hd]; auto.
    + intros [Hin Hall]. split; [split |]; auto.
Qed.

Lemma elem_of_cache_of_uncache self s d (kv : cache_key * nat) :
  kv ∈ cache_of d (uncache self s) <->
  kv ∈ cache_of d s /\
  (forall r, heap s !! self = Some r -> d ∈ render_of r -> snd kv ≠ self).
Proof.
  unfold cache_of, uncache. simpl. rewrite elem_of_cache_remove_all.
  destruct (heap s !! self) as [r |]; split.
  - intros [Hin Hd]. split; [exact Hin |]. intros r' [= <-]. exact Hd.
  - intros [Hin Hd]. split; [exact Hin |]. apply (Hd r). reflexivity.
  - intros [Hin _]. split; [exact Hin |]. intros r' [=].
  - intros [Hin _]. split; [exact Hin |]. intros Hd. inversion Hd.
Qed.

(** ** What kill_cache changes *)

Lemma frame_lookup (f : Render -> Render) (s s' : State) (m : nat) r :
  f <$> heap s' !! m = f <$> heap s !! m ->
  heap s !! m = Some r ->
  exists r', heap s' !! m = Some r' /\ f r' = f r.
Proof.
  intros Heq Hr. rewrite Hr in Heq. simpl in Heq.
  destruct (heap s' !! m) as [r' |]; [| discriminate].
  exists r'. split; [reflexivity |]. simpl in Heq. congruence.
Qed.

Lemma kill_cache_rel_refl s : kill_cache_rel s s.
Proof.
  repeat split; auto.
  - intros m r r' Hr Hr'. congruence.
  - intros m r r' Hr Hr'. congruence.
Qed.

Lemma kill_cache_rel_trans s1 s2 s3 :
  kill_cache_rel s1 s2 -> kill_cache_rel s2 s3 -> kill_cache_rel s1 s3.
Proof.
  intros (Hf1 & Hm1 & Hs1 & Hn1) (Hf2 & Hm2 & Hs2 & Hn2).
  split; [| split; [| split]].
  - intros m. rewrite Hf2. apply Hf1.
  - intros m r1 r3 Hr1 Hr3 Hfl.
    destruct (frame_lookup _ _ _ _ _ (Hf1 m) Hr1) as (r2 & Hr2 & _). eauto.
  - auto.
  - intros m r1 r3 Hr1 Hr3 Hfl1 Hfl3 d k Hd.
    destruct (frame_lookup _ _ _ _ _ (Hf1 m) Hr1) as (r2 & Hr2 & Heq).
    destruct (cache_killed r2) eqn:Hfl2.
    + intros Hin. apply Hs2 in Hin. revert Hin. eapply Hn1; eauto.
    + eapply Hn2; eauto.
      replace (render_of r2) with (render_of (set_cache_killed true r2))
        by reflexivity.
      rewrite Heq. exact Hd.
Qed.

Lemma kill_cache_rel_node self s r s2 :
  heap s !! self = Some r -> cache_killed r = false ->
  kill_cache_rel (upd self (set_cache_killed true) s) s2 ->
  kill_cache_rel s (uncache self s2).
Proof.
  intros Hr Hfl (Hf & Hm & Hs & Hn).
  assert (Hf' : forall m, set_cache_killed true <$> heap s2 !! m
                          = set_cache_killed true <$> heap s !! m).
  { intros m. rewrite Hf, heap_upd. case_decide; [subst m |]; [| reflexivity].
    destruct (heap s !! self); reflexivity. }
  split; [| split; [| split]].
  - exact Hf'.
  - intros m rm rm' Hrm Hrm' Hflm. simpl in Hrm'.
    destruct (decide (m = self)) as [-> | Hne]; [congruence |].
    apply (Hm m rm rm'); [| exact Hrm' | exact Hflm].
    rewrite heap_upd_ne by congruence. exact Hrm.
  - intros d k v Hin. apply elem_of_cache_of_uncache in Hin as [Hin _].
    apply Hs in Hin. exact Hin.
  - intros m rm rm' Hrm Hrm' Hflm Hflm' d k Hd Hin. simpl in Hrm'.
    apply elem_of_cache_of_uncache in Hin as [Hin Hself].
    destruct (decide (m = self)) as [-> | Hne].
    + assert (r = rm) as <- by congruence.
      destruct (frame_lookup _ _ _ _ _ (Hf' self) Hr) as (r2 & Hr2 & Heq).
      apply (Hself r2 Hr2); [| reflexivity].
      replace (render_of r2) with (render_of (set_cache_killed true r2))
        by reflexivity.
      rewrite Heq. exact Hd.
    + revert Hin. eapply (Hn m rm rm'); eauto.
      rewrite heap_upd_ne by congruence. exact Hrm.
Qed.

Lemma kill_cache_effect fuel self s s' :
  kill_cache fuel self s = Some s' -> kill_cache_rel s s'.
Proof.
  apply (flagged_rel cache_killed (set_cache_killed true) uncache kill_cache).
  - reflexivity.
  - apply kill_cache_S.
  - apply kill_cache_rel_refl.
  - apply kill_cache_rel_trans.
  - apply kill_cache_rel_node.
Qed.

Lemma kill_cache_uncached fuel self s s' m r :
  kill_cache fuel self s = Some s' ->
  heap s !! m = Some r -> cache_killed r = false ->
  m ∉ unflagged cache_killed s' ->
  forall d k, d ∈ render_of r -> cache_lookup d k s' ≠ Some m.
Proof.
  intros Hk Hr Hfl Hnot d k Hd Hget.
  destruct (kill_cache_effect _ _ _ _ Hk) as (Hf & _ & _ & Hn).
  destruct (frame_lookup _ _ _ _ _ (Hf m) Hr) as (r' & Hr' & _).
  apply dict_get_elem_of in Hget. revert Hget.
  apply (Hn m r r'); auto.
  destruct (cache_killed r') eqn:Hfl'; [reflexivity |].
  exfalso. apply Hnot, elem_of_unflagged. eauto.
Qed.

(** C3: let C and P be nodes whose cache_killed flag is unset, as it is
    for every node the cache holds, with C in P's depends_on list and P
    in C's parents set.  Then kill_cache on C (with more fuel than the
    heap has nodes) returns a state in which no key of the cache of a
    displayable in C's render_of maps to C and no key of the cache of a
    displayable in P's render_of maps to P; and every node of the heap,
    P and C among them, has the children, depends_on list, render_of,
    focuses, pass_focuses, parents and killed flag it had. *)
Theorem kill_cache_cascade (fuel : nat) (s : State) (c p : nat)
    (rc rp : Render) :
  size (heap s) < fuel ->
  heap s !! c = Some rc -> heap s !! p = Some rp ->
  cache_killed rc = false -> cache_killed rp = false ->
  c ∈ depends_on_list rp -> p ∈ parents rc ->
  exists s', kill_cache fuel c s = Some s' /\
    (forall d k, d ∈ render_of rc -> cache_lookup d k s' ≠ Some c) /\
    (forall d k, d ∈ render_of rp -> cache_lookup d k s' ≠ Some p) /\
    (forall m r, heap s !! m = Some r ->
       exists r', heap s' !! m = Some r' /\
         children r' = children r /\
         depends_on_list r' = depends_on_list r /\
         render_of r' = render_of r /\
         focuses r' = focuses r /\
         pass_focuses r' = pass_focuses r /\
         parents r' = parents r /\
         killed r' = killed r).
Proof.
  intros Hsize Hc Hp Hflc Hflp _ Hpar.
  destruct (kill_cache_total_idempotent fuel c s Hsize) as (s' & Hk & _ & Hnotc).
  exists s'. split; [exact Hk |]. split; [| split].
  - intros d k. eapply kill_cache_uncached; eauto.
  - intros d k. eapply kill_cache_uncached; eauto.
    eapply (flagged_parents cache_killed (set_cache_killed true) uncache
              kill_cache); eauto using kill_cache_S.
  - intros m r Hr.
    destruct (kill_cache_effect _ _ _ _ Hk) as (Hf & _).
    destruct (frame_lookup _ _ _ _ _ (Hf m) Hr) as (r' & Hr' & Heq).
    exists r'. split; [exact Hr' |].
    repeat split.
    + exact (f_equal children Heq).
    + exact (f_equal depends_on_list Heq).
    + exact (f_equal render_of Heq).
    + exact (f_equal focuses Heq).
    + exact (f_equal pass_focuses Heq).
    + exact (f_equal parents Heq).
    + exact (f_equal killed Heq).
Qed.

Lemma kill_cache_cascade_witness :
  cache_lookup 10 (10, 10, 0, 0)%Z cycle_state = Some 1 /\
  cache_lookup 20 (10, 10, 0, 0)%Z cycle_state = Some 2 /\
  exists s', kill_cache 3 1 cycle_state = Some s' /\
    (forall d k, d ∈ render_of (cycle_node 2 10) -> cache_lookup d k s' ≠ Some 1) /\
    (forall d k, d ∈ render_of (cycle_node 1 20) -> cache_lookup d k s' ≠ Some 2) /\
    (forall m r, heap cycle_state !! m = Some r ->
       exists r', heap s' !! m = Some r' /\
         children r' = children r /\
         depends_on_list r' = depends_on_list r /\
         render_of r' = render_of r /\
         focuses r' = focuses r /\
         pass_focuses r' = pass_focuses r /\
         parents r' = parents r /\
         killed r' = killed r).
Proof.
  split; [reflexivity |]. split; [reflexivity |].
  apply (kill_cache_cascade 3 cycle_state 1 2).
  - vm_compute. lia.
  - reflexivity.
  - reflexivity.
  - reflexivity.
  - reflexivity.
  - simpl. set_solver.
  - simpl. set_solver.
Defined.

(** ** What kill changes *)

Lemma erase_break_references r :
  erase_parents (break_references r) = break_references (erase_parents r).
Proof. unfold break_references. simpl. destruct (depends_on_list r); reflexivity. Qed.

Lemma erase_set_killed b r :
  erase_parents (set_killed b r) = set_killed b (erase_parents r).
Proof. reflexivity. Qed.

Lemma parents_break_references r : parents (break_references r) = parents r.
Proof. unfold break_references. destruct (depends_on_list r); reflexivity. Qed.

Lemma depends_on_list_break_references r :
  depends_on_list (break_references r) = [].
Proof. unfold break_references. destruct (depends_on_list r) eqn:H; simpl; auto. Qed.

Lemma mark_break_references r : mark (break_references r) = mark r.
Proof. unfold break_references. destruct (depends_on_list r); reflexivity. Qed.

Lemma erase_killed r r' :
  erase_parents r' = erase_parents r -> killed r' = killed r.
Proof. intros H. exact (f_equal killed H). Qed.

Lemma erase_depends_on_list r r' :
  erase_parents r' = erase_parents r -> depends_on_list r' = depends_on_list r.
Proof. intros H. exact (f_equal depends_on_list H). Qed.

Lemma lost_only_refl self r : lost_only self r r.
Proof. repeat split; [set_solver | tauto]. Qed.

Lemma lost_only_trans self r1 r2 r3 :
  lost_only self r1 r2 -> lost_only self r2 r3 -> lost_only self r1 r3.
Proof.
  intros (He1 & Hs1 & Hl1 & Hm1) (He2 & Hs2 & Hl2 & Hm2).
  split; [congruence |]. split; [set_solver |]. split; [| congruence].
  intros p Hp Hnp. destruct (decide (p ∈ parents r2)); auto.
Qed.

Lemma lost_only_discard self r :
  lost_only self r (set_parents (parents r ∖ {[self]}) r).
Proof.
  split; [reflexivity |]. split; simpl; [set_solver |].
  split; [| reflexivity].
  intros p Hp Hnp. destruct (decide (p = self)); [assumption | set_solver].
Qed.

(** The loop of discards, node by node. *)
Lemma discard_lookup self (deps : list nat) s m :
  option_Forall2 (lost_only self) (heap s !! m)
    (heap (foldl (fun s i =>
                    upd i (fun ri => set_parents (parents ri ∖ {[self]}) ri) s)
                 s deps) !! m).
Proof.
  revert s. induction deps as [| i deps IH]; intros s; simpl.
  - destruct (heap s !! m); constructor. apply lost_only_refl.
  - specialize (IH (upd i (fun ri => set_parents (parents ri ∖ {[self]}) ri) s)).
    rewrite heap_upd in IH. case_decide as Him; [subst i |]; [| exact IH].
    destruct (heap s !! m) as [r |]; simpl in IH; [| exact IH].
    inversion IH as [? r' Hl |]; subst. constructor.
    eapply lost_only_trans; [apply lost_only_discard | exact Hl].
Qed.

(** The state [kill_finish] leaves, node by node. *)
Lemma kill_finish_other self s m :
  m ≠ self ->
  option_Forall2 (lost_only self) (heap s !! m) (heap (kill_finish self s) !! m).
Proof.
  intros Hne. unfold kill_finish. rewrite heap_upd_ne by congruence.
  change (heap (uncache self ?x)) with (heap x).
  unfold discard_from_parents.
  pose proof (discard_lookup self
    (match heap (upd self (set_parents ∅) s) !! self with
     | Some r => depends_on_list r
     | None => []
     end) (upd self (set_parents ∅) s) m) as H.
  rewrite heap_upd_ne in H by congruence. exact H.
Qed.

Lemma kill_finish_self self s r :
  heap s !! self = Some r ->
  exists r', heap (kill_finish self s) !! self = Some r' /\
             erase_parents r' = erase_parents (break_references r) /\
             parents r' = ∅ /\ mark r' = mark r.
Proof.
  intros Hr. unfold kill_finish. rewrite heap_upd_eq.
  change (heap (uncache self ?x)) with (heap x).
  unfold discard_from_parents.
  generalize (match heap (upd self (set_parents ∅) s) !! self with
              | Some r => depends_on_list r
              | None => []
              end).
  intros deps.
  pose proof (discard_lookup self deps (upd self (set_parents ∅) s) self) as H.
  rewrite heap_upd_eq, Hr in H. simpl in H.
  inversion H as [? rB (He & Hs & _ & Hmk) Heq1 Heq2 |]; subst.
  exists (break_references rB). split; [reflexivity |]. split; [| split].
  - rewrite !erase_break_references. f_equal. exact He.
  - rewrite parents_break_references. simpl in Hs. set_solver.
  - rewrite !mark_break_references. exact Hmk.
Qed.

Lemma kill_rel_live s s' p : kill_rel s s' -> live s' p -> live s p.
Proof.
  intros [Hdom Hrel] (r' & Hr' & Hk').
  assert (is_Some (heap s !! p)) as [r Hr].
  { apply elem_of_dom. rewrite <- Hdom. apply elem_of_dom. eauto. }
  exists r. split; [exact Hr |].
  destruct (Hrel p r Hr) as (r'' & Hr'' & _ & Hmono & _).
  assert (r'' = r') as -> by congruence.
  destruct (killed r); [| reflexivity]. rewrite Hmono in Hk'; auto.
Qed.

Lemma kill_rel_refl s : kill_rel s s.
Proof.
  split; [reflexivity |]. intros m r Hr. exists r. split; [exact Hr |].
  repeat split; auto; try set_solver. congruence.
Qed.

Lemma kill_rel_trans s1 s2 s3 : kill_rel s1 s2 -> kill_rel s2 s3 -> kill_rel s1 s3.
Proof.
  intros H12 H23. pose proof H12 as [Hd1 Hr1]. pose proof H23 as [Hd2 Hr2].
  split; [congruence |]. intros m r1 Hm1.
  destruct (Hr1 m r1 Hm1) as (r2 & Hm2 & Hp1 & Hmono1 & Hsame1 & Hnew1 & Hlive1).
  destruct (Hr2 m r2 Hm2) as (r3 & Hm3 & Hp2 & Hmono2 & Hsame2 & Hnew2 & Hlive2).
  exists r3. split; [exact Hm3 |].
  split; [set_solver |]. split; [auto |]. split; [| split].
  - intros Hk. destruct (killed r1) eqn:Hk1.
    + rewrite Hsame2, Hsame1; auto; rewrite ?Hmono1; auto.
    + destruct (killed r2) eqn:Hk2.
      * rewrite Hmono2 in Hk; [discriminate | reflexivity].
      * rewrite Hsame2, Hsame1; congruence.
  - intros Hk1 Hk3. destruct (killed r2) eqn:Hk2.
    + rewrite Hsame2 by congruence. auto.
    + rewrite Hnew2 by (reflexivity || assumption).
      rewrite !erase_break_references, !erase_set_killed.
      rewrite Hsame1 by congruence. reflexivity.
  - intros Hk3 p Hp Hnp.
    assert (Hk2 : killed r2 = false).
    { destruct (killed r2); [| reflexivity]. rewrite Hmono2 in Hk3; auto. }
    destruct (decide (p ∈ parents r2)) as [Hin | Hnin].
    + apply Hlive2; assumption.
    + intros Hl. apply (kill_rel_live _ _ _ H23) in Hl.
      revert Hl. apply Hlive1; assumption.
Qed.

Lemma kill_rel_node self s r s2 :
  heap s !! self = Some r -> killed r = false ->
  kill_rel (upd self (set_killed true) s) s2 ->
  kill_rel s (kill_finish self s2).
Proof.
  intros Hr Hk H12. pose proof H12 as [Hdom Hrel].
  (* the record of [self] when the loop over the parents is over *)
  destruct (Hrel self (set_killed true r)) as (r2 & Hr2 & _ & Hmono2 & Hsame2 & _).
  { rewrite heap_upd_eq, Hr. reflexivity. }
  assert (Hk2 : killed r2 = true) by (apply Hmono2; reflexivity).
  destruct (kill_finish_self self s2 r2 Hr2) as (rf & Hrf & Hef & Hpf & _).
  assert (Hkf : killed rf = true).
  { rewrite (erase_killed _ _ Hef), killed_break_references. exact Hk2. }
  assert (Hdead : ~ live (kill_finish self s2) self).
  { intros (r' & Hr' & Hk'). congruence. }
  split.
  { rewrite dom_heap_kill_finish, Hdom. apply dom_heap_upd. }
  intros m rm Hm. destruct (decide (m = self)) as [-> | Hne].
  - assert (rm = r) as -> by congruence.
    exists rf. split; [exact Hrf |].
    split; [rewrite Hpf; set_solver |].
    split; [congruence |]. split; [congruence |]. split; [| congruence].
    intros _ _. rewrite Hef, !erase_break_references. f_equal.
    apply Hsame2. rewrite Hk2. reflexivity.
  - destruct (Hrel m rm) as (r2m & Hr2m & Hp & Hmono & Hsame & Hnew & Hlive).
    { rewrite heap_upd_ne by congruence. exact Hm. }
    pose proof (kill_finish_other self s2 m Hne) as Hfin.
    rewrite Hr2m in Hfin.
    inversion Hfin as [? r' (He & Hs & Hl & _) Heq1 Heq2 |].
    subst. symmetry in Heq2. exists r'. split; [exact Heq2 |].
    pose proof (erase_killed _ _ He) as Hkeq.
    split; [set_solver |]. split; [rewrite Hkeq; exact Hmono |].
    split; [| split].
    + intros Hkk. rewrite He. apply Hsame. congruence.
    + intros Hk1 Hk'. rewrite He. apply Hnew; congruence.
    + intros Hk' p Hp1 Hnp. destruct (decide (p ∈ parents r2m)) as [Hin | Hnin].
      * rewrite (Hl p Hin Hnp). exact Hdead.
      * intros (rp' & Hrp' & Hkp').
        apply (Hlive ltac:(congruence) p Hp1 Hnin).
        destruct (decide (p = self)) as [-> | Hps]; [congruence |].
        pose proof (kill_finish_other self s2 p Hps) as Hfp.
        rewrite Hrp' in Hfp. inversion Hfp as [r2p ? (Hep & _) Heq3 Heq4 |].
        subst. exists r2p. split; [congruence |].
        rewrite <- (erase_killed _ _ Hep). exact Hkp'.
Qed.

Lemma kill_effect fuel self s s' : kill fuel self s = Some s' -> kill_rel s s'.
Proof.
  apply (flagged_rel killed (set_killed true) kill_finish kill).
  - reflexivity.
  - apply kill_S.
  - apply kill_rel_refl.
  - apply kill_rel_trans.
  - apply kill_rel_node.
Qed.

(** ** parents is the inverse of depends_on_list *)

Lemma live_upd n f s m :
  (forall r, killed (f r) = killed r) -> (live (upd n f s) m <-> live s m).
Proof.
  intros Hf. unfold live. rewrite heap_upd.
  case_decide as Hnm; [subst m | reflexivity].
  destruct (heap s !! n) as [r |]; simpl; split.
  - intros (r' & [= <-] & Hk). exists r. rewrite <- Hf. auto.
  - intros (r' & [= <-] & Hk). exists (f r). rewrite Hf. auto.
  - intros (r' & [=] & _).
  - intros (r' & [=] & _).
Qed.

Lemma is_parent_upd n f s a b :
  is_parent (upd n f s) a b <->
  exists ra, heap s !! a = Some ra /\
             b ∈ parents (if decide (n = a) then f ra else ra).
Proof.
  unfold is_parent. rewrite heap_upd. case_decide as Hna; [subst a |].
  - destruct (heap s !! n) as [r |]; simpl; split.
    + intros (r' & [= <-] & Hb). eauto.
    + intros (r' & [= <-] & Hb). eauto.
    + intros (r' & [=] & _).
    + intros (r' & [=] & _).
  - reflexivity.
Qed.

Lemma is_dependency_upd n f s b a :
  is_dependency (upd n f s) b a <->
  exists rb, heap s !! b = Some rb /\
             a ∈ depends_on_list (if decide (n = b) then f rb else rb).
Proof.
  unfold is_dependency. rewrite heap_upd. case_decide as Hnb; [subst b |].
  - destruct (heap s !! n) as [r |]; simpl; split.
    + intros (r' & [= <-] & Hb). eauto.
    + intros (r' & [= <-] & Hb). eauto.
    + intros (r' & [=] & _).
    + intros (r' & [=] & _).
  - reflexivity.
Qed.

(** An update of other fields keeps the invariant. *)
Lemma parents_inverse_upd n f s :
  (forall r, killed (f r) = killed r) ->
  (forall r, parents (f r) = parents r) ->
  (forall r, depends_on_list (f r) = depends_on_list r) ->
  parents_inverse s -> parents_inverse (upd n f s).
Proof.
  intros Hk Hp Hd Hinv a b Ha Hb.
  apply live_upd in Ha; [| exact Hk]. apply live_upd in Hb; [| exact Hk].
  rewrite is_parent_upd, is_dependency_upd.
  specialize (Hinv a b Ha Hb). unfold is_parent, is_dependency in Hinv.
  split.
  - intros (ra & Hra & Hin).
    assert (b ∈ parents ra)
      by (destruct (decide (n = a)); [rewrite Hp in Hin |]; exact Hin).
    clear Hin. destruct (proj1 Hinv) as (rb & Hrb & Hin'); [eauto |].
    exists rb. split; [exact Hrb |].
    destruct (decide (n = b)); [rewrite Hd |]; exact Hin'.
  - intros (rb & Hrb & Hin).
    assert (a ∈ depends_on_list rb)
      by (destruct (decide (n = b)); [rewrite Hd in Hin |]; exact Hin).
    clear Hin. destruct (proj2 Hinv) as (ra & Hra & Hin'); [eauto |].
    exists ra. split; [exact Hra |].
    destruct (decide (n = a)); [rewrite Hp |]; exact Hin'.
Qed.

(** [link] adds the edge in both directions. *)
Lemma link_edges self source s a b :
  live s a -> live s b ->
  (is_parent (link self source s) a b <->
   is_parent s a b \/ (a = source /\ b = self)) /\
  (is_dependency (link self source s) b a <->
   is_dependency s b a \/ (a = source /\ b = self)).
Proof.
  intros (ra & Hra & _) (rb & Hrb & _). unfold link, is_parent, is_dependency.
  rewrite !heap_upd, Hra, Hrb. split.
  - destruct (decide (source = a)) as [<- | Hsa];
      destruct (decide (self = source)) as [-> | Hss]; simpl; split.
    + intros (r' & [= <-] & Hb). simpl in Hb.
      apply elem_of_union in Hb as [Hb | Hb]; [left; eauto |].
      right. split; [reflexivity | set_solver].
    + intros [(r' & [= <-] & Hb) | [_ ->]]; eexists; (split; [reflexivity |]);
        simpl; set_solver.
    + intros (r' & [= <-] & Hb). simpl in Hb.
      apply elem_of_union in Hb as [Hb | Hb]; [left; eauto |].
      right. split; [reflexivity | set_solver].
    + intros [(r' & [= <-] & Hb) | [_ ->]]; eexists; (split; [reflexivity |]);
        simpl; set_solver.
    + case_decide; simpl; intros (r' & [= <-] & Hb); left; eauto.
    + intros [(r' & [= <-] & Hb) | [? _]]; [| congruence].
      case_decide; simpl; eauto.
    + case_decide; simpl; intros (r' & [= <-] & Hb); left; eauto.
    + intros [(r' & [= <-] & Hb) | [? _]]; [| congruence].
      case_decide; simpl; eauto.
  - destruct (decide (source = b)) as [<- | Hsb];
      destruct (decide (self = source)) as [-> | Hss]; simpl; split.
    + intros (r' & [= <-] & Ha). simpl in Ha.
      apply elem_of_app in Ha as [Ha | Ha]; [left; eauto |].
      right. apply list_elem_of_singleton in Ha. auto.
    + intros [(r' & [= <-] & Ha) | [-> _]]; eexists; (split; [reflexivity |]);
        simpl; set_solver.
    + intros (r' & [= <-] & Ha). left. eauto.
    + intros [(r' & [= <-] & Ha) | [_ ?]]; [eauto | congruence].
    + case_decide as Hsb'; [congruence |]. intros (r' & [= <-] & Ha). left. eauto.
    + case_decide as Hsb'; [congruence |].
      intros [(r' & [= <-] & Ha) | [_ ?]]; [eauto | congruence].
    + case_decide as Hsb'; simpl.
      * intros (r' & [= <-] & Ha). simpl in Ha.
        apply elem_of_app in Ha as [Ha | Ha]; [left; eauto |].
        right. apply list_elem_of_singleton in Ha. auto.
      * intros (r' & [= <-] & Ha). left. eauto.
    + case_decide as Hsb'; simpl.
      * intros [(r' & [= <-] & Ha) | [-> _]]; eexists;
          (split; [reflexivity |]); simpl; set_solver.
      * intros [(r' & [= <-] & Ha) | [_ ?]]; [eauto | congruence].
Qed.

Lemma live_link self source s m : live (link self source s) m <-> live s m.
Proof. unfold link. rewrite !live_upd; reflexivity. Qed.

Lemma parents_inverse_link self source s :
  parents_inverse s -> parents_inverse (link self source s).
Proof.
  intros Hinv a b Ha Hb. apply live_link in Ha. apply live_link in Hb.
  destruct (link_edges self source s a b Ha Hb) as [-> ->].
  rewrite (Hinv a b Ha Hb). reflexivity.
Qed.

Lemma link_adds_both self source s rs rsrc :
  heap s !! self = Some rs -> heap s !! source = Some rsrc ->
  is_dependency (link self source s) self source /\
  is_parent (link self source s) source self.
Proof.
  intros Hs Hsrc. unfold link, is_dependency, is_parent.
  rewrite !heap_upd, Hs, Hsrc. split.
  - destruct (decide (source = self)) as [-> | Hne];
      (case_decide; [| congruence]); simpl; eexists;
      (split; [reflexivity |]); simpl; set_solver.
  - (case_decide; [| congruence]).
    destruct (decide (self = source)); simpl; eexists;
      (split; [reflexivity |]); simpl; set_solver.
Qed.

Lemma parents_inverse_depends_on self source focus s :
  parents_inverse s -> parents_inverse (fst (depends_on self source focus s)).
Proof.
  intros Hinv. unfold depends_on. case_decide; [exact Hinv |].
  destruct focus; simpl.
  - apply parents_inverse_upd; try reflexivity.
    apply parents_inverse_link. exact Hinv.
  - apply parents_inverse_link. exact Hinv.
Qed.

Lemma parents_inverse_blit_with conv load_texture self source pos focus main
    index s :
  parents_inverse s ->
  parents_inverse
    (fst (blit_with conv load_texture self source pos focus main index s)).
Proof.
  intros Hinv. unfold blit_with. case_decide; [exact Hinv |].
  match goal with
  | |- context [upd self ?f s] =>
      assert (Hupd : parents_inverse (upd self f s))
        by (apply parents_inverse_upd; try reflexivity; exact Hinv)
  end.
  destruct (models s); destruct source; simpl;
    solve [exact Hupd | apply parents_inverse_link; exact Hupd].
Qed.

Lemma parents_inverse_add_focus self t s :
  parents_inverse s -> parents_inverse (fst (add_focus self t s)).
Proof.
  intros Hinv. unfold add_focus.
  assert (Hmask : forall m,
    parents_inverse (fst (if decide (m = self) then (s, inr tt)
                          else depends_on self m false s))).
  { intros m. case_decide; [exact Hinv |].
    apply parents_inverse_depends_on. exact Hinv. }
  destruct (fo_mask t) as [[m | x | x] |]; simpl;
    try (apply parents_inverse_upd; try reflexivity; exact Hinv).
  specialize (Hmask m).
  destruct (if decide (m = self) then (s, inr tt)
            else depends_on self m false s) as [s1 [e | u]]; simpl in *.
  - exact Hmask.
  - apply parents_inverse_upd; try reflexivity. exact Hmask.
Qed.

Lemma parents_inverse_add_uniform self name value s :
  parents_inverse s -> parents_inverse (fst (add_uniform self name value s)).
Proof.
  intros Hinv. unfold add_uniform. destruct value as [v | x]; simpl.
  - pose proof (parents_inverse_depends_on self v false s Hinv) as Hdep.
    destruct (depends_on self v false s) as [s1 [e | u]]; simpl in *.
    + exact Hdep.
    + apply parents_inverse_upd; try reflexivity.
      apply parents_inverse_upd; try reflexivity. exact Hdep.
  - apply parents_inverse_upd; try reflexivity. exact Hinv.
Qed.

Lemma parents_inverse_kill_rel s s' :
  parents_inverse s -> kill_rel s s' -> parents_inverse s'.
Proof.
  intros Hinv Hrel a b Ha Hb.
  pose proof (kill_rel_live _ _ _ Hrel Ha) as Ha0.
  pose proof (kill_rel_live _ _ _ Hrel Hb) as Hb0.
  specialize (Hinv a b Ha0 Hb0).
  destruct Ha0 as (ra & Hra & Hka). destruct Hb0 as (rb & Hrb & Hkb).
  destruct Hrel as [_ Hrel].
  destruct (Hrel a ra Hra) as (ra' & Hra' & Hpa & _ & Hsa & _ & Hla).
  destruct (Hrel b rb Hrb) as (rb' & Hrb' & _ & _ & Hsb & _ & _).
  assert (Hka' : killed ra' = false).
  { destruct Ha as (x & Hx & Hkx). congruence. }
  assert (Hkb' : killed rb' = false).
  { destruct Hb as (x & Hx & Hkx). congruence. }
  assert (Hdeps : depends_on_list rb' = depends_on_list rb).
  { apply (f_equal depends_on_list (Hsb ltac:(congruence))). }
  unfold is_parent, is_dependency in *. split.
  - intros (x & Hx & Hin). assert (x = ra') as -> by congruence.
    destruct (proj1 Hinv) as (y & Hy & Hin'); [exists ra; split; auto |].
    assert (y = rb) as -> by congruence.
    exists rb'. split; [exact Hrb' |]. rewrite Hdeps. exact Hin'.
  - intros (y & Hy & Hin). assert (y = rb') as -> by congruence.
    rewrite Hdeps in Hin.
    destruct (proj2 Hinv) as (x & Hx & Hin'); [exists rb; split; auto |].
    assert (x = ra) as -> by congruence.
    exists ra'. split; [exact Hra' |].
    destruct (decide (b ∈ parents ra')) as [Hyes | Hno]; [exact Hyes |].
    exfalso. apply (Hla Hka' b Hin' Hno). exact Hb.
Qed.

(** *** The edges [kill] removes *)

Lemma kill_rel_lookup_fwd s s' m r' :
  kill_rel s s' -> heap s' !! m = Some r' ->
  exists r, heap s !! m = Some r /\ node_kill_rel s' r r'.
Proof.
  intros [Hdom Hnode] Hr'.
  assert (Hin : m ∈ dom (heap s)) by (rewrite <- Hdom; apply elem_of_dom; eauto).
  apply elem_of_dom in Hin as [r Hr].
  destruct (Hnode m r Hr) as (r'' & Hr'' & Hrel).
  rewrite Hr' in Hr''. injection Hr'' as <-. eauto.
Qed.

Lemma unflagged_kill_rel s s' :
  kill_rel s s' -> unflagged killed s' ⊆ unflagged killed s.
Proof.
  intros Hrel m Hm. apply elem_of_unflagged in Hm as (r' & Hr' & Hl').
  destruct (kill_rel_lookup_fwd s s' m r' Hrel Hr') as (r & Hr & _ & Hst & _).
  apply elem_of_unflagged. exists r. split; [exact Hr |].
  destruct (killed r) eqn:Hk; [| reflexivity]. rewrite Hst in Hl'; congruence.
Qed.

Lemma discard_removes self (deps : list nat) : forall s c rc',
  c ∈ deps ->
  heap (foldl (fun s i =>
                 upd i (fun ri => set_parents (parents ri ∖ {[self]}) ri) s)
              s deps) !! c = Some rc' ->
  self ∉ parents rc'.
Proof.
  induction deps as [|i deps IH]; intros s c rc' Hc Hrc'.
  - by apply elem_of_nil in Hc.
  - simpl in Hrc'. apply elem_of_cons in Hc as [-> | Hc]; [| by eapply IH].
    pose proof (discard_lookup self deps
      (upd i (fun ri => set_parents (parents ri ∖ {[self]}) ri) s) i) as Hl.
    rewrite Hrc', heap_upd_eq in Hl.
    destruct (heap s !! i) as [ri|]; simpl in Hl; inversion Hl as [a b Hlost |].
    subst. destruct Hlost as (_ & Hsub & _). simpl in Hsub. set_solver.
Qed.

Lemma kill_edges_rel_refl s : kill_edges_rel s s.
Proof. intros k rk rk' Hk Hk'. congruence. Qed.

Lemma kill_edges_rel_trans s1 s2 s3 :
  kill_rel s1 s2 -> kill_edges_rel s1 s2 ->
  kill_rel s2 s3 -> kill_edges_rel s2 s3 ->
  kill_edges_rel s1 s3.
Proof.
  intros Hk12 He12 Hk23 He23 k r1 r3 Hr1 Hr3 Hl1 Hd3.
  destruct (kill_rel_lookup_fwd s2 s3 k r3 Hk23 Hr3) as (r2 & Hr2 & Hn23).
  destruct (kill_rel_lookup_fwd s1 s2 k r2 Hk12 Hr2) as (r1' & Hr1' & Hn12).
  rewrite Hr1 in Hr1'. injection Hr1' as <-.
  pose proof (unflagged_kill_rel s2 s3 Hk23) as Hmono.
  destruct (killed r2) eqn:Hl2.
  - destruct (He12 k r1 r2 Hr1 Hr2 Hl1 Hl2) as (Hp & Hdeps & Hpar).
    split; [| split].
    + destruct Hn23 as (Hsub & _). set_solver.
    + intros c rc3 Hc Hrc3.
      destruct (kill_rel_lookup_fwd s2 s3 c rc3 Hk23 Hrc3)
        as (rc2 & Hrc2 & Hsub & _).
      pose proof (Hdeps c rc2 Hc Hrc2). set_solver.
    + intros p Hp'. pose proof (Hpar p Hp'). set_solver.
  - destruct Hn12 as (_ & _ & Hsame & _ & Hgone).
    assert (He : erase_parents r2 = erase_parents r1)
      by (apply Hsame; congruence).
    destruct (He23 k r2 r3 Hr2 Hr3 Hl2 Hd3) as (Hp & Hdeps & Hpar).
    split; [exact Hp |]. split.
    + intros c rc3 Hc. apply Hdeps.
      by rewrite (f_equal depends_on_list He
                  : depends_on_list r2 = depends_on_list r1).
    + intros p Hp'. destruct (decide (p ∈ parents r2)) as [Hin | Hout].
      * by apply Hpar.
      * intros Hu. apply (Hgone Hl2 p Hp' Hout).
        apply Hmono in Hu. by apply elem_of_unflagged in Hu.
Qed.

Lemma kill_edges_rel_node self s r s2 :
  heap s !! self = Some r -> killed r = false ->
  kill_rel (upd self (set_killed true) s) s2 ->
  kill_edges_rel (upd self (set_killed true) s) s2 ->
  (forall p, p ∈ parents r -> p ∉ unflagged killed s2) ->
  kill_edges_rel s (kill_finish self s2).
Proof.
  intros Hr Hl Hk He Hpars k rk rk' Hrk Hrk' Hlk Hdk.
  assert (Hr1 : heap (upd self (set_killed true) s) !! self
                = Some (set_killed true r)) by (by rewrite heap_upd_eq, Hr).
  pose proof Hk as [Hdom Hnode].
  destruct (Hnode self _ Hr1) as (r2 & Hr2 & Hrel2).
  assert (He2 : erase_parents r2 = erase_parents (set_killed true r)).
  { destruct Hrel2 as (_ & Hst & Hsame & _). apply Hsame. rewrite Hst; reflexivity. }
  assert (Hdeps2 : depends_on_list r2 = depends_on_list r)
    by exact (f_equal depends_on_list He2).
  assert (Hshrink : forall c rc', heap (kill_finish self s2) !! c = Some rc' ->
            exists rc2, heap s2 !! c = Some rc2 /\ parents rc' ⊆ parents rc2).
  { intros c rc' Hc. destruct (decide (c = self)) as [-> | Hne].
    - destruct (kill_finish_self self s2 r2 Hr2) as (rf & Hrf & _ & Hp & _).
      rewrite Hc in Hrf. injection Hrf as <-. exists r2.
      split; [exact Hr2 | set_solver].
    - pose proof (kill_finish_other self s2 c Hne) as Hlo. rewrite Hc in Hlo.
      inversion Hlo as [a b Hlost Ha Hb |]. subst. exists a.
      split; [reflexivity |]. by destruct Hlost as (_ & Hsub & _). }
  rewrite unflagged_kill_finish.
  destruct (decide (k = self)) as [-> | Hks].
  - rewrite Hr in Hrk. injection Hrk as <-.
    destruct (kill_finish_self self s2 r2 Hr2) as (rf & Hrf & _ & Hp & _).
    rewrite Hrk' in Hrf. injection Hrf as <-.
    split; [exact Hp |]. split; [| exact Hpars].
    intros c rc' Hc Hrc'. destruct (decide (c = self)) as [-> | Hne].
    + rewrite Hrk' in Hrc'. injection Hrc' as <-. set_solver.
    + revert Hrc'. unfold kill_finish. rewrite heap_upd_ne by congruence.
      change (heap (uncache self ?x)) with (heap x).
      unfold discard_from_parents. rewrite heap_upd_eq, Hr2. simpl.
      apply discard_removes. by rewrite Hdeps2.
  - assert (Hk1 : heap (upd self (set_killed true) s) !! k = Some rk)
      by (by rewrite heap_upd_ne).
    destruct (Hnode k rk Hk1) as (rk2 & Hrk2 & _).
    pose proof (kill_finish_other self s2 k Hks) as Hlo.
    rewrite Hrk2, Hrk' in Hlo. inversion Hlo as [a b Hlost Ha Hb |]. subst a b.
    destruct Hlost as (Hek & Hsubk & _).
    assert (Hdk2 : killed rk2 = true).
    { rewrite <- Hdk. symmetry. exact (f_equal killed Hek). }
    destruct (He k rk rk2 Hk1 Hrk2 Hlk Hdk2) as (Hp & Hdeps & Hpar).
    split; [set_solver |]. split; [| exact Hpar].
    intros c rc' Hc Hrc'. destruct (Hshrink c rc' Hrc') as (rc2 & Hrc2 & Hsub).
    pose proof (Hdeps c rc2 Hc Hrc2). set_solver.
Qed.

Lemma kill_edges_effect fuel : forall self s s',
  kill fuel self s = Some s' -> kill_edges_rel s s'.
Proof.
  induction fuel as [|fuel IH]; intros self s s' Hk; [discriminate |].
  rewrite kill_S in Hk. destruct (heap s !! self) as [r|] eqn:Hr.
  - destruct (killed r) eqn:Hl.
    + injection Hk as <-. apply kill_edges_rel_refl.
    + destruct (for_each (kill fuel) (elements (parents r))
                  (upd self (set_killed true) s)) as [s2|] eqn:Hfe;
        [| discriminate].
      injection Hk as <-.
      assert (Hboth : kill_rel (upd self (set_killed true) s) s2 /\
                      kill_edges_rel (upd self (set_killed true) s) s2).
      { apply (for_each_rel (fun a b => kill_rel a b /\ kill_edges_rel a b)
                 (kill fuel)) with (l := elements (parents r));
          [| | | exact Hfe].
        - intros t. split; [apply kill_rel_refl | apply kill_edges_rel_refl].
        - intros t1 t2 t3 [Ha Hb] [Hc Hd].
          split; [by apply (kill_rel_trans t1 t2 t3) |].
          by apply (kill_edges_rel_trans t1 t2 t3).
        - intros n t t' Hn. split; [by apply (kill_effect fuel n) |].
          by apply (IH n). }
      destruct Hboth as [Hrel Hedges].
      apply (kill_edges_rel_node self s r s2 Hr Hl Hrel Hedges).
      intros p Hp.
      destruct (for_each_flags killed (set_killed true) kill_finish kill
                  (fun _ => eq_refl) unflagged_kill_finish dom_heap_kill_finish
                  (fun _ _ => eq_refl) kill_S fuel _ _ _ Hfe) as [_ Hall].
      apply Hall. by apply elem_of_elements.
  - injection Hk as <-. apply kill_edges_rel_refl.
Qed.

(** *** The edges the methods add *)

Lemma blit_with_adds_both conv load_texture self src pos focus main index s
    rs rsrc :
  src ≠ self -> heap s !! self = Some rs -> heap s !! src = Some rsrc ->
  snd (blit_with conv load_texture self (CRender src) pos focus main index s)
    = inr 0%Z /\
  is_dependency
    (fst (blit_with conv load_texture self (CRender src) pos focus main index s))
    self src /\
  is_parent
    (fst (blit_with conv load_texture self (CRender src) pos focus main index s))
    src self.
Proof.
  intros Hne Hs Hsrc. unfold blit_with.
  rewrite decide_False by congruence.
  assert (Hgo : forall f,
    is_dependency (link self src (upd self f s)) self src /\
    is_parent (link self src (upd self f s)) src self).
  { intros f. apply (link_adds_both self src _ (f rs) rsrc).
    - by rewrite heap_upd_eq, Hs.
    - by rewrite heap_upd_ne. }
  destruct (models s); simpl; (split; [reflexivity | apply Hgo]).
Qed.

Lemma upd_keeps_edges n f s a b :
  (forall r, depends_on_list (f r) = depends_on_list r) ->
  (forall r, parents (f r) = parents r) ->
  (is_dependency s a b -> is_dependency (upd n f s) a b) /\
  (is_parent s a b -> is_parent (upd n f s) a b).
Proof.
  intros Hd Hp. split.
  - intros (ra & Ha & Hin). apply is_dependency_upd. exists ra.
    split; [exact Ha |]. case_decide; [by rewrite Hd | exact Hin].
  - intros (ra & Ha & Hin). apply is_parent_upd. exists ra.
    split; [exact Ha |]. case_decide; [by rewrite Hp | exact Hin].
Qed.

Lemma depends_on_adds_both self source focus s rs rsrc :
  source ≠ self -> heap s !! self = Some rs -> heap s !! source = Some rsrc ->
  snd (depends_on self source focus s) = inr tt /\
  is_dependency (fst (depends_on self source focus s)) self source /\
  is_parent (fst (depends_on self source focus s)) source self.
Proof.
  intros Hne Hs Hsrc. unfold depends_on. rewrite decide_False by exact Hne.
  destruct (link_adds_both self source s rs rsrc Hs Hsrc) as [Hd Hp].
  destruct focus; simpl; (split; [reflexivity |]); [| by split].
  split; by apply upd_keeps_edges.
Qed.

Lemma add_uniform_adds_both self name v s rs rsrc :
  v ≠ self -> heap s !! self = Some rs -> heap s !! v = Some rsrc ->
  snd (add_uniform self name (URender v) s) = inr tt /\
  is_dependency (fst (add_uniform self name (URender v) s)) self v /\
  is_parent (fst (add_uniform self name (URender v) s)) v self.
Proof.
  intros Hne Hs Hsrc. unfold add_uniform.
  destruct (depends_on_adds_both self v false s rs rsrc Hne Hs Hsrc)
    as (Hres & Hd & Hp).
  destruct (depends_on self v false s) as [s1 [e | []]]; simpl in *;
    [discriminate |].
  split; [reflexivity |].
  split; apply upd_keeps_edges; try reflexivity;
    apply upd_keeps_edges; try reflexivity; assumption.
Qed.

Lemma add_focus_adds_both self t m s rs rsrc :
  fo_mask t = Some (CRender m) ->
  m ≠ self -> heap s !! self = Some rs -> heap s !! m = Some rsrc ->
  snd (add_focus self t s) = inr tt /\
  is_dependency (fst (add_focus self t s)) self m /\
  is_parent (fst (add_focus self t s)) m self.
Proof.
  intros Hmask Hne Hs Hsrc. unfold add_focus. rewrite Hmask.
  rewrite decide_False by exact Hne.
  destruct (depends_on_adds_both self m false s rs rsrc Hne Hs Hsrc)
    as (Hres & Hd & Hp).
  destruct (depends_on self m false s) as [s1 [e | []]]; simpl in *;
    [discriminate |].
  split; [reflexivity |].
  split; apply upd_keeps_edges; try reflexivity; assumption.
Qed.

(** C9: let, in a state, B be in A's parents exactly when A is in B's
    depends_on list, for all live nodes A and B.
    (1) The same holds in the state that blit, subpixel_blit,
    absolute_blit, depends_on, add_uniform or add_focus leaves, whether
    it returned or raised.
    (2) Each of them, given a Render other than the node itself (as the
    source, the value of the uniform, or the mask), returns normally and
    adds both directions: afterwards the Render is in the node's
    depends_on list and the node is in the Render's parents.
    (3) kill, with more fuel than the heap has nodes, returns a state in
    which the invariant holds again and the node is killed; and it
    removes both directions of every edge of every node K it kills: K's
    depends_on list and K's parents are empty, K is in the parents of
    none of the nodes it depended on, and every node that was alive and
    in K's parents is killed too, so that K is in its depends_on list no
    more. *)
Theorem parents_inverse_invariant (s : State) :
  parents_inverse s ->
  ((forall lt self source pos focus main index,
      parents_inverse (fst (blit lt self source pos focus main index s)) /\
      parents_inverse (fst (subpixel_blit lt self source pos focus main index s)) /\
      parents_inverse (fst (absolute_blit lt self source pos focus main index s))) /\
   (forall self source focus,
      parents_inverse (fst (depends_on self source focus s))) /\
   (forall self name value,
      parents_inverse (fst (add_uniform self name value s))) /\
   (forall self t, parents_inverse (fst (add_focus self t s)))) /\
  (forall self src rs rsrc,
     src ≠ self -> heap s !! self = Some rs -> heap s !! src = Some rsrc ->
     (forall lt pos focus main index,
        (snd (blit lt self (CRender src) pos focus main index s) = inr 0%Z /\
         is_dependency (fst (blit lt self (CRender src) pos focus main index s))
           self src /\
         is_parent (fst (blit lt self (CRender src) pos focus main index s))
           src self) /\
        (snd (subpixel_blit lt self (CRender src) pos focus main index s)
           = inr 0%Z /\
         is_dependency
           (fst (subpixel_blit lt self (CRender src) pos focus main index s))
           self src /\
         is_parent
           (fst (subpixel_blit lt self (CRender src) pos focus main index s))
           src self) /\
        (snd (absolute_blit lt self (CRender src) pos focus main index s)
           = inr 0%Z /\
         is_dependency
           (fst (absolute_blit lt self (CRender src) pos focus main index s))
           self src /\
         is_parent
           (fst (absolute_blit lt self (CRender src) pos focus main index s))
           src self)) /\
     (forall focus,
        snd (depends_on self src focus s) = inr tt /\
        is_dependency (fst (depends_on self src focus s)) self src /\
        is_parent (fst (depends_on self src focus s)) src self) /\
     (forall name,
        snd (add_uniform self name (URender src) s) = inr tt /\
        is_dependency (fst (add_uniform self name (URender src) s)) self src /\
        is_parent (fst (add_uniform self name (URender src) s)) src self) /\
     (forall t, fo_mask t = Some (CRender src) ->
        snd (add_focus self t s) = inr tt /\
        is_dependency (fst (add_focus self t s)) self src /\
        is_parent (fst (add_focus self t s)) src self)) /\
  (forall fuel self, size (heap s) < fuel ->
     exists s', kill fuel self s = Some s' /\ parents_inverse s' /\
       (forall r, heap s !! self = Some r ->
          exists r', heap s' !! self = Some r' /\ killed r' = true) /\
       (forall k rk rk',
          heap s !! k = Some rk -> heap s' !! k = Some rk' ->
          killed rk = false -> killed rk' = true ->
          depends_on_list rk' = [] /\ parents rk' = ∅ /\
          (forall c rc', c ∈ depends_on_list rk -> heap s' !! c = Some rc' ->
                         k ∉ parents rc') /\
          (forall p rp rp', p ∈ parents rk ->
             heap s !! p = Some rp -> killed rp = false ->
             heap s' !! p = Some rp' ->
             killed rp' = true /\ k ∉ depends_on_list rp'))).
Proof.
  intros Hinv. split; [| split].
  - split; [| split; [| split]].
    + intros. unfold blit, subpixel_blit, absolute_blit.
      split; [| split]; apply parents_inverse_blit_with; exact Hinv.
    + intros. apply parents_inverse_depends_on. exact Hinv.
    + intros. apply parents_inverse_add_uniform. exact Hinv.
    + intros. apply parents_inverse_add_focus. exact Hinv.
  - intros self src rs rsrc Hne Hs Hsrc. split; [| split; [| split]].
    + intros lt pos focus main index. unfold blit, subpixel_blit, absolute_blit.
      split; [| split]; by apply (blit_with_adds_both _ _ _ _ _ _ _ _ _ rs rsrc).
    + intros focus. by apply (depends_on_adds_both _ _ _ _ rs rsrc).
    + intros name. by apply (add_uniform_adds_both _ _ _ _ rs rsrc).
    + intros t Hmask. by apply (add_focus_adds_both _ _ _ _ rs rsrc).
  - intros fuel self Hsize.
    destruct (kill_total_idempotent fuel self s Hsize) as (s' & Hk & _ & Hself).
    pose proof (kill_effect _ _ _ _ Hk) as Hrel.
    pose proof (kill_edges_effect _ _ _ _ Hk) as Hedges.
    exists s'. split; [exact Hk |].
    split; [exact (parents_inverse_kill_rel _ _ Hinv Hrel) |].
    assert (Hdeps : forall k rk rk',
      heap s !! k = Some rk -> heap s' !! k = Some rk' ->
      killed rk = false -> killed rk' = true -> depends_on_list rk' = []).
    { intros k rk rk' Hrk Hrk' Hlk Hdk.
      destruct (kill_rel_lookup_fwd s s' k rk' Hrel Hrk')
        as (rk0 & Hrk0 & _ & _ & _ & Hnew & _).
      rewrite Hrk in Hrk0. injection Hrk0 as <-.
      rewrite (f_equal depends_on_list (Hnew Hlk Hdk)
               : depends_on_list rk' = depends_on_list (break_references _)).
      apply depends_on_list_break_references. }
    assert (Hdead : forall p rp', p ∉ unflagged killed s' ->
              heap s' !! p = Some rp' -> killed rp' = true).
    { intros p rp' Hp Hrp'. destruct (killed rp') eqn:Hl; [reflexivity |].
      exfalso. apply Hp, elem_of_unflagged. eauto. }
    split.
    + intros r Hr. destruct Hrel as [_ Hnode].
      destruct (Hnode self r Hr) as (r' & Hr' & _).
      exists r'. split; [exact Hr' | by apply (Hdead self)].
    + intros k rk rk' Hrk Hrk' Hlk Hdk.
      destruct (Hedges k rk rk' Hrk Hrk' Hlk Hdk) as (Hp & Hc & Hpar).
      split; [by apply (Hdeps k rk) |]. split; [exact Hp |].
      split; [exact Hc |].
      intros p rp rp' Hin Hrp Hlp Hrp'.
      assert (Hdp : killed rp' = true) by (apply (Hdead p); auto).
      split; [exact Hdp |].
      rewrite (Hdeps p rp rp' Hrp Hrp' Hlp Hdp). apply not_elem_of_nil.
Qed.

Lemma cycle_state_lookup a ra :
  heap cycle_state !! a = Some ra ->
  (a = 1 /\ ra = cycle_node 2 10) \/ (a = 2 /\ ra = cycle_node 1 20).
Proof.
  unfold cycle_state. simpl. intros H.
  apply lookup_insert_Some in H as [[<- <-] | [Hne H]]; [left; auto |].
  apply lookup_singleton_Some in H as [<- <-]. right; auto.
Qed.

Lemma parents_inverse_cycle_state : parents_inverse cycle_state.
Proof.
  intros a b (ra & Ha & _) (rb & Hb & _).
  apply cycle_state_lookup in Ha as [[-> ->] | [-> ->]];
    apply cycle_state_lookup in Hb as [[-> ->] | [-> ->]];
    unfold is_parent, is_dependency; split; intros (x & Hx & Hin);
    apply cycle_state_lookup in Hx as [[? ->] | [? ->]];
    try discriminate; simpl in Hin;
    try (exfalso; set_solver);
    eexists; (split; [reflexivity |]); simpl; set_solver.
Qed.

Lemma parents_inverse_invariant_witness :
  parents_inverse cycle_state /\
  parents_inverse (fst (depends_on 1 2 false cycle_state)) /\
  is_dependency (fst (depends_on 1 2 false cycle_state)) 1 2 /\
  is_parent (fst (depends_on 1 2 false cycle_state)) 2 1 /\
  exists s', kill 10 1 cycle_state = Some s' /\ parents_inverse s'.
Proof.
  pose proof parents_inverse_cycle_state as Hinv.
  pose proof (parents_inverse_invariant cycle_state Hinv)
    as ((_ & Hdep & _) & Hadd & Hkill).
  split; [exact Hinv |]. split; [apply Hdep |].
  destruct (Hadd 1 2 (cycle_node 2 10) (cycle_node 1 20))
    as (_ & Hd & _); [discriminate | reflexivity | reflexivity |].
  destruct (Hd false) as (_ & H1 & H2).
  split; [exact H1 |]. split; [exact H2 |].
  destruct (Hkill 10 1) as (s' & Hk & Hinv' & _); [vm_compute; lia |].
  exists s'. split; [exact Hk | exact Hinv'].
Defined.

(** ** kill spares what the roots reach *)

Lemma kill_rel_lookup_back s s' m r' :
  kill_rel s s' -> heap s' !! m = Some r' ->
  exists r, heap s !! m = Some r /\ node_kill_rel s' r r'.
Proof.
  intros [Hdom Hrel] Hr'.
  assert (is_Some (heap s !! m)) as [r Hr].
  { apply elem_of_dom. rewrite <- Hdom. apply elem_of_dom. eauto. }
  exists r. split; [exact Hr |].
  destruct (Hrel m r Hr) as (r'' & Hr'' & Hn). congruence.
Qed.

Lemma node_kill_rel_live_same s' r r' :
  node_kill_rel s' r r' -> killed r' = false ->
  killed r = false /\ erase_parents r' = erase_parents r.
Proof.
  intros (_ & Hmono & Hsame & _) Hk'.
  assert (Hk : killed r = false).
  { destruct (killed r); [| reflexivity]. rewrite Hmono in Hk'; auto. }
  split; [exact Hk |]. apply Hsame. congruence.
Qed.

Lemma deps_closed_kill_rel S s s' :
  deps_closed S s -> kill_rel s s' -> deps_closed S s'.
Proof.
  intros Hc Hrel m r' Hm Hr' Hk' j Hj.
  destruct (kill_rel_lookup_back _ _ _ _ Hrel Hr') as (r & Hr & Hn).
  destruct (node_kill_rel_live_same _ _ _ Hn Hk') as [Hk He].
  apply (Hc m r Hm Hr Hk).
  rewrite <- (erase_depends_on_list _ _ He). exact Hj.
Qed.

Lemma parents_sound_kill_rel s s' :
  parents_sound s -> kill_rel s s' -> parents_sound s'.
Proof.
  intros Hs Hrel a b Ha Hb (ra' & Hra' & Hin).
  pose proof (kill_rel_live _ _ _ Hrel Ha) as Ha0.
  pose proof (kill_rel_live _ _ _ Hrel Hb) as Hb0.
  destruct (kill_rel_lookup_back _ _ _ _ Hrel Hra') as (ra & Hra & Hpa & _).
  destruct (Hs a b Ha0 Hb0) as (rb & Hrb & Hdep).
  { exists ra. split; [exact Hra |]. set_solver. }
  destruct Hb as (rb' & Hrb' & Hkb').
  destruct (kill_rel_lookup_back _ _ _ _ Hrel Hrb') as (rb0 & Hrb0 & Hn).
  assert (rb0 = rb) as -> by congruence.
  destruct (node_kill_rel_live_same _ _ _ Hn Hkb') as [_ He].
  exists rb'. split; [exact Hrb' |].
  rewrite (erase_depends_on_list _ _ He). exact Hdep.
Qed.

Lemma live_set_killed self s m :
  live (upd self (set_killed true) s) m <-> m ≠ self /\ live s m.
Proof.
  unfold live. rewrite heap_upd. case_decide as Hsm; [subst m |].
  - split.
    + intros (r' & Hr' & Hk). destruct (heap s !! self); simpl in Hr';
        [| discriminate]. injection Hr' as <-. discriminate.
    + intros [Hne _]. congruence.
  - split; [intros H; split; [congruence | exact H] | tauto].
Qed.

Lemma deps_closed_set_killed S self s :
  deps_closed S s -> deps_closed S (upd self (set_killed true) s).
Proof.
  intros Hc m r' Hm Hr' Hk' j Hj. rewrite heap_upd in Hr'.
  case_decide as Hsm; [subst m |].
  - destruct (heap s !! self); simpl in Hr'; [| discriminate].
    injection Hr' as <-. discriminate.
  - eapply Hc; eauto.
Qed.

Lemma parents_sound_set_killed self s :
  parents_sound s -> parents_sound (upd self (set_killed true) s).
Proof.
  intros Hs a b Ha Hb. apply live_set_killed in Ha as [Hna Ha].
  apply live_set_killed in Hb as [Hnb Hb].
  unfold is_parent, is_dependency. rewrite !heap_upd_ne by congruence.
  apply Hs; assumption.
Qed.

Lemma keeps_alive_refl S s : keeps_alive S s s.
Proof. intros m _ H. exact H. Qed.

Lemma keeps_alive_trans S s1 s2 s3 :
  keeps_alive S s1 s2 -> keeps_alive S s2 s3 -> keeps_alive S s1 s3.
Proof. intros H12 H23 m Hm Hl. auto. Qed.

Lemma live_kill_finish self s m :
  m ≠ self -> live s m -> live (kill_finish self s) m.
Proof.
  intros Hne (r & Hr & Hk). pose proof (kill_finish_other self s m Hne) as H.
  rewrite Hr in H. inversion H as [? r' (He & _) Heq1 Heq2 |]; subst.
  exists r'. split; [symmetry; exact Heq2 |].
  rewrite (erase_killed _ _ He). exact Hk.
Qed.

(** [kill] of a node outside [S], with [S] closed under dependencies
    and parents sound, kills no live node of [S]. *)
Lemma kill_safe (S : nat -> Prop) fuel :
  forall self s s',
    deps_closed S s -> parents_sound s ->
    (S self -> live s self -> False) ->
    kill fuel self s = Some s' ->
    keeps_alive S s s'.
Proof.
  induction fuel as [| fuel IH]; intros self s s' Hc Hs Hout Hk;
    [discriminate |].
  rewrite kill_S in Hk. destruct (heap s !! self) as [r |] eqn:Hr.
  2: { injection Hk as <-. apply keeps_alive_refl. }
  destruct (killed r) eqn:Hkr.
  { injection Hk as <-. apply keeps_alive_refl. }
  destruct (for_each (kill fuel) (elements (parents r))
              (upd self (set_killed true) s)) as [s2 |] eqn:Hfe;
    [| discriminate].
  injection Hk as <-.
  assert (Hlive : live s self) by (exists r; auto).
  assert (HnS : ~ S self) by (intros HS; exact (Hout HS Hlive)).
  (* the loop over the parents *)
  assert (Hloop : forall l t t',
    deps_closed S t -> parents_sound t ->
    (forall p, p ∈ l -> S p -> live t p -> False) ->
    for_each (kill fuel) l t = Some t' ->
    keeps_alive S t t' /\ kill_rel t t').
  { intros l. induction l as [| i l IHl]; intros t t' Hct Hst Hside; simpl.
    - intros [= <-]. split; [apply keeps_alive_refl | apply kill_rel_refl].
    - destruct (kill fuel i t) as [t1 |] eqn:Hi; [| discriminate].
      intros Hrest.
      pose proof (kill_effect _ _ _ _ Hi) as Hrel1.
      assert (Hka1 : keeps_alive S t t1).
      { apply (IH i t t1 Hct Hst); [| exact Hi].
        intros HS Hl. apply (Hside i); [left | exact HS | exact Hl]. }
      destruct (IHl t1 t') as [Hka2 Hrel2]; auto.
      + eapply deps_closed_kill_rel; eauto.
      + eapply parents_sound_kill_rel; eauto.
      + intros p Hp HS Hl. eapply (Hside p); eauto.
        * right. exact Hp.
        * eapply kill_rel_live; eauto.
      + split; [eapply keeps_alive_trans | eapply kill_rel_trans]; eauto. }
  destruct (Hloop (elements (parents r)) (upd self (set_killed true) s) s2)
    as [Hka Hrel];
    [apply deps_closed_set_killed; exact Hc
    | apply parents_sound_set_killed; exact Hs | | exact Hfe |].
  { intros p Hp HS Hl. apply live_set_killed in Hl as [Hne Hl].
    apply elem_of_elements in Hp.
    destruct (Hs self p Hlive Hl) as (rp & Hrp & Hdep).
    { exists r. auto. }
    destruct Hl as (rp' & Hrp' & Hkp). assert (rp' = rp) as -> by congruence.
    apply HnS. eapply Hc; eauto. }
  intros m Hm Hl.
  assert (Hne : m ≠ self) by congruence.
  apply live_kill_finish; [exact Hne |].
  apply Hka; [exact Hm |]. apply live_set_killed. auto.
Qed.

(** ** The mark phase *)

Lemma marks_only_refl s : marks_only s s.
Proof. intros m. reflexivity. Qed.

Lemma marks_only_trans s1 s2 s3 :
  marks_only s1 s2 -> marks_only s2 s3 -> marks_only s1 s3.
Proof. intros H12 H23 m. rewrite H23. apply H12. Qed.

Lemma marks_only_upd n b s : marks_only s (upd n (set_mark b) s).
Proof.
  intros m. rewrite heap_upd. case_decide; [subst m |]; [| reflexivity].
  destruct (heap s !! n); reflexivity.
Qed.

Lemma marks_only_dom s t : marks_only s t -> dom (heap t) = dom (heap s).
Proof.
  intros H. apply set_eq. intros m. rewrite !elem_of_dom.
  specialize (H m). destruct (heap t !! m), (heap s !! m); simpl in H;
    try discriminate; split; intros [? ?]; eauto; discriminate.
Qed.

Lemma marks_only_lookup s t m r :
  marks_only s t -> heap t !! m = Some r ->
  exists r0, heap s !! m = Some r0 /\ set_mark false r = set_mark false r0.
Proof.
  intros H Hr. specialize (H m). rewrite Hr in H. simpl in H.
  destruct (heap s !! m) as [r0 |]; [| discriminate].
  exists r0. split; [reflexivity |]. simpl in H. congruence.
Qed.

Lemma mark_all_cons a l s :
  mark_all (a :: l) s = mark_all l (upd a (set_mark true) s).
Proof. reflexivity. Qed.

Lemma mark_all_spec l : forall s,
  marks_only s (mark_all l s) /\
  live_renders (mark_all l s) = live_renders s /\
  forall m r, heap (mark_all l s) !! m = Some r ->
    (mark r = true <->
     m ∈ l \/ exists r0, heap s !! m = Some r0 /\ mark r0 = true).
Proof.
  induction l as [| a l IH]; intros s.
  - split; [apply marks_only_refl |]. split; [reflexivity |].
    intros m r Hr. simpl in Hr. split.
    + intros Hm. right. eauto.
    + intros [Hin | (r0 & Hr0 & Hm)]; [inversion Hin | congruence].
  - rewrite mark_all_cons.
    destruct (IH (upd a (set_mark true) s)) as (Hmo & Hlr & Hmk).
    split; [eapply marks_only_trans; [apply marks_only_upd | exact Hmo] |].
    split; [rewrite Hlr; reflexivity |].
    intros m r Hr. rewrite (Hmk m r Hr), heap_upd, elem_of_cons.
    case_decide as Ham; [subst m |].
    + split; [auto |]. intros _.
      destruct (marks_only_lookup _ _ _ _ Hmo Hr) as (r1 & Hr1 & _).
      rewrite heap_upd_eq in Hr1.
      destruct (heap s !! a) as [r0 |]; simpl in Hr1; [| discriminate].
      right. exists (set_mark true r0). auto.
    + split; [intros [? | ?]; auto | intros [[? | ?] | ?]; auto; congruence].
Qed.

(** One step of the inner loop. *)
Lemma mark_step_spec s0 wl t j wl' t' :
  mark_step (wl, t) j = (wl', t') ->
  marks_only s0 t -> live_renders t = live_renders s0 ->
  (forall m r, heap t !! m = Some r -> (mark r = true <-> m ∈ wl)) ->
  marks_only s0 t' /\ live_renders t' = live_renders s0 /\
  (forall m r, heap t' !! m = Some r -> (mark r = true <-> m ∈ wl')) /\
  (exists added, wl' = wl ++ added /\ (forall x, x ∈ added -> x = j) /\
     length added + size (unflagged mark t') <= size (unflagged mark t)) /\
  (j ∈ dom (heap t) -> j ∈ wl').
Proof.
  unfold mark_step. intros Hstep Hmo Hlr Hmk.
  destruct (heap t !! j) as [rj |] eqn:Hj.
  - destruct (mark rj) eqn:Hmj.
    + injection Hstep as <- <-. split; [exact Hmo |]. split; [exact Hlr |].
      split; [exact Hmk |]. split.
      * exists []. rewrite app_nil_r. split; [reflexivity |].
        split; [intros x Hx; inversion Hx | simpl; lia].
      * intros _. apply (Hmk j rj Hj). exact Hmj.
    + injection Hstep as <- <-.
      split; [eapply marks_only_trans; [exact Hmo | apply marks_only_upd] |].
      split; [exact Hlr |]. split; [| split].
      * intros m r Hr. rewrite heap_upd in Hr. rewrite elem_of_app.
        case_decide as Hjm; [subst m |].
        -- rewrite Hj in Hr. injection Hr as <-. simpl.
           split; [intros _; right; left | reflexivity].
        -- rewrite (Hmk m r Hr). split; [auto |].
           intros [? | Hin]; [assumption |].
           apply list_elem_of_singleton in Hin. congruence.
      * exists [j]. split; [reflexivity |].
        split; [intros x Hx; apply list_elem_of_singleton in Hx; exact Hx |].
        rewrite (unflagged_upd_set mark j (set_mark true) t) by reflexivity.
        assert (size (unflagged mark t ∖ {[j]}) < size (unflagged mark t)).
        { apply subset_size.
          assert (j ∈ unflagged mark t) by (apply elem_of_unflagged; eauto).
          set_solver. }
        simpl. lia.
      * intros _. apply elem_of_app. right. left.
  - injection Hstep as <- <-. split; [exact Hmo |]. split; [exact Hlr |].
    split; [exact Hmk |]. split.
    + exists []. rewrite app_nil_r. split; [reflexivity |].
      split; [intros x Hx; inversion Hx | simpl; lia].
    + intros Hin. apply elem_of_dom in Hin as [? ?]. congruence.
Qed.

(** The inner loop over a list of dependencies. *)
Lemma mark_fold_spec s0 deps : forall wl t wl' t',
  foldl mark_step (wl, t) deps = (wl', t') ->
  marks_only s0 t -> live_renders t = live_renders s0 ->
  (forall m r, heap t !! m = Some r -> (mark r = true <-> m ∈ wl)) ->
  marks_only s0 t' /\ live_renders t' = live_renders s0 /\
  (forall m r, heap t' !! m = Some r -> (mark r = true <-> m ∈ wl')) /\
  (exists added, wl' = wl ++ added /\ (forall x, x ∈ added -> x ∈ deps) /\
     length added + size (unflagged mark t') <= size (unflagged mark t)) /\
  (forall j, j ∈ deps -> j ∈ dom (heap t) -> j ∈ wl').
Proof.
  induction deps as [| j deps IH]; intros wl t wl' t' Hfold Hmo Hlr Hmk.
  - simpl in Hfold. injection Hfold as <- <-.
    split; [exact Hmo |]. split; [exact Hlr |]. split; [exact Hmk |]. split.
    + exists []. rewrite app_nil_r. split; [reflexivity |].
      split; [intros x Hx; inversion Hx | simpl; lia].
    + intros j Hj. inversion Hj.
  - change (foldl mark_step (mark_step (wl, t) j) deps = (wl', t')) in Hfold.
    destruct (mark_step (wl, t) j) as [wl1 t1] eqn:Hstep.
    destruct (mark_step_spec s0 _ _ _ _ _ Hstep Hmo Hlr Hmk)
      as (Hmo1 & Hlr1 & Hmk1 & (add1 & -> & Hadd1 & Hsz1) & Hj1).
    destruct (IH _ _ _ _ Hfold Hmo1 Hlr1 Hmk1)
      as (Hmo2 & Hlr2 & Hmk2 & (add2 & -> & Hadd2 & Hsz2) & Hdeps2).
    split; [exact Hmo2 |]. split; [exact Hlr2 |]. split; [exact Hmk2 |].
    split.
    + exists (add1 ++ add2). rewrite app_assoc. split; [reflexivity |]. split.
      * intros x Hx. apply elem_of_app in Hx as [Hx | Hx].
        -- rewrite (Hadd1 x Hx). left.
        -- right. auto.
      * rewrite length_app. lia.
    + intros x Hx Hdom. apply elem_of_cons in Hx as [-> | Hx].
      * apply elem_of_app. left. auto.
      * apply Hdeps2; [exact Hx |].
        rewrite (marks_only_dom _ _ Hmo1), <- (marks_only_dom _ _ Hmo).
        exact Hdom.
Qed.

Lemma set_mark_false_deps r r' :
  set_mark false r = set_mark false r' -> depends_on_list r = depends_on_list r'.
Proof. intros H. exact (f_equal depends_on_list H). Qed.

(** The marking loop returns when given more fuel than the worklist has
    nodes to visit plus the heap has unmarked nodes, and keeps the
    invariant. *)
Lemma mark_loop_spec s0 roots fuel : forall i wl t,
  mark_inv s0 roots i wl t ->
  (length wl - i) + size (unflagged mark t) < fuel ->
  exists wl' t', mark_loop fuel i wl t = Some (wl', t') /\
                 mark_inv s0 roots (length wl') wl' t'.
Proof.
  induction fuel as [| fuel IH]; intros i wl t Hinv Hfuel; [lia |].
  destruct Hinv as (Hmo & Hlr & Hmk & Hreach & Hroots & Hdone).
  simpl. destruct (wl !! i) as [r |] eqn:Hi.
  - apply lookup_lt_Some in Hi as Hlt.
    unfold mark_dependencies.
    destruct (foldl mark_step (wl, t)
                match heap t !! r with
                | Some rr => depends_on_list rr
                | None => []
                end) as [wl1 t1] eqn:Hfold.
    destruct (mark_fold_spec s0 _ _ _ _ _ Hfold Hmo Hlr Hmk)
      as (Hmo1 & Hlr1 & Hmk1 & (added & -> & Hadd & Hsz) & Hdeps).
    apply IH.
    + split; [exact Hmo1 |]. split; [exact Hlr1 |]. split; [exact Hmk1 |].
      split; [| split].
      * intros m Hm. apply elem_of_app in Hm as [Hm | Hm]; [auto |].
        apply Hadd in Hm. destruct (heap t !! r) as [rr |] eqn:Hr;
          [| inversion Hm].
        destruct (marks_only_lookup _ _ _ _ Hmo Hr) as (r0 & Hr0 & Heq).
        apply reach_step with (a := r).
        -- apply Hreach. eapply list_elem_of_lookup_2. exact Hi.
        -- exists r0. split; [exact Hr0 |].
           rewrite <- (set_mark_false_deps _ _ Heq). exact Hm.
      * intros m Hm. apply elem_of_app. left. auto.
      * intros k a ra j Hk Ha Hra Hj Hdom.
        assert (Hdomt : dom (heap t1) = dom (heap t)).
        { rewrite (marks_only_dom _ _ Hmo1), (marks_only_dom _ _ Hmo).
          reflexivity. }
        rewrite Hdomt in Hdom.
        assert (Hat : wl !! k = Some a).
        { rewrite lookup_app_l in Ha by lia. exact Ha. }
        destruct (marks_only_lookup _ _ _ _ Hmo1 Hra) as (r0 & Hr0 & Heq1).
        destruct (frame_lookup (set_mark false) s0 t a r0 (Hmo a) Hr0)
          as (rat & Hrat & Heq2).
        assert (Hjt : j ∈ depends_on_list rat).
        { rewrite (set_mark_false_deps _ _ Heq2),
            <- (set_mark_false_deps _ _ Heq1). exact Hj. }
        destruct (decide (k = i)) as [-> | Hki].
        -- assert (a = r) as -> by congruence.
           apply Hdeps; [| exact Hdom]. rewrite Hrat. exact Hjt.
        -- apply elem_of_app. left.
           apply (Hdone k a rat j); auto. lia.
    + rewrite length_app. lia.
  - apply lookup_ge_None in Hi.
    exists wl, t. split; [reflexivity |].
    split; [exact Hmo |]. split; [exact Hlr |]. split; [exact Hmk |].
    split; [exact Hreach |]. split; [exact Hroots |].
    intros k a ra j Hk. apply Hdone. lia.
Qed.

(** When the loop is over, the worklist holds every node of the heap
    that the roots reach. *)
Lemma mark_inv_complete s0 roots wl t :
  mark_inv s0 roots (length wl) wl t ->
  forall m, reach s0 roots m -> m ∈ dom (heap s0) -> m ∈ wl.
Proof.
  intros (Hmo & _ & _ & _ & Hroots & Hdone) m Hreach.
  induction Hreach as [r Hr | a b Ha IH (ra & Hra & Hb)]; intros Hdom.
  - auto.
  - assert (Hawl : a ∈ wl).
    { apply IH. apply elem_of_dom. eauto. }
    apply list_elem_of_lookup in Hawl as [k Hk].
    destruct (frame_lookup (set_mark false) s0 t a ra (Hmo a) Hra)
      as (rat & Hrat & Heq).
    apply (Hdone k a rat b).
    + eapply lookup_lt_Some. exact Hk.
    + exact Hk.
    + exact Hrat.
    + rewrite (set_mark_false_deps _ _ Heq). exact Hb.
    + rewrite (marks_only_dom _ _ Hmo). exact Hdom.
Qed.

(** ** The sweep phase *)

Lemma field_upd {A} (g : Render -> A) n f s m :
  (forall r, g (f r) = g r) ->
  g <$> heap (upd n f s) !! m = g <$> heap s !! m.
Proof.
  intros Hg. rewrite heap_upd. case_decide; [subst m |]; [| reflexivity].
  destruct (heap s !! n); simpl; [rewrite Hg |]; reflexivity.
Qed.

Lemma field_foldl_upd {A B} (g : Render -> A) (h : B -> nat)
    (f : B -> Render -> Render) (l : list B) s m :
  (forall b r, g (f b r) = g r) ->
  g <$> heap (foldl (fun s b => upd (h b) (f b) s) s l) !! m = g <$> heap s !! m.
Proof.
  intros Hg. revert s. induction l as [| b l IH]; intros s; simpl.
  - reflexivity.
  - rewrite IH. apply field_upd. intros r. apply Hg.
Qed.

Lemma kill_finish_marks self s m :
  mark <$> heap (kill_finish self s) !! m = mark <$> heap s !! m.
Proof.
  unfold kill_finish. rewrite field_upd by apply mark_break_references.
  change (heap (uncache self ?x)) with (heap x).
  unfold discard_from_parents.
  rewrite (field_foldl_upd mark (fun i => i)
             (fun _ ri => set_parents (parents ri ∖ {[self]}) ri))
    by reflexivity.
  apply field_upd. reflexivity.
Qed.

(** [kill] changes no mark bit. *)
Lemma kill_marks fuel self s s' :
  kill fuel self s = Some s' ->
  forall m, mark <$> heap s' !! m = mark <$> heap s !! m.
Proof.
  intros Hk.
  refine (flagged_rel killed (set_killed true) kill_finish kill _ kill_S
            (fun s s' => forall m, mark <$> heap s' !! m = mark <$> heap s !! m)
            _ _ _ fuel self s s' Hk).
  - reflexivity.
  - reflexivity.
  - intros s1 s2 s3 H12 H23 m. rewrite H23. apply H12.
  - intros self0 s0 r s2 _ _ H m. rewrite kill_finish_marks, H.
    apply field_upd. reflexivity.
Qed.

Lemma kill_rel_marks_only s t : marks_only s t -> kill_rel s t.
Proof.
  intros Hmo. split; [apply marks_only_dom; exact Hmo |].
  intros m r Hr.
  destruct (frame_lookup (set_mark false) s t m r (Hmo m) Hr) as (r' & Hr' & Heq).
  exists r'. split; [exact Hr' |].
  assert (Hp : parents r' = parents r) by exact (f_equal parents Heq).
  assert (Hk : killed r' = killed r) by exact (f_equal killed Heq).
  assert (He : erase_parents r' = erase_parents r).
  { exact (f_equal (set_parents ∅) Heq). }
  split; [rewrite Hp; set_solver |]. split; [congruence |].
  split; [intros _; exact He |]. split; [congruence |].
  intros _ p Hin Hnin. rewrite Hp in Hnin. contradiction.
Qed.

Lemma not_live_kill_rel s s' m : kill_rel s s' -> ~ live s m -> ~ live s' m.
Proof. intros Hrel Hn Hl. apply Hn. eapply kill_rel_live; eauto. Qed.

Lemma size_heap_kill_rel s s' : kill_rel s s' -> size (heap s') = size (heap s).
Proof. intros [Hdom _]. rewrite <- !size_dom, Hdom. reflexivity. Qed.

(** The sweep over a list without repetition: it returns, it kills no
    live node of [S] when every unmarked node of the list is outside
    [S], and every unmarked node of the list is dead afterwards. *)
Lemma sweep_spec (S : nat -> Prop) fuel l : forall t,
  NoDup l -> size (heap t) < fuel ->
  deps_closed S t -> parents_sound t ->
  (forall m r, m ∈ l -> heap t !! m = Some r -> mark r = false -> ~ S m) ->
  exists t', sweep fuel l t = Some t' /\ kill_rel t t' /\ keeps_alive S t t' /\
    (forall m r, m ∈ l -> heap t !! m = Some r -> mark r = false -> ~ live t' m).
Proof.
  induction l as [| h l IH]; intros t Hnd Hfuel Hc Hs Hout.
  - exists t. split; [reflexivity |]. split; [apply kill_rel_refl |].
    split; [apply keeps_alive_refl |]. intros m r Hm. inversion Hm.
  - apply NoDup_cons in Hnd as [Hnotin Hnd]. simpl.
    destruct (heap t !! h) as [rr |] eqn:Hh.
    + destruct (mark rr) eqn:Hmk.
      * (* marked: the bit is reset *)
        assert (Hrel1 : kill_rel t (upd h (set_mark false) t)).
        { apply kill_rel_marks_only, marks_only_upd. }
        destruct (IH (upd h (set_mark false) t)) as (t' & Hsw & Hrel & Hka & Hdead).
        -- exact Hnd.
        -- rewrite (size_heap_kill_rel _ _ Hrel1). exact Hfuel.
        -- eapply deps_closed_kill_rel; eauto.
        -- eapply parents_sound_kill_rel; eauto.
        -- intros m r Hm Hr. rewrite heap_upd_ne in Hr by set_solver.
           apply (Hout m r); [right; exact Hm | exact Hr].
        -- exists t'. split; [exact Hsw |].
           split; [eapply kill_rel_trans; eauto |]. split.
           ++ intros m Hm Hl. apply Hka; [exact Hm |].
              apply live_upd; [reflexivity | exact Hl].
           ++ intros m r Hm Hr Hmr. apply elem_of_cons in Hm as [-> | Hm].
              ** congruence.
              ** apply (Hdead m r Hm); [| exact Hmr].
                 rewrite heap_upd_ne by set_solver. exact Hr.
      * (* unmarked: the node is killed *)
        destruct (kill_total_idempotent fuel h t Hfuel) as (t1 & Hk & _ & Hflag).
        rewrite Hk.
        pose proof (kill_effect _ _ _ _ Hk) as Hrel1.
        pose proof (kill_marks _ _ _ _ Hk) as Hmarks.
        assert (Hka1 : keeps_alive S t t1).
        { apply (kill_safe S fuel h t t1 Hc Hs); [| exact Hk].
          intros HS _. apply (Hout h rr); [left | exact Hh | exact Hmk | exact HS]. }
        destruct (IH t1) as (t' & Hsw & Hrel & Hka & Hdead).
        -- exact Hnd.
        -- rewrite (size_heap_kill_rel _ _ Hrel1). exact Hfuel.
        -- eapply deps_closed_kill_rel; eauto.
        -- eapply parents_sound_kill_rel; eauto.
        -- intros m r Hm Hr Hmr.
           specialize (Hmarks m). rewrite Hr in Hmarks. simpl in Hmarks.
           destruct (heap t !! m) as [r0 |] eqn:Hr0; [| discriminate].
           apply (Hout m r0); [right; exact Hm | exact Hr0 |].
           simpl in Hmarks. congruence.
        -- exists t'. split; [exact Hsw |].
           split; [eapply kill_rel_trans; eauto |].
           split; [eapply keeps_alive_trans; eauto |].
           intros m r Hm Hr Hmr. apply elem_of_cons in Hm as [-> | Hm].
           ++ apply (not_live_kill_rel _ _ _ Hrel).
              intros (r1 & Hr1 & Hk1). apply Hflag, elem_of_unflagged. eauto.
           ++ specialize (Hmarks m). rewrite Hr in Hmarks. simpl in Hmarks.
              destruct (heap t1 !! m) as [r1 |] eqn:Hr1; [| discriminate].
              apply (Hdead m r1 Hm Hr1).
              simpl in Hmarks. congruence.
    + destruct (IH t Hnd Hfuel Hc Hs) as (t' & Hsw & Hrel & Hka & Hdead).
      { intros m r Hm. apply Hout. right. exact Hm. }
      exists t'. split; [exact Hsw |]. split; [exact Hrel |].
      split; [exact Hka |].
      intros m r Hm Hr Hmr. apply elem_of_cons in Hm as [-> | Hm];
        [congruence | eauto].
Qed.

(** ** mark_sweep *)




Lemma live_marks_only s t m : marks_only s t -> live s m -> live t m.
Proof.
  intros Hmo (r & Hr & Hk).
  destruct (frame_lookup (set_mark false) s t m r (Hmo m) Hr) as (r' & Hr' & Heq).
  exists r'. split; [exact Hr' |]. rewrite <- Hk. exact (f_equal killed Heq).
Qed.

(** The whole collection, from a state whose mark bits are unset, whose
    live list has no repetition and whose parents are sound. *)
Lemma mark_sweep_spec fuel im_cache_renders video_renders s :
  unmarked s -> NoDup (live_renders s) -> parents_sound s ->
  length (gc_roots im_cache_renders s) + size (heap s) < fuel ->
  exists s' wl,
    mark_sweep fuel im_cache_renders video_renders s = Some s' /\
    live_renders s' = wl /\
    (forall m, m ∈ wl -> reach s (gc_roots im_cache_renders s) m) /\
    kill_rel s s' /\
    keeps_alive (reach s (gc_roots im_cache_renders s)) s s' /\
    (forall m, m ∈ live_renders s ->
       ~ reach s (gc_roots im_cache_renders s) m ->
       (forall vs, video_renders = Some vs -> m ∉ vs) ->
       ~ live s' m).
Proof.
  intros Hun Hnd Hps Hfuel. unfold mark_sweep.
  set (roots := gc_roots im_cache_renders s) in *.
  destruct (mark_all_spec roots s) as (Hmo1 & Hlr1 & Hmk1).
  (* the mark phase *)
  assert (Hinv0 : mark_inv s roots 0 roots (mark_all roots s)).
  { split; [exact Hmo1 |]. split; [exact Hlr1 |]. split; [| split; [| split]].
    - intros m r Hr. rewrite (Hmk1 m r Hr). split; [| auto].
      intros [Hin | (r0 & Hr0 & Hm0)]; [exact Hin |].
      rewrite (Hun m r0 Hr0) in Hm0. discriminate.
    - intros m Hm. apply reach_root. exact Hm.
    - auto.
    - intros k a r j Hk. lia. }
  destruct (mark_loop_spec s roots fuel 0 roots (mark_all roots s) Hinv0)
    as (wl & s2 & Hloop & Hinv).
  { pose proof (size_unflagged mark (mark_all roots s)) as Hsz.
    rewrite <- size_dom, (marks_only_dom _ _ Hmo1), size_dom in Hsz. lia. }
  rewrite Hloop.
  pose proof Hinv as (Hmo2 & Hlr2 & Hmk2 & Hreach2 & _ & _).
  (* the marks of the video renders *)
  set (s3 := match video_renders with
             | Some vs => mark_all vs s2
             | None => s2
             end).
  assert (H3 : marks_only s2 s3 /\ live_renders s3 = live_renders s2 /\
    forall m r, heap s3 !! m = Some r ->
      (mark r = true <->
       (exists vs, video_renders = Some vs /\ m ∈ vs) \/
       exists r0, heap s2 !! m = Some r0 /\ mark r0 = true)).
  { subst s3. destruct video_renders as [vs |].
    - destruct (mark_all_spec vs s2) as (Ha & Hb & Hc).
      split; [exact Ha |]. split; [exact Hb |].
      intros m r Hr. rewrite (Hc m r Hr). split.
      + intros [Hin | Hm]; [left; eauto | right; exact Hm].
      + intros [(vs' & [= <-] & Hin) | Hm]; [left; exact Hin | right; exact Hm].
    - split; [apply marks_only_refl |]. split; [reflexivity |].
      intros m r Hr. split.
      + intros Hm. right. eauto.
      + intros [(vs' & [=] & _) | (r0 & Hr0 & Hm)]. congruence. }
  destruct H3 as (Hmo3 & Hlr3 & Hmk3).
  assert (Hmo : marks_only s s3) by (eapply marks_only_trans; eauto).
  assert (Hrel3 : kill_rel s s3) by (apply kill_rel_marks_only; exact Hmo).
  (* the sweep *)
  destruct (sweep_spec (reach s roots) fuel (live_renders s3) s3)
    as (s4 & Hsw & Hrel4 & Hka & Hdead).
  - rewrite Hlr3, Hlr2. exact Hnd.
  - rewrite (size_heap_kill_rel _ _ Hrel3). lia.
  - intros m r3 Hm Hr3 Hk3 j Hj.
    destruct (marks_only_lookup _ _ _ _ Hmo Hr3) as (r0 & Hr0 & Heq).
    apply reach_step with (a := m); [exact Hm |].
    exists r0. split; [exact Hr0 |].
    rewrite <- (set_mark_false_deps _ _ Heq). exact Hj.
  - eapply parents_sound_kill_rel; eauto.
  - intros m r3 _ Hr3 Hm3 Hreach.
    destruct (marks_only_lookup _ _ _ _ Hmo3 Hr3) as (r2 & Hr2 & _).
    assert (Hwl : m ∈ wl).
    { apply (mark_inv_complete _ _ _ _ Hinv m Hreach).
      rewrite <- (marks_only_dom _ _ Hmo). apply elem_of_dom. eauto. }
    assert (mark r3 = true); [| congruence].
    apply (Hmk3 m r3 Hr3). right. exists r2. split; [exact Hr2 |].
    apply (Hmk2 m r2 Hr2). exact Hwl.
  - rewrite Hsw. exists (set_live_renders wl s4), wl.
    split; [reflexivity |]. split; [reflexivity |]. split; [exact Hreach2 |].
    split; [| split].
    + change (kill_rel s s4). eapply kill_rel_trans; eauto.
    + intros m Hm Hl. change (live s4 m). apply Hka; [exact Hm |].
      eapply live_marks_only; eauto.
    + intros m Hm Hnreach Hvideo. change (~ live s4 m).
      assert (Hm3 : m ∈ live_renders s3) by (rewrite Hlr3, Hlr2; exact Hm).
      destruct (heap s3 !! m) as [r3 |] eqn:Hr3.
      * apply (Hdead m r3 Hm3 Hr3).
        destruct (mark r3) eqn:Hmr; [| reflexivity]. exfalso.
        apply (Hmk3 m r3 Hr3) in Hmr as [(vs & Hvs & Hin) | (r2 & Hr2 & Hm2)].
        -- exact (Hvideo vs Hvs Hin).
        -- apply Hnreach, Hreach2. apply (Hmk2 m r2 Hr2). exact Hm2.
      * intros Hl. apply (kill_rel_live _ _ _ Hrel4) in Hl as (r & Hr & _).
        congruence.
Qed.

Lemma parents_inverse_sound s : parents_inverse s -> parents_sound s.
Proof. intros H a b Ha Hb. apply (H a b Ha Hb). Qed.

Lemma gc_state_lookup a ra :
  heap gc_state !! a = Some ra ->
  (a = 1 /\ ra = gc_root_node) \/ (a = 2 /\ ra = gc_dependent_node) \/
  (a = 3 /\ ra = gc_surface_node).
Proof.
  unfold gc_state. simpl. intros H.
  apply lookup_insert_Some in H as [[<- <-] | [_ H]]; [auto |].
  apply lookup_insert_Some in H as [[<- <-] | [_ H]]; [auto |].
  apply lookup_singleton_Some in H as [<- <-]. auto.
Qed.

Lemma gc_state_reach m : reach gc_state (gc_roots [] gc_state) m -> m = 1.
Proof.
  induction 1 as [r Hr | a b _ -> (ra & Hra & Hb)].
  - simpl in Hr. apply list_elem_of_singleton in Hr. exact Hr.
  - apply gc_state_lookup in Hra as [[_ ->] | [[? _] | [? _]]];
      [inversion Hb | discriminate | discriminate].
Qed.

Lemma gc_state_unmarked : unmarked gc_state.
Proof.
  intros m r Hr.
  apply gc_state_lookup in Hr as [[_ ->] | [[_ ->] | [_ ->]]]; reflexivity.
Qed.

Lemma gc_state_parents_inverse : parents_inverse gc_state.
Proof.
  intros a b (ra & Ha & _) (rb & Hb & _).
  apply gc_state_lookup in Ha as [[-> ->] | [[-> ->] | [-> ->]]];
    apply gc_state_lookup in Hb as [[-> ->] | [[-> ->] | [-> ->]]];
    unfold is_parent, is_dependency; split; intros (x & Hx & Hin);
    apply gc_state_lookup in Hx as [[? ->] | [[? ->] | [? ->]]];
    try discriminate; simpl in Hin;
    try (exfalso; set_solver);
    eexists; (split; [reflexivity |]); simpl; set_solver.
Qed.





(** ** The cache under [render] *)

Lemma cache_of_touch id_d d s : cache_of d (cache_touch id_d s) = cache_of d s.
Proof.
  unfold cache_of, cache_touch.
  destruct (render_cache s !! id_d) eqn:Hid; [reflexivity |]. simpl.
  destruct (decide (id_d = d)) as [<- | Hne].
  - rewrite lookup_insert_eq, Hid. reflexivity.
  - rewrite lookup_insert_ne by exact Hne. reflexivity.
Qed.

Lemma cache_lookup_touch id_d d k s :
  cache_lookup d k (cache_touch id_d s) = cache_lookup d k s.
Proof. unfold cache_lookup. rewrite cache_of_touch. reflexivity. Qed.

Lemma cache_of_store id_d k rv d s :
  cache_of d (cache_store id_d k rv s)
  = if decide (id_d = d) then dict_set k rv (cache_of id_d s) else cache_of d s.
Proof.
  unfold cache_store.
  change (cache_of d (set_render_cache ?c ?x)) with (default [] (c !! d)).
  rewrite cache_of_touch. case_decide as Hd.
  - subst d. rewrite lookup_insert_eq. reflexivity.
  - rewrite lookup_insert_ne by exact Hd.
    change (default [] (render_cache ?x !! d)) with (cache_of d x).
    apply cache_of_touch.
Qed.

Lemma cache_lookup_store id_d k rv d q s :
  cache_lookup d q (cache_store id_d k rv s)
  = if decide (id_d = d /\ k = q) then Some rv else cache_lookup d q s.
Proof.
  unfold cache_lookup. rewrite cache_of_store.
  destruct (decide (id_d = d)) as [<- | Hne].
  - rewrite dict_get_set. destruct (decide (k = q)); case_decide; tauto.
  - case_decide; tauto.
Qed.

Lemma same_globals_refl s : same_globals s s.
Proof. repeat split. Qed.

Lemma same_globals_trans s1 s2 s3 :
  same_globals s1 s2 -> same_globals s2 s3 -> same_globals s1 s3.
Proof. intros (? & ? & ?) (? & ? & ?). repeat split; congruence. Qed.

Lemma same_globals_touch id_d s : same_globals s (cache_touch id_d s).
Proof. unfold cache_touch. destruct (render_cache s !! id_d); repeat split. Qed.

Lemma same_globals_store id_d k rv s : same_globals s (cache_store id_d k rv s).
Proof.
  unfold cache_store. eapply same_globals_trans; [apply (same_globals_touch id_d) |].
  repeat split.
Qed.

Lemma sizing_touch id_d s : sizing (cache_touch id_d s) = sizing s.
Proof. apply (same_globals_touch id_d s). Qed.

(** What [render_miss] does, case by case. *)
Lemma render_miss_calls env d orig_wh wh changed w h st at_ s :
  out_calls (render_miss env d orig_wh wh changed w h st at_ s)
  = [mkCall (d_id d) w h st at_].
Proof.
  unfold render_miss.
  destruct (d_render d w h st at_ _) as [s2 [e | [rv | |]]]; try reflexivity.
  destruct (clipping d); [| reflexivity].
  destruct (subsurface_full env rv _) as [s5 [e | rv']]; reflexivity.
Qed.

Lemma render_miss_globals env d orig_wh wh changed w h st at_ s :
  well_behaved env d ->
  same_globals s (out_state (render_miss env d orig_wh wh changed w h st at_ s)).
Proof.
  intros [Hcb Hss]. unfold render_miss.
  pose proof (Hcb w h st at_ (set_rendering (rendering s + 1) st at_ s)) as H2.
  destruct (d_render d w h st at_ _) as [s2 [e | [rv | |]]]; simpl in H2;
    try exact H2.
  assert (Hstore : forall rv0 s6, same_globals s s6 ->
    same_globals s
      (let s7 := upd rv0 (fun r => set_debug (style_debug d || debug r) r) s6 in
       if sizing s7 then s7
       else let s' := cache_store (d_id d) wh rv0 s7 in
            if changed then cache_store (d_id d) orig_wh rv0 s' else s')).
  { intros rv0 s6 H6. simpl. destruct (sizing s6); [exact H6 |].
    destruct changed.
    - eapply same_globals_trans; [| apply same_globals_store].
      eapply same_globals_trans; [| apply same_globals_store]. exact H6.
    - eapply same_globals_trans; [| apply same_globals_store]. exact H6. }
  destruct (clipping d).
  - match goal with
    | |- context [subsurface_full env rv ?x] =>
        pose proof (Hss rv x) as H5;
        destruct (subsurface_full env rv x) as [s5 [e | rv']]
    end; simpl in H5.
    + simpl. eapply same_globals_trans; [exact H2 | exact H5].
    + apply Hstore. eapply same_globals_trans; [exact H2 | exact H5].
  - apply Hstore. exact H2.
Qed.

Lemma render_miss_stored env d orig_wh wh changed w h st at_ s rv :
  well_behaved env d -> sizing s = false ->
  out_result (render_miss env d orig_wh wh changed w h st at_ s) = inr rv ->
  cache_lookup (d_id d) wh
    (out_state (render_miss env d orig_wh wh changed w h st at_ s)) = Some rv /\
  (changed = true ->
   cache_lookup (d_id d) orig_wh
     (out_state (render_miss env d orig_wh wh changed w h st at_ s)) = Some rv).
Proof.
  intros [Hcb Hss] Hsz. unfold render_miss.
  pose proof (Hcb w h st at_ (set_rendering (rendering s + 1) st at_ s))
    as (_ & H2 & _).
  destruct (d_render d w h st at_ _) as [s2 [e | [rv0 | |]]]; simpl in H2;
    try discriminate.
  assert (Hstore : forall rv1 s6, sizing s6 = false ->
    let o := (let s7 := upd rv1 (fun r => set_debug (style_debug d || debug r) r) s6 in
              let s8 := if sizing s7 then s7
                        else let s' := cache_store (d_id d) wh rv1 s7 in
                             if changed then cache_store (d_id d) orig_wh rv1 s'
                             else s' in
              mkOutcome s8 [mkCall (d_id d) w h st at_] (inr rv1)) in
    out_result o = inr rv ->
    cache_lookup (d_id d) wh (out_state o) = Some rv /\
    (changed = true -> cache_lookup (d_id d) orig_wh (out_state o) = Some rv)).
  { intros rv1 s6 H6. simpl. rewrite H6. intros [= ->].
    destruct changed; simpl.
    - rewrite !cache_lookup_store. split.
      + destruct (decide (d_id d = d_id d /\ orig_wh = wh)); [reflexivity |].
        case_decide; tauto.
      + intros _. case_decide; tauto.
    - rewrite cache_lookup_store. split; [case_decide; tauto | discriminate]. }
  destruct (clipping d).
  - match goal with
    | |- context [subsurface_full env rv0 ?x] =>
        pose proof (Hss rv0 x) as (_ & H5 & _);
        destruct (subsurface_full env rv0 x) as [s5 [e | rv']]
    end; simpl in H5; [discriminate |].
    apply Hstore. simpl. rewrite H5. simpl. congruence.
  - apply Hstore. simpl. congruence.
Qed.

Lemma heap_cache_store id_d k rv s : heap (cache_store id_d k rv s) = heap s.
Proof.
  unfold cache_store, cache_touch.
  destruct (render_cache s !! id_d); reflexivity.
Qed.

(** The node [render] stores for a displayable that does not clip has
    its [cache_killed] flag unset and the displayable in its
    [render_of]: what "cached" means in the statement about
    [kill_cache]. *)
Lemma render_miss_node env d orig_wh wh changed w h st at_ s rv r :
  clipping d = false ->
  out_result (render_miss env d orig_wh wh changed w h st at_ s) = inr rv ->
  heap (out_state (render_miss env d orig_wh wh changed w h st at_ s)) !! rv
    = Some r ->
  cache_killed r = false /\ d_id d ∈ render_of r.
Proof.
  intros Hclip. unfold render_miss. rewrite Hclip.
  destruct (d_render d w h st at_ _) as [s2 [e | [rv0 | |]]]; try discriminate.
  simpl. intros [= ->].
  match goal with
  | |- heap ?x !! rv = Some r -> _ =>
      assert (Hheap : heap x = heap
        (upd rv (fun r => set_debug (style_debug d || debug r) r)
           (upd rv (fun r => set_cache_killed false
                               (set_render_of (render_of r ++ [d_id d]) r))
              (set_rendering (rendering s2 - 1) (render_st s) (render_at s) s2))))
  end.
  { destruct (sizing s2); [reflexivity |].
    destruct changed; rewrite ?heap_cache_store; reflexivity. }
  rewrite Hheap, !heap_upd_eq. simpl.
  destruct (heap s2 !! rv) as [r0 |]; [| discriminate].
  simpl. intros [= <-]. simpl. split; [reflexivity | set_solver].
Qed.

(** What [render_miss] returns, by what the method and the crop
    return. *)
Lemma render_miss_error env d orig_wh wh changed w h st at_ s s2 e :
  d_render d w h st at_ (set_rendering (rendering s + 1) st at_ s)
    = (s2, inl e) ->
  render_miss env d orig_wh wh changed w h st at_ s
  = mkOutcome (set_rendering (rendering s2 - 1) (render_st s) (render_at s) s2)
      [mkCall (d_id d) w h st at_] (inl e).
Proof. intros H. unfold render_miss. rewrite H. reflexivity. Qed.

Lemma render_miss_sizing_node env d orig_wh wh changed w h st at_ s s2 rv :
  d_render d w h st at_ (set_rendering (rendering s + 1) st at_ s)
    = (s2, inr (VRender rv)) ->
  clipping d = false -> sizing s2 = true ->
  render_miss env d orig_wh wh changed w h st at_ s
  = mkOutcome
      (upd rv (fun r => set_debug (style_debug d || debug r) r)
         (upd rv (fun r => set_cache_killed false
                             (set_render_of (render_of r ++ [d_id d]) r))
            (set_rendering (rendering s2 - 1) (render_st s) (render_at s) s2)))
      [mkCall (d_id d) w h st at_] (inr rv).
Proof.
  intros H Hclip Hsz. unfold render_miss. rewrite H, Hclip. simpl.
  rewrite Hsz. reflexivity.
Qed.

Lemma render_miss_sizing_crop env d orig_wh wh changed w h st at_ s s2 rv
    s5 rv' :
  d_render d w h st at_ (set_rendering (rendering s + 1) st at_ s)
    = (s2, inr (VRender rv)) ->
  clipping d = true ->
  subsurface_full env rv
    (upd rv (fun r => set_cache_killed false
                        (set_render_of (render_of r ++ [d_id d]) r))
       (set_rendering (rendering s2 - 1) (render_st s) (render_at s) s2))
    = (s5, inr rv') ->
  sizing s5 = true ->
  render_miss env d orig_wh wh changed w h st at_ s
  = mkOutcome
      (upd rv' (fun r => set_debug (style_debug d || debug r) r)
         (upd rv' (fun r => set_render_of (render_of r ++ [d_id d]) r) s5))
      [mkCall (d_id d) w h st at_] (inr rv').
Proof.
  intros H Hclip Hcrop Hsz. unfold render_miss. rewrite H, Hclip, Hcrop. simpl.
  rewrite Hsz. reflexivity.
Qed.

(** ** render *)

Lemma render_size_changed env d w h :
  size_changed env d w h -> render_size env d w h = clamp_size env d w h.
Proof. intros H. unfold render_size. by rewrite bool_decide_eq_true_2. Qed.

Lemma render_size_unchanged env d w h :
  ~ size_changed env d w h -> render_size env d w h = (w, h).
Proof. intros H. unfold render_size. by rewrite bool_decide_eq_false_2. Qed.

Lemma clamped_key_unchanged env d s w h st at_ :
  ~ size_changed env d w h ->
  clamped_key env d s w h st at_ = request_key s w h st at_.
Proof. intros H. unfold clamped_key. by rewrite render_size_unchanged. Qed.

(** [render], once past the init-phase check, by cases on the cache.
    (When the size is not changed the two keys are one, and the second
    lookup repeats the first.) *)
Lemma render_cases env d w h st at_ s :
  may_render env s ->
  render env d w h st at_ s =
  let s0 := cache_touch (d_id d) (set_render_size w h s) in
  match cache_lookup (d_id d) (request_key s w h st at_) s with
  | Some rv => mkOutcome s0 [] (inr rv)
  | None =>
      match cache_lookup (d_id d) (clamped_key env d s w h st at_) s with
      | Some rv => mkOutcome s0 [] (inr rv)
      | None =>
          render_miss env d (request_key s w h st at_)
            (clamped_key env d s w h st at_)
            (bool_decide (size_changed env d w h))
            (fst (render_size env d w h)) (snd (render_size env d w h))
            st at_ s0
      end
  end.
Proof.
  intros Hready. unfold render, may_render in *. rewrite Hready.
  rewrite cache_lookup_touch.
  change (cache_lookup (d_id d)
            (w, h, (frame_time s - st)%Z, (frame_time s - at_)%Z)
            (set_render_size w h s))
    with (cache_lookup (d_id d) (request_key s w h st at_) s).
  destruct (cache_lookup (d_id d) (request_key s w h st at_) s) eqn:Ho;
    [reflexivity |].
  unfold clamped_key, render_size, size_changed.
  destruct (clamp_size env d w h) as [cw ch]. cbn [fst snd].
  destruct (bool_decide (to_float env w ≠ cw \/ to_float env h ≠ ch)).
  - cbn [fst snd]. rewrite cache_lookup_touch. reflexivity.
  - cbn [fst snd]. rewrite Ho. reflexivity.
Qed.

Lemma render_refused env d w h st at_ s :
  ~ may_render env s ->
  exists e, render env d w h st at_ s = mkOutcome s [] (inl e).
Proof.
  intros Hn. unfold render, may_render in *.
  destruct (negb (render_is_ready s) && config_developer env); [| congruence].
  eauto.
Qed.

Lemma render_refused_eq env d w h st at_ s :
  ~ may_render env s ->
  render env d w h st at_ s
  = mkOutcome s []
      (inl (PreconditionViolation
              "Displayables may not be rendered during the init phase.")).
Proof.
  intros Hn. unfold render, may_render in *.
  destruct (negb (render_is_ready s) && config_developer env); [| congruence].
  reflexivity.
Qed.

Lemma may_render_globals env s s' :
  same_globals s s' -> may_render env s -> may_render env s'.
Proof. intros (_ & _ & Hr). unfold may_render. rewrite Hr. auto. Qed.

Lemma render_globals env d w h st at_ s :
  well_behaved env d ->
  same_globals s (out_state (render env d w h st at_ s)).
Proof.
  intros Hwb.
  destruct (negb (render_is_ready s) && config_developer env) eqn:Hm.
  2: { change (may_render env s) in Hm.
       rewrite (render_cases _ _ _ _ _ _ _ Hm).
    assert (H0 : same_globals s (cache_touch (d_id d) (set_render_size w h s))).
    { eapply same_globals_trans; [| apply same_globals_touch]. repeat split. }
    simpl. destruct (cache_lookup _ _ s); [exact H0 |].
    destruct (cache_lookup _ _ s); [exact H0 |].
    eapply same_globals_trans; [exact H0 |].
    apply render_miss_globals. exact Hwb. }
  destruct (render_refused env d w h st at_ s) as [e ->].
  { unfold may_render. congruence. }
  apply same_globals_refl.
Qed.

Lemma request_key_globals s s' w h st at_ :
  same_globals s s' -> request_key s' w h st at_ = request_key s w h st at_.
Proof. intros (Hft & _). unfold request_key. rewrite Hft. reflexivity. Qed.

Lemma clamped_key_globals env d s s' w h st at_ :
  same_globals s s' -> clamped_key env d s' w h st at_ = clamped_key env d s w h st at_.
Proof. intros H. unfold clamped_key. apply request_key_globals. exact H. Qed.

(** A request that the cache answers: the node comes back, no callback
    runs, and the cache is as it was. *)
Lemma render_hit env d w h st at_ s rv :
  may_render env s ->
  cache_lookup (d_id d) (request_key s w h st at_) s = Some rv \/
  (cache_lookup (d_id d) (request_key s w h st at_) s = None /\
   cache_lookup (d_id d) (clamped_key env d s w h st at_) s = Some rv) ->
  render env d w h st at_ s
  = mkOutcome (cache_touch (d_id d) (set_render_size w h s)) [] (inr rv).
Proof.
  intros Hm Hhit. rewrite (render_cases _ _ _ _ _ _ _ Hm). simpl.
  destruct Hhit as [-> | (-> & ->)]; reflexivity.
Qed.

(** After a request that returned a node, outside sizing mode, the cache
    answers the same request with that node. *)
Lemma render_then_cached env d w h st at_ s rv :
  well_behaved env d -> sizing s = false ->
  out_result (render env d w h st at_ s) = inr rv ->
  may_render env s /\
  (cache_lookup (d_id d) (request_key s w h st at_)
     (out_state (render env d w h st at_ s)) = Some rv \/
   (cache_lookup (d_id d) (request_key s w h st at_)
      (out_state (render env d w h st at_ s)) = None /\
    cache_lookup (d_id d) (clamped_key env d s w h st at_)
      (out_state (render env d w h st at_ s)) = Some rv)).
Proof.
  intros Hwb Hsz Hres.
  assert (Hm : may_render env s).
  { unfold may_render.
    destruct (negb (render_is_ready s) && config_developer env) eqn:Hg;
      [| reflexivity].
    destruct (render_refused env d w h st at_ s) as [e He];
      [unfold may_render; congruence |].
    rewrite He in Hres. discriminate. }
  split; [exact Hm |].
  rewrite (render_cases _ _ _ _ _ _ _ Hm) in *. simpl in *.
  set (s0 := cache_touch (d_id d) (set_render_size w h s)) in *.
  assert (H0 : forall k, cache_lookup (d_id d) k s0 = cache_lookup (d_id d) k s).
  { intros k. subst s0. rewrite cache_lookup_touch. reflexivity. }
  assert (Hsz0 : sizing s0 = false).
  { subst s0. rewrite sizing_touch. exact Hsz. }
  destruct (cache_lookup (d_id d) (request_key s w h st at_) s) as [rv0 |] eqn:Ho.
  - simpl in *. left. rewrite H0, Ho. congruence.
  - destruct (cache_lookup (d_id d) (clamped_key env d s w h st at_) s)
      as [rv0 |] eqn:Hc.
    + simpl in *. right. rewrite !H0, Ho, Hc.
      split; [reflexivity | congruence].
    + destruct (render_miss_stored _ _ _ _ _ _ _ _ _ _ _ Hwb Hsz0 Hres)
        as [Hwh Horig].
      destruct (decide (size_changed env d w h)) as [Hch | Hch].
      * left. apply Horig. by apply bool_decide_eq_true_2.
      * left. rewrite <- (clamped_key_unchanged env d s w h st at_ Hch) at 1.
        exact Hwh.
Qed.

Lemma render_calls env d w h st at_ s :
  may_render env s ->
  out_calls (render env d w h st at_ s) =
  match cache_lookup (d_id d) (request_key s w h st at_) s with
  | Some _ => []
  | None =>
      match cache_lookup (d_id d) (clamped_key env d s w h st at_) s with
      | Some _ => []
      | None => [mkCall (d_id d) (fst (render_size env d w h))
                   (snd (render_size env d w h)) st at_]
      end
  end.
Proof.
  intros Hm. rewrite (render_cases _ _ _ _ _ _ _ Hm). simpl.
  destruct (cache_lookup _ _ s); [reflexivity |].
  destruct (cache_lookup _ _ s); [reflexivity |]. apply render_miss_calls.
Qed.

(** C1, as stated, fails: with the sizing flag set (as it is for every
    render made inside render_for_size) two identical requests for the
    same displayable both reach its render callback, which is invoked
    twice, and they return two different nodes. *)
Lemma render_idempotence_claim_fails :
  sizing sizing_state = true /\
  out_result (render example_env plain_displayable 10 10 0 0 sizing_state)
    = inr 0 /\
  out_result (render example_env plain_displayable 10 10 0 0
                (out_state (render example_env plain_displayable 10 10 0 0
                              sizing_state)))
    = inr 1 /\
  out_calls (render example_env plain_displayable 10 10 0 0 sizing_state)
  ++ out_calls (render example_env plain_displayable 10 10 0 0
                  (out_state (render example_env plain_displayable 10 10 0 0
                                sizing_state)))
  = [mkCall 1 10 10 0 0; mkCall 1 10 10 0 0].
Proof. vm_compute. repeat split. Qed.

(** In sizing mode [render_miss] stores nothing: a lookup that the
    callback and the crop leave alone is left alone. *)
Lemma render_miss_sizing_frame env d orig_wh wh changed w h st at_ s d' k :
  well_behaved env d -> sizing s = true ->
  (forall w h st at_ t,
     cache_lookup d' k (fst (d_render d w h st at_ t)) = cache_lookup d' k t) ->
  (forall rv t,
     cache_lookup d' k (fst (subsurface_full env rv t)) = cache_lookup d' k t) ->
  cache_lookup d' k
    (out_state (render_miss env d orig_wh wh changed w h st at_ s))
  = cache_lookup d' k s.
Proof.
  intros [Hcb Hss] Hsz Hfcb Hfss. unfold render_miss.
  set (s1 := set_rendering (rendering s + 1) st at_ s).
  assert (H2 : sizing (fst (d_render d w h st at_ s1)) = true).
  { rewrite (proj1 (proj2 (Hcb w h st at_ s1))). exact Hsz. }
  assert (Hl2 : cache_lookup d' k (fst (d_render d w h st at_ s1))
                = cache_lookup d' k s).
  { rewrite Hfcb. reflexivity. }
  destruct (d_render d w h st at_ s1) as [s2 [e | [rv0 | |]]]; simpl in H2, Hl2;
    try exact Hl2.
  destruct (clipping d).
  - set (s4 := upd rv0 _ _).
    assert (H5 : sizing (fst (subsurface_full env rv0 s4)) = true).
    { rewrite (proj1 (proj2 (Hss rv0 s4))). exact H2. }
    assert (Hl5 : cache_lookup d' k (fst (subsurface_full env rv0 s4))
                  = cache_lookup d' k s).
    { rewrite Hfss. exact Hl2. }
    destruct (subsurface_full env rv0 s4) as [s5 [e | rv']]; simpl in H5, Hl5.
    + exact Hl5.
    + simpl. rewrite H5. exact Hl5.
  - simpl. rewrite H2. exact Hl2.
Qed.

Lemma render_sizing_frame env d w h st at_ s d' k :
  well_behaved env d -> sizing s = true ->
  (forall w h st at_ t,
     cache_lookup d' k (fst (d_render d w h st at_ t)) = cache_lookup d' k t) ->
  (forall rv t,
     cache_lookup d' k (fst (subsurface_full env rv t)) = cache_lookup d' k t) ->
  cache_lookup d' k (out_state (render env d w h st at_ s)) = cache_lookup d' k s.
Proof.
  intros Hwb Hsz Hfcb Hfss.
  destruct (negb (render_is_ready s) && config_developer env) eqn:Hm.
  { destruct (render_refused env d w h st at_ s) as [e ->];
      [unfold may_render; congruence | reflexivity]. }
  change (may_render env s) in Hm.
  rewrite (render_cases _ _ _ _ _ _ _ Hm). simpl.
  set (s0 := cache_touch (d_id d) (set_render_size w h s)).
  assert (H0 : cache_lookup d' k s0 = cache_lookup d' k s).
  { subst s0. rewrite cache_lookup_touch. reflexivity. }
  assert (Hsz0 : sizing s0 = true).
  { subst s0. rewrite sizing_touch. exact Hsz. }
  destruct (cache_lookup (d_id d) (request_key s w h st at_) s); [exact H0 |].
  destruct (cache_lookup (d_id d) (clamped_key env d s w h st at_) s);
    [exact H0 |].
  rewrite render_miss_sizing_frame; auto.
Qed.

(** C1, amended.  Let the displayable's render method and the crop
    leave frame_time, sizing and render_is_ready alone.
    With the sizing flag unset: if render(D, W, H, S, A) returns a node,
    then the same request made in the state it leaves returns that very
    node and invokes no callback; across the two requests D's callback
    is invoked at most once, and exactly once, with the size render
    settles on (the size asked for, or the clamped size held in C floats
    when that differs), when the cache held no entry under the requested
    key nor under the clamped key before the first request.
    With the sizing flag set: a request that is allowed and that the
    cache answers neither under the requested key nor under the clamped
    key invokes the callback once; when the callback and the crop leave
    the cache of D alone the cache still answers under neither key
    afterwards, and the same request made next invokes the callback
    again. *)
Theorem render_cache_idempotence (env : Env) (d : Displayable)
    (w h st at_ : Z) (s : State) :
  well_behaved env d ->
  (sizing s = false ->
   forall rv, out_result (render env d w h st at_ s) = inr rv ->
     out_result (render env d w h st at_
                   (out_state (render env d w h st at_ s))) = inr rv /\
     out_calls (render env d w h st at_
                  (out_state (render env d w h st at_ s))) = [] /\
     length (out_calls (render env d w h st at_ s) ++
             out_calls (render env d w h st at_
                          (out_state (render env d w h st at_ s)))) <= 1 /\
     (cache_lookup (d_id d) (request_key s w h st at_) s = None ->
      cache_lookup (d_id d) (clamped_key env d s w h st at_) s = None ->
      out_calls (render env d w h st at_ s) ++
      out_calls (render env d w h st at_
                   (out_state (render env d w h st at_ s)))
      = [mkCall (d_id d) (fst (render_size env d w h))
           (snd (render_size env d w h)) st at_])) /\
  (sizing s = true -> may_render env s ->
   cache_lookup (d_id d) (request_key s w h st at_) s = None ->
   cache_lookup (d_id d) (clamped_key env d s w h st at_) s = None ->
   out_calls (render env d w h st at_ s)
   = [mkCall (d_id d) (fst (render_size env d w h))
        (snd (render_size env d w h)) st at_] /\
   ((forall k w h st at_ t,
       cache_lookup (d_id d) k (fst (d_render d w h st at_ t))
       = cache_lookup (d_id d) k t) ->
    (forall k rv t,
       cache_lookup (d_id d) k (fst (subsurface_full env rv t))
       = cache_lookup (d_id d) k t) ->
    cache_lookup (d_id d) (request_key s w h st at_)
      (out_state (render env d w h st at_ s)) = None /\
    cache_lookup (d_id d) (clamped_key env d s w h st at_)
      (out_state (render env d w h st at_ s)) = None /\
    out_calls (render env d w h st at_
                 (out_state (render env d w h st at_ s)))
    = [mkCall (d_id d) (fst (render_size env d w h))
         (snd (render_size env d w h)) st at_])).
Proof.
  intros Hwb.
  pose proof (render_globals env d w h st at_ s Hwb) as Hg.
  split.
  - intros Hsz rv Hres.
    destruct (render_then_cached _ _ _ _ _ _ _ _ Hwb Hsz Hres) as [Hm Hcached].
    pose proof (may_render_globals _ _ _ Hg Hm) as Hm'.
    set (s' := out_state (render env d w h st at_ s)) in *.
    assert (Hsecond : render env d w h st at_ s'
              = mkOutcome (cache_touch (d_id d) (set_render_size w h s')) []
                  (inr rv)).
    { apply render_hit; [exact Hm' |].
      rewrite (request_key_globals _ _ _ _ _ _ Hg),
        (clamped_key_globals _ _ _ _ _ _ _ _ Hg). exact Hcached. }
    rewrite Hsecond. simpl. rewrite app_nil_r.
    split; [reflexivity |]. split; [reflexivity |].
    rewrite (render_calls _ _ _ _ _ _ _ Hm). split.
    + destruct (cache_lookup _ _ s); [simpl; lia |].
      destruct (cache_lookup _ _ s); simpl; lia.
    + intros -> ->. reflexivity.
  - intros Hsz Hm Ho Hc.
    split; [by rewrite (render_calls _ _ _ _ _ _ _ Hm), Ho, Hc |].
    intros Hfcb Hfss.
    pose proof (may_render_globals _ _ _ Hg Hm) as Hm'.
    assert (Hl : forall k,
      cache_lookup (d_id d) k (out_state (render env d w h st at_ s))
      = cache_lookup (d_id d) k s).
    { intros k. apply render_sizing_frame; auto. }
    split; [by rewrite Hl |]. split; [by rewrite Hl |].
    rewrite (render_calls _ _ _ _ _ _ _ Hm').
    rewrite (request_key_globals _ _ _ _ _ _ Hg),
      (clamped_key_globals _ _ _ _ _ _ _ _ Hg), !Hl, Ho, Hc.
    reflexivity.
Qed.

Lemma well_behaved_plain :
  well_behaved example_env plain_displayable /\
  well_behaved example_env capped_displayable /\
  well_behaved example_env offered_displayable.
Proof.
  assert (Hss : forall rv t,
            same_globals t (fst (subsurface_full example_env rv t))).
  { intros rv t. simpl. unfold depends_on. case_decide; repeat split. }
  repeat split; try (intros; apply Hss).
Qed.

Lemma render_cache_idempotence_witness :
  out_result (render example_env plain_displayable 10 10 0 0
                (out_state (render example_env plain_displayable 10 10 0 0
                              initial_state)))
    = inr 0 /\
  out_calls (render example_env plain_displayable 10 10 0 0
               (out_state (render example_env plain_displayable 10 10 0 0
                             initial_state)))
    = [].
Proof.
  destruct (render_cache_idempotence example_env plain_displayable 10 10 0 0
              initial_state (proj1 well_behaved_plain)) as [Hplain _].
  destruct (Hplain eq_refl 0) as (H1 & H2 & _).
  - vm_compute. reflexivity.
  - split; [exact H1 | exact H2].
Defined.

(** A screen render that returns a node records it as the screen root,
    the first root of the next collection. *)
Lemma render_screen_records_root env ift it root w h s rv :
  out_result (render_screen env ift it root w h s) = inr rv ->
  screen_render (out_state (render_screen env ift it root w h s)) = Some rv /\
  forall im_cache_renders,
    rv ∈ gc_roots im_cache_renders
           (out_state (render_screen env ift it root w h s)).
Proof.
  unfold render_screen.
  destruct (out_result (render env root w h _ _ _)) as [e | rv0] eqn:Hres.
  - rewrite Hres. discriminate.
  - simpl. intros [= ->]. split; [reflexivity |].
    intros im. unfold gc_roots. simpl. left.
Qed.

(** ** Clamping *)

Lemma clamp_size_xmaximum_100 env d w h :
  style_xmaximum d = Some 100%Z -> offer_size d = None ->
  (forall room, compute_raw env 100 room = 100%Z) ->
  to_float env 100 = 100%Z -> to_float env w = w ->
  (100 <= w)%Z ->
  clamp_size env d w h = (100%Z, snd (clamp_size env d 200 h)).
Proof.
  intros Hx Ho Hraw H100 Hfw Hw. unfold clamp_size.
  rewrite Hx, Ho, !Hraw, Hfw. rewrite !Z.min_l by lia.
  rewrite H100. simpl. reflexivity.
Qed.

(** C5, as stated, fails: a displayable with style.xmaximum = 100 and
    _offer_size = (50, 50), requested at width 200, has its render
    callback invoked with width 50, and nothing is stored under a key of
    width 100. *)
Lemma clamp_claim_fails :
  style_xmaximum offered_displayable = Some 100%Z /\
  out_calls (render example_env offered_displayable 200 80 0 0 initial_state)
    = [mkCall 3 50 50 0 0] /\
  call_width (mkCall 3 50 50 0 0) ≠ 100%Z /\
  cache_lookup 3 (100, 80, 0, 0)%Z
    (out_state (render example_env offered_displayable 200 80 0 0 initial_state))
    = None /\
  cache_lookup 3 (100, 50, 0, 0)%Z
    (out_state (render example_env offered_displayable 200 80 0 0 initial_state))
    = None.
Proof. vm_compute. repeat split; discriminate. Qed.

(** The height 16777217, which single precision cannot hold, is rounded
    to 16777216 in the C float: the request at (200, 16777217) stores
    under the heights 16777216 (clamped key) and 16777217 (requested
    key), and the request at (100, 16777217) that follows finds nothing
    and invokes the callback again. *)
Lemma clamp_rounding_example :
  float32_round 16777217 = 16777216%Z /\
  out_calls (render example_env capped_displayable 200 16777217 0 0
               initial_state)
    = [mkCall 2 100 16777216 0 0] /\
  out_calls (render example_env capped_displayable 100 16777217 0 0
               (out_state (render example_env capped_displayable 200 16777217
                             0 0 initial_state)))
    = [mkCall 2 100 16777217 0 0].
Proof. vm_compute. repeat split. Qed.

(** C5, amended.  Let D declare style.xmaximum = 100, an absolute pixel
    count, and no _offer_size; let 100, 200 and the height be numbers
    that a C float holds exactly; let the sizing flag be unset, the
    callback and the crop well behaved, and the cache hold no entry for
    the request at width 200, neither under the requested key nor under
    the clamped key.  If the request returns a node, then D's callback
    was invoked once, with width 100 (and the height clamped by
    ymaximum); the node is stored under the clamped key, of width 100,
    and under the requested key, of width 200; and a later request at
    width 100 with the same height and times returns that node without
    invoking the callback, provided no other node is cached under that
    request's own key. *)
Theorem clamp_consistency (env : Env) (d : Displayable) (h st at_ : Z)
    (s : State) (rv : nat) :
  well_behaved env d ->
  sizing s = false ->
  style_xmaximum d = Some 100%Z ->
  offer_size d = None ->
  (forall room, compute_raw env 100 room = 100%Z) ->
  to_float env 100 = 100%Z -> to_float env 200 = 200%Z -> to_float env h = h ->
  cache_lookup (d_id d) (request_key s 200 h st at_) s = None ->
  cache_lookup (d_id d) (clamped_key env d s 200 h st at_) s = None ->
  out_result (render env d 200 h st at_ s) = inr rv ->
  (forall rv2,
     cache_lookup (d_id d) (request_key s 100 h st at_)
       (out_state (render env d 200 h st at_ s)) = Some rv2 -> rv2 = rv) ->
  clamped_key env d s 200 h st at_
    = request_key s 100 (snd (clamp_size env d 200 h)) st at_ /\
  out_calls (render env d 200 h st at_ s)
    = [mkCall (d_id d) 100 (snd (clamp_size env d 200 h)) st at_] /\
  cache_lookup (d_id d) (clamped_key env d s 200 h st at_)
    (out_state (render env d 200 h st at_ s)) = Some rv /\
  cache_lookup (d_id d) (request_key s 200 h st at_)
    (out_state (render env d 200 h st at_ s)) = Some rv /\
  out_result (render env d 100 h st at_ (out_state (render env d 200 h st at_ s)))
    = inr rv /\
  out_calls (render env d 100 h st at_ (out_state (render env d 200 h st at_ s)))
    = [].
Proof.
  intros Hwb Hsz Hx Ho Hraw Hf100 Hf200 Hfh Hmiss1 Hmiss2 Hres Hfree.
  pose proof (clamp_size_xmaximum_100 env d 200 h Hx Ho Hraw Hf100 Hf200
                ltac:(lia)) as Hc200.
  pose proof (clamp_size_xmaximum_100 env d 100 h Hx Ho Hraw Hf100 Hf100
                ltac:(lia)) as Hc100.
  set (ch := snd (clamp_size env d 200 h)) in *.
  assert (Hchanged : size_changed env d 200 h).
  { left. rewrite Hc200, Hf200. simpl. discriminate. }
  assert (Hrs200 : render_size env d 200 h = (100%Z, ch)).
  { rewrite (render_size_changed _ _ _ _ Hchanged). exact Hc200. }
  assert (Hrs100 : render_size env d 100 h = (100%Z, ch)).
  { destruct (decide (size_changed env d 100 h)) as [Hch | Hch].
    - rewrite (render_size_changed _ _ _ _ Hch). exact Hc100.
    - rewrite (render_size_unchanged _ _ _ _ Hch). f_equal.
      destruct (decide (h = ch)) as [Heq | Hne]; [exact Heq |].
      exfalso. apply Hch. right. rewrite Hc100, Hfh. exact Hne. }
  assert (Hkey : clamped_key env d s 200 h st at_ = request_key s 100 ch st at_).
  { unfold clamped_key. rewrite Hrs200. reflexivity. }
  assert (Hk100 : clamped_key env d s 100 h st at_
                  = clamped_key env d s 200 h st at_).
  { unfold clamped_key. rewrite Hrs100, Hrs200. reflexivity. }
  destruct (render_then_cached _ _ _ _ _ _ _ _ Hwb Hsz Hres) as [Hm _].
  pose proof (render_globals env d 200 h st at_ s Hwb) as Hg.
  pose proof (may_render_globals _ _ _ Hg Hm) as Hm'.
  (* the first request is a miss under both keys *)
  assert (Hcalls : out_calls (render env d 200 h st at_ s)
                   = [mkCall (d_id d) 100 ch st at_]).
  { rewrite (render_calls _ _ _ _ _ _ _ Hm), Hmiss1, Hmiss2, Hrs200.
    reflexivity. }
  assert (Hstored :
    cache_lookup (d_id d) (clamped_key env d s 200 h st at_)
      (out_state (render env d 200 h st at_ s)) = Some rv /\
    cache_lookup (d_id d) (request_key s 200 h st at_)
      (out_state (render env d 200 h st at_ s)) = Some rv).
  { revert Hres. rewrite (render_cases _ _ _ _ _ _ _ Hm). simpl.
    rewrite Hmiss1, Hmiss2. intros Hres.
    assert (Hsz0 : sizing (cache_touch (d_id d) (set_render_size 200 h s)) = false).
    { rewrite sizing_touch. exact Hsz. }
    destruct (render_miss_stored _ _ _ _ _ _ _ _ _ _ _ Hwb Hsz0 Hres) as [H1 H2].
    split; [exact H1 |]. apply H2. by apply bool_decide_eq_true_2. }
  destruct Hstored as [Hst1 Hst2].
  split; [exact Hkey |]. split; [exact Hcalls |].
  split; [exact Hst1 |]. split; [exact Hst2 |].
  (* the request at width 100 *)
  set (s' := out_state (render env d 200 h st at_ s)) in *.
  assert (Hsecond : render env d 100 h st at_ s'
            = mkOutcome (cache_touch (d_id d) (set_render_size 100 h s')) []
                (inr rv)).
  { apply render_hit; [exact Hm' |].
    rewrite (request_key_globals _ _ _ _ _ _ Hg),
      (clamped_key_globals _ _ _ _ _ _ _ _ Hg).
    destruct (cache_lookup (d_id d) (request_key s 100 h st at_) s')
      as [rv2 |] eqn:Hown.
    - left. rewrite (Hfree rv2 eq_refl). reflexivity.
    - right. split; [reflexivity |]. rewrite Hk100. exact Hst1. }
  rewrite Hsecond. split; reflexivity.
Qed.

Lemma clamp_consistency_witness :
  out_calls (render example_env capped_displayable 200 80 0 0 initial_state)
    = [mkCall 2 100 80 0 0] /\
  out_result (render example_env capped_displayable 100 80 0 0
                (out_state (render example_env capped_displayable 200 80 0 0
                              initial_state)))
    = inr 0 /\
  out_calls (render example_env capped_displayable 100 80 0 0
               (out_state (render example_env capped_displayable 200 80 0 0
                             initial_state)))
    = [].
Proof.
  destruct (clamp_consistency example_env capped_displayable 80 0 0
              initial_state 0) as (_ & H1 & _ & _ & H2 & H3).
  - exact (proj1 (proj2 well_behaved_plain)).
  - reflexivity.
  - reflexivity.
  - reflexivity.
  - intros room. reflexivity.
  - reflexivity.
  - reflexivity.
  - reflexivity.
  - reflexivity.
  - reflexivity.
  - vm_compute. reflexivity.
  - intros rv2 H. vm_compute in H. congruence.
  - split; [exact H1 |]. split; [exact H2 | exact H3].
Defined.

(** ** Sizing mode *)

Lemma cache_touch_counters id_d s :
  rendering (cache_touch id_d s) = rendering s /\
  render_st (cache_touch id_d s) = render_st s /\
  render_at (cache_touch id_d s) = render_at s.
Proof. unfold cache_touch. destruct (render_cache s !! id_d); repeat split. Qed.

(** [render_for_size], by cases on the cache. *)
Lemma render_for_size_cases env d w h st at_ s :
  render_for_size env d w h st at_ s =
  match cache_lookup (d_id d) (request_key s w h st at_) s with
  | Some rv => mkOutcome (cache_touch (d_id d) s) [] (inr rv)
  | None =>
      let o := render env d w h st at_
                 (set_sizing true (cache_touch (d_id d) s)) in
      mkOutcome (set_sizing (sizing s) (out_state o)) (out_calls o)
        (out_result o)
  end.
Proof.
  unfold render_for_size.
  rewrite cache_lookup_touch, sizing_touch. reflexivity.
Qed.

(** C8, as stated, fails.  During the init phase, with config.developer
    set, render_for_size for a displayable that has no entry in the
    cache raises without invoking the render callback.  And when the
    cache has no entry under the requested key but one under the clamped
    key (the displayable with xmaximum 100, rendered at width 200, then
    probed at width 300), render_for_size returns that node, again
    without invoking the callback. *)
Lemma render_for_size_claim_fails :
  cache_lookup 1 (10, 10, 0, 0)%Z init_phase_state = None /\
  out_calls (render_for_size developer_env plain_displayable 10 10 0 0
               init_phase_state) = [] /\
  out_result (render_for_size developer_env plain_displayable 10 10 0 0
                init_phase_state)
    = inl (PreconditionViolation
             "Displayables may not be rendered during the init phase.") /\
  cache_lookup 2 (300, 80, 0, 0)%Z
    (out_state (render example_env capped_displayable 200 80 0 0 initial_state))
    = None /\
  out_calls (render_for_size example_env capped_displayable 300 80 0 0
               (out_state (render example_env capped_displayable 200 80 0 0
                             initial_state))) = [] /\
  out_result (render_for_size example_env capped_displayable 300 80 0 0
                (out_state (render example_env capped_displayable 200 80 0 0
                              initial_state))) = inr 0.
Proof. vm_compute. repeat split. Qed.

(** C8, amended.  Let the displayable's render method and the crop
    leave frame_time, sizing and render_is_ready alone.
    (1) When the cache has a node under the requested key,
    render_for_size returns it, invokes nothing and changes nothing
    (but for the empty cache a displayable without one is given).
    (2) When it has none there but rendering is allowed and it has one
    under the clamped key, render_for_size returns that node and invokes
    nothing.
    (3) When it has none under the requested key and rendering is not
    allowed (init phase, config.developer set), render_for_size raises
    and invokes nothing.
    (4) When rendering is allowed and the cache has a node under neither
    key, render_for_size invokes the render method once, with the size
    render settles on, in the state described, with the sizing flag set;
    an exception of the method is passed on; and a Render R the method
    returns is returned (for a displayable that does not clip; the crop
    of R otherwise), in the state the method (or the crop) left, changed
    only in that the rendering count, the two times and the sizing flag
    are restored, and R has the displayable added to its render_of, its
    cache_killed flag unset and its debug flag updated: the render cache
    is the one the method (or the crop) left.
    (5) Whatever the outcome, the sizing flag is what it was, and every
    cache lookup that the method and the crop leave alone gives what it
    gave before.
    (6) So, in case (4), when the method and the crop leave the cache of
    D alone, an ordinary render of the same request made next invokes
    the method again. *)
Theorem render_for_size_purity (env : Env) (d : Displayable)
    (w h st at_ : Z) (s : State) :
  well_behaved env d ->
  (forall rv,
     cache_lookup (d_id d) (request_key s w h st at_) s = Some rv ->
     render_for_size env d w h st at_ s
     = mkOutcome (cache_touch (d_id d) s) [] (inr rv)) /\
  (forall rv,
     may_render env s ->
     cache_lookup (d_id d) (request_key s w h st at_) s = None ->
     cache_lookup (d_id d) (clamped_key env d s w h st at_) s = Some rv ->
     out_result (render_for_size env d w h st at_ s) = inr rv /\
     out_calls (render_for_size env d w h st at_ s) = []) /\
  (~ may_render env s ->
   cache_lookup (d_id d) (request_key s w h st at_) s = None ->
   out_result (render_for_size env d w h st at_ s)
   = inl (PreconditionViolation
            "Displayables may not be rendered during the init phase.") /\
   out_calls (render_for_size env d w h st at_ s) = []) /\
  (may_render env s ->
   cache_lookup (d_id d) (request_key s w h st at_) s = None ->
   cache_lookup (d_id d) (clamped_key env d s w h st at_) s = None ->
   let rw := fst (render_size env d w h) in
   let rh := snd (render_size env d w h) in
   let s_in :=
     set_rendering (rendering s + 1) st at_
       (cache_touch (d_id d)
          (set_render_size w h (set_sizing true (cache_touch (d_id d) s)))) in
   let restore s2 :=
     set_rendering (rendering s2 - 1) (render_st s) (render_at s) s2 in
   let adopt rv s3 :=
     upd rv (fun r => set_cache_killed false
                        (set_render_of (render_of r ++ [d_id d]) r)) s3 in
   let finish rv s6 :=
     set_sizing (sizing s)
       (upd rv (fun r => set_debug (style_debug d || debug r) r) s6) in
   sizing s_in = true /\
   out_calls (render_for_size env d w h st at_ s)
   = [mkCall (d_id d) rw rh st at_] /\
   (forall s2 e,
      d_render d rw rh st at_ s_in = (s2, inl e) ->
      out_result (render_for_size env d w h st at_ s) = inl e /\
      out_state (render_for_size env d w h st at_ s)
      = set_sizing (sizing s) (restore s2)) /\
   (forall s2 rv,
      d_render d rw rh st at_ s_in = (s2, inr (VRender rv)) ->
      clipping d = false ->
      out_result (render_for_size env d w h st at_ s) = inr rv /\
      out_state (render_for_size env d w h st at_ s)
      = finish rv (adopt rv (restore s2)) /\
      render_cache (out_state (render_for_size env d w h st at_ s))
      = render_cache s2) /\
   (forall s2 rv s5 rv',
      d_render d rw rh st at_ s_in = (s2, inr (VRender rv)) ->
      clipping d = true ->
      subsurface_full env rv (adopt rv (restore s2)) = (s5, inr rv') ->
      out_result (render_for_size env d w h st at_ s) = inr rv' /\
      out_state (render_for_size env d w h st at_ s)
      = finish rv'
          (upd rv' (fun r => set_render_of (render_of r ++ [d_id d]) r) s5) /\
      render_cache (out_state (render_for_size env d w h st at_ s))
      = render_cache s5)) /\
  (sizing (out_state (render_for_size env d w h st at_ s)) = sizing s /\
   forall d' k,
     (forall w h st at_ t,
        cache_lookup d' k (fst (d_render d w h st at_ t))
        = cache_lookup d' k t) ->
     (forall rv t,
        cache_lookup d' k (fst (subsurface_full env rv t))
        = cache_lookup d' k t) ->
     cache_lookup d' k (out_state (render_for_size env d w h st at_ s))
     = cache_lookup d' k s) /\
  (may_render env s ->
   cache_lookup (d_id d) (request_key s w h st at_) s = None ->
   cache_lookup (d_id d) (clamped_key env d s w h st at_) s = None ->
   (forall k w h st at_ t,
      cache_lookup (d_id d) k (fst (d_render d w h st at_ t))
      = cache_lookup (d_id d) k t) ->
   (forall k rv t,
      cache_lookup (d_id d) k (fst (subsurface_full env rv t))
      = cache_lookup (d_id d) k t) ->
   out_calls (render env d w h st at_
                (out_state (render_for_size env d w h st at_ s)))
   = [mkCall (d_id d) (fst (render_size env d w h))
        (snd (render_size env d w h)) st at_]).
Proof.
  intros Hwb.
  set (s0 := cache_touch (d_id d) s).
  set (s1 := set_sizing true s0).
  assert (H0 : forall a b, cache_lookup a b s0 = cache_lookup a b s).
  { intros a b. apply cache_lookup_touch. }
  pose proof (same_globals_touch (d_id d) s) as (Hft & Hsz0 & Hrd).
  fold s0 in Hft, Hsz0, Hrd.
  assert (Hm1 : may_render env s -> may_render env s1).
  { unfold may_render in *. simpl. rewrite Hrd. auto. }
  assert (Hk1 : request_key s1 w h st at_ = request_key s w h st at_).
  { unfold request_key. simpl. rewrite Hft. reflexivity. }
  assert (Hc1 : clamped_key env d s1 w h st at_
                = clamped_key env d s w h st at_).
  { unfold clamped_key, request_key. simpl. rewrite Hft. reflexivity. }
  assert (H1 : forall a b, cache_lookup a b s1 = cache_lookup a b s).
  { intros a b. rewrite <- H0. reflexivity. }
  assert (Hfin : sizing (out_state (render_for_size env d w h st at_ s))
                 = sizing s /\
    forall d' k,
      (forall w h st at_ t,
         cache_lookup d' k (fst (d_render d w h st at_ t))
         = cache_lookup d' k t) ->
      (forall rv t,
         cache_lookup d' k (fst (subsurface_full env rv t))
         = cache_lookup d' k t) ->
      cache_lookup d' k (out_state (render_for_size env d w h st at_ s))
      = cache_lookup d' k s).
  { rewrite render_for_size_cases. fold s0. fold s1. split.
    - destruct (cache_lookup (d_id d) (request_key s w h st at_) s);
        [exact Hsz0 | reflexivity].
    - intros d' k Hfcb Hfss.
      destruct (cache_lookup (d_id d) (request_key s w h st at_) s); simpl.
      + apply H0.
      + change (cache_lookup d' k (set_sizing ?b ?x)) with (cache_lookup d' k x).
        rewrite (render_sizing_frame env d w h st at_ s1 d' k); auto. }
  split; [| split; [| split; [| split; [| split]]]].
  - intros rv Ho. rewrite render_for_size_cases, Ho. reflexivity.
  - intros rv Hm Ho Hc. rewrite render_for_size_cases, Ho. simpl.
    fold s0. fold s1. rewrite render_hit with (rv := rv).
    + split; reflexivity.
    + exact (Hm1 Hm).
    + right. rewrite Hk1, Hc1, !H1. auto.
  - intros Hn Ho. rewrite render_for_size_cases, Ho. simpl.
    fold s0. fold s1. rewrite render_refused_eq; [split; reflexivity |].
    intros Hm. apply Hn. unfold may_render in *. simpl in Hm.
    rewrite Hrd in Hm. exact Hm.
  - intros Hm Ho Hc. cbv zeta.
    fold s0. fold s1.
    set (s0' := cache_touch (d_id d) (set_render_size w h s1)).
    destruct (cache_touch_counters (d_id d) (set_render_size w h s1))
      as (Hr0' & Hst0' & Hat0').
    fold s0' in Hr0', Hst0', Hat0'.
    destruct (cache_touch_counters (d_id d) s) as (Hr0 & Hst0 & Hat0).
    fold s0 in Hr0, Hst0, Hat0.
    assert (Hren : rendering s = rendering s0') by (rewrite Hr0'; simpl; congruence).
    assert (Hrst : render_st s = render_st s0') by (rewrite Hst0'; simpl; congruence).
    assert (Hrat : render_at s = render_at s0') by (rewrite Hat0'; simpl; congruence).
    rewrite Hren, Hrst, Hrat.
    assert (Hsz0' : sizing s0' = true).
    { subst s0'. rewrite sizing_touch. reflexivity. }
    assert (Hrfs : render_for_size env d w h st at_ s =
      let o := render_miss env d (request_key s w h st at_)
                 (clamped_key env d s w h st at_)
                 (bool_decide (size_changed env d w h))
                 (fst (render_size env d w h)) (snd (render_size env d w h))
                 st at_ s0' in
      mkOutcome (set_sizing (sizing s) (out_state o)) (out_calls o)
        (out_result o)).
    { rewrite render_for_size_cases, Ho. fold s0. fold s1.
      rewrite (render_cases _ _ _ _ _ _ _ (Hm1 Hm)).
      rewrite Hk1, Hc1, !H1, Ho, Hc. reflexivity. }
    rewrite Hrfs. cbv zeta. cbn [out_state out_calls out_result].
    split; [exact Hsz0' |]. split; [apply render_miss_calls |].
    destruct Hwb as [Hcb Hss].
    split; [| split].
    + intros s2 e Hd. rewrite (render_miss_error _ _ _ _ _ _ _ _ _ _ _ _ Hd).
      split; reflexivity.
    + intros s2 rv Hd Hclip.
      assert (Hsz2 : sizing s2 = true).
      { pose proof (Hcb (fst (render_size env d w h))
                      (snd (render_size env d w h)) st at_
                      (set_rendering (rendering s0' + 1) st at_ s0'))
          as (_ & Hs & _).
        rewrite Hd in Hs. simpl in Hs. congruence. }
      rewrite (render_miss_sizing_node _ _ _ _ _ _ _ _ _ _ _ _ Hd Hclip Hsz2).
      split; [reflexivity |]. split; reflexivity.
    + intros s2 rv s5 rv' Hd Hclip Hcrop.
      assert (Hsz2 : sizing s2 = true).
      { pose proof (Hcb (fst (render_size env d w h))
                      (snd (render_size env d w h)) st at_
                      (set_rendering (rendering s0' + 1) st at_ s0'))
          as (_ & Hs & _).
        rewrite Hd in Hs. simpl in Hs. congruence. }
      assert (Hsz5 : sizing s5 = true).
      { pose proof (Hss rv
          (upd rv (fun r => set_cache_killed false
                              (set_render_of (render_of r ++ [d_id d]) r))
             (set_rendering (rendering s2 - 1) (render_st s0') (render_at s0')
                s2))) as (_ & Hs & _).
        rewrite Hcrop in Hs. simpl in Hs. congruence. }
      rewrite (render_miss_sizing_crop _ _ _ _ _ _ _ _ _ _ _ _ _ _
                 Hd Hclip Hcrop Hsz5).
      split; [reflexivity |]. split; reflexivity.
  - exact Hfin.
  - intros Hm Ho Hc Hfcb Hfss.
    destruct Hfin as [Hsz Hframe].
    set (s' := out_state (render_for_size env d w h st at_ s)) in *.
    assert (Hg : same_globals s s').
    { subst s'. rewrite render_for_size_cases, Ho. fold s0. fold s1. simpl.
      pose proof (render_globals env d w h st at_ s1 Hwb) as (Ha & _ & Hb).
      split; [simpl in *; congruence |]. split; [reflexivity |].
      simpl in *. congruence. }
    rewrite (render_calls _ _ _ _ _ _ _ (may_render_globals _ _ _ Hg Hm)).
    rewrite (request_key_globals _ _ _ _ _ _ Hg),
      (clamped_key_globals _ _ _ _ _ _ _ _ Hg).
    rewrite !Hframe by auto. rewrite Ho, Hc. reflexivity.
Qed.

Lemma render_for_size_purity_witness :
  out_calls (render_for_size example_env plain_displayable 10 10 0 0 initial_state)
    = [mkCall 1 10 10 0 0] /\
  sizing (out_state (render_for_size example_env plain_displayable 10 10 0 0
                       initial_state)) = false /\
  cache_lookup 1 (10, 10, 0, 0)%Z
    (out_state (render_for_size example_env plain_displayable 10 10 0 0
                  initial_state)) = None.
Proof.
  destruct (render_for_size_purity example_env plain_displayable 10 10 0 0
              initial_state (proj1 well_behaved_plain))
    as (_ & _ & _ & Hmiss & (Hsz & Hl) & _).
  destruct (Hmiss eq_refl eq_refl eq_refl) as (_ & Hcalls & _).
  split; [exact Hcalls |]. split; [exact Hsz |].
  rewrite (Hl 1 (10, 10, 0, 0)%Z).
  - reflexivity.
  - intros w h st at_ t. reflexivity.
  - intros rv t. simpl. unfold depends_on. case_decide; reflexivity.
Defined.

(** * Part III: further properties of the code *)

(** ** compute_subline, for all inputs *)

(** X1: for integer arguments of magnitude at most 2^50 (on which the
    arithmetic of the method is exact, whether they arrive as Python ints
    or as floats), the offset relative to the crop line and the crop
    relative to the source line name the same point, and the end of the
    overlap relative to the crop line is the smaller of the two span
    ends, whether or not the bounds tighten the result. *)
Theorem compute_subline_same_point (sx sw cx cw bx bw : Z) :
  exact_int sx -> exact_int sw -> exact_int cx -> exact_int cw ->
  exact_int bx -> exact_int bw ->
  (sx + subline_crop (compute_subline sx sw cx cw bx bw)
   = cx + subline_offset (compute_subline sx sw cx cw bx bw))%Z /\
  (subline_offset (compute_subline sx sw cx cw bx bw)
   + subline_width (compute_subline sx sw cx cw bx bw)
   = Z.min (sx + sw) (cx + cw) - cx)%Z.
Proof.
  intros _ _ _ _ _ _.
  unfold compute_subline, subline_crop, subline_offset, subline_width.
  destruct (Z.max sx bx <? 0)%Z; simpl; lia.
Qed.

Lemma compute_subline_same_point_witness :
  (-5 + subline_crop (compute_subline (-5) 20 0 15 (-3) 15)
   = 0 + subline_offset (compute_subline (-5) 20 0 15 (-3) 15))%Z /\
  subline_offset (compute_subline (-5) 20 0 15 (-3) 15) = (-3)%Z /\
  subline_width (compute_subline (-5) 20 0 15 (-3) 15) = 18%Z.
Proof.
  destruct (compute_subline_same_point (-5) 20 0 15 (-3) 15) as [H _];
    [unfold exact_int; simpl; lia .. |].
  split; [exact H |]. split; reflexivity.
Defined.

(** X2: for integer arguments of magnitude at most 2^50, when the larger
    of the source start and the bounds start is not negative and the
    returned width is positive, the overlap lies inside both spans:
    offset and crop are not negative, offset + width is at most the crop
    width and crop + width at most the source width; and one of offset
    and crop is 0. *)
Theorem compute_subline_inside (sx sw cx cw bx bw : Z) :
  exact_int sx -> exact_int sw -> exact_int cx -> exact_int cw ->
  exact_int bx -> exact_int bw ->
  (0 <= Z.max sx bx)%Z ->
  (0 < subline_width (compute_subline sx sw cx cw bx bw))%Z ->
  (0 <= subline_offset (compute_subline sx sw cx cw bx bw))%Z /\
  (0 <= subline_crop (compute_subline sx sw cx cw bx bw))%Z /\
  (subline_offset (compute_subline sx sw cx cw bx bw)
   + subline_width (compute_subline sx sw cx cw bx bw) <= cw)%Z /\
  (subline_crop (compute_subline sx sw cx cw bx bw)
   + subline_width (compute_subline sx sw cx cw bx bw) <= sw)%Z /\
  (subline_offset (compute_subline sx sw cx cw bx bw) = 0%Z \/
   subline_crop (compute_subline sx sw cx cw bx bw) = 0%Z).
Proof.
  intros _ _ _ _ _ _ Hb. rewrite compute_subline_no_tightening by exact Hb.
  unfold subline_crop, subline_offset, subline_width. simpl. lia.
Qed.

Lemma compute_subline_inside_witness :
  (0 <= subline_offset (compute_subline 10 20 0 15 0 15))%Z /\
  (subline_offset (compute_subline 10 20 0 15 0 15)
   + subline_width (compute_subline 10 20 0 15 0 15) <= 15)%Z.
Proof.
  destruct (compute_subline_inside 10 20 0 15 0 15) as (H1 & _ & H2 & _);
    [unfold exact_int; simpl; lia .. | | |].
  - vm_compute. discriminate.
  - vm_compute. reflexivity.
  - split; [exact H1 | exact H2].
Defined.

(** ** Shaders and properties *)

Lemma string_take_drop (n : nat) (s : string) :
  string_take n s +:+ string_drop n s = s.
Proof.
  revert s. induction n as [|n IH]; intros [|c s]; simpl; try reflexivity.
  change (String c (string_take n s +:+ string_drop n s) = String c s).
  by rewrite IH.
Qed.

Lemma property_name_gl (n : string) : property_name ("gl_" +:+ n) = n.
Proof. reflexivity. Qed.

(** X3: add_shader never stores a shader twice.  Whether the Render has
    shaders or none yet, the shader is in the resulting tuple; a tuple
    without duplicates stays without duplicates; the shaders already
    there stay a prefix, in their order; and adding the same shader again
    changes nothing. *)
Theorem add_shader_once (shader : string) (shaders : option (list string)) :
  NoDup (default [] shaders) ->
  exists l', add_shader shader shaders = Some l' /\
    shader ∈ l' /\ NoDup l' /\ default [] shaders `prefix_of` l' /\
    (forall x, x ∈ l' <-> x = shader \/ x ∈ default [] shaders) /\
    add_shader shader (Some l') = Some l'.
Proof.
  intros Hnd. unfold add_shader. destruct shaders as [l|]; simpl in *.
  - destruct (decide (shader ∈ l)) as [Hin | Hni].
    + exists l. split; [reflexivity |]. split; [exact Hin |].
      split; [exact Hnd |]. split; [reflexivity |]. split.
      * intros x. split; [by right | by intros [-> | ?]].
      * by rewrite decide_True.
    + exists (l ++ [shader]). split; [reflexivity |].
      assert (Hin : shader ∈ l ++ [shader])
        by (apply elem_of_app; right; by left).
      split; [exact Hin |]. split.
      * apply NoDup_app. split; [exact Hnd |].
        split; [| apply NoDup_singleton].
        intros x Hx Hx'. apply list_elem_of_singleton in Hx'. by subst.
      * split; [by apply prefix_app_r |]. split.
        -- intros x. rewrite elem_of_app, list_elem_of_singleton. tauto.
        -- by rewrite decide_True.
  - exists [shader]. split; [reflexivity |].
    assert (Hin : shader ∈ [shader]) by (by left).
    split; [exact Hin |]. split; [apply NoDup_singleton |].
    split; [apply prefix_nil |]. split.
    + intros x. rewrite list_elem_of_singleton. split; [by left |].
      intros [-> | Hx]; [reflexivity | by apply elem_of_nil in Hx].
    + by rewrite decide_True.
Qed.

Lemma add_shader_once_witness :
  exists l', add_shader "b" (Some ["a"; "b"]) = Some l' /\ "b" ∈ l'.
Proof.
  destruct (add_shader_once "b" (Some ["a"; "b"])) as (l' & H1 & H2 & _).
  - apply (bool_decide_unpack _). vm_compute. reflexivity.
  - exists l'. split; [exact H1 | exact H2].
Defined.

(** X4: a property set with add_property is read back by get_property
    under every name that is the same once one leading gl_ is removed
    (in particular the name itself, and gl_ followed by the name when the
    name has no such prefix), whatever was stored before; a read under
    any other name is not affected; and with no properties the default
    comes back. *)
Theorem get_add_property {V} (name name' : string) (value default : V)
    (properties : option (list (string * V))) :
  get_property name' default (add_property name value properties)
  = (if decide (property_name name = property_name name') then value
     else get_property name' default properties) /\
  get_property name default (add_property ("gl_" +:+ name) value properties)
  = (if decide (string_take 3 name = "gl_")
     then get_property name default properties else value) /\
  get_property name default (None : option (list (string * V))) = default.
Proof.
  assert (Hgen : forall n n',
    get_property n' default (add_property n value properties)
    = if decide (property_name n = property_name n') then value
      else get_property n' default properties).
  { intros n n'. unfold get_property, add_property.
    destruct properties as [p|].
    - rewrite dict_get_set. by destruct (decide (property_name n = property_name n')).
    - change [(property_name n, value)] with (dict_set (property_name n) value []).
      rewrite dict_get_set.
      by destruct (decide (property_name n = property_name n')). }
  split; [apply Hgen |]. split; [| reflexivity].
  rewrite Hgen, property_name_gl.
  destruct (decide (string_take 3 name = "gl_")) as [Hgl | Hgl].
  - assert (Hp : property_name name = string_drop 3 name)
      by (unfold property_name; by rewrite decide_True).
    rewrite decide_False; [reflexivity |]. rewrite Hp. intros Heq.
    pose proof (string_take_drop 3 name) as Htd. rewrite Hgl, <- Heq in Htd.
    apply (f_equal String.length) in Htd.
    change (S (S (S (String.length name))) = String.length name) in Htd. lia.
  - assert (Hp : property_name name = name)
      by (unfold property_name; by rewrite decide_False).
    by rewrite decide_True.
Qed.

(** ** Focuses, uniforms and children *)

Lemma heap_link_self self source s :
  source ≠ self ->
  heap (link self source s) !! self = add_dependency source <$> heap s !! self.
Proof.
  intros Hne. unfold link. by rewrite heap_upd_ne, heap_upd_eq.
Qed.

(** X5: add_focus never raises, also when the mask is the render itself
    (then no dependency is added): it returns normally, and the focus is
    the last entry of the focuses of the render. *)
Theorem add_focus_never_raises (self : nat) (t : focus_entry) (s : State) :
  exists s', add_focus self t s = (s', inr tt) /\
    (forall r, heap s !! self = Some r ->
       exists r', heap s' !! self = Some r' /\
         focuses r' = Some (default [] (focuses r) ++ [t]) /\
         (fo_mask t = Some (CRender self) ->
          depends_on_list r' = depends_on_list r)).
Proof.
  assert (Hdone : forall s1,
    (forall r, heap s !! self = Some r ->
       exists r1, heap s1 !! self = Some r1 /\ focuses r1 = focuses r /\
         (fo_mask t = Some (CRender self) ->
          depends_on_list r1 = depends_on_list r)) ->
    forall r, heap s !! self = Some r ->
      exists r', heap (upd self (fun r =>
         set_focuses
           (match focuses r with
            | None => Some [t]
            | Some l => Some (l ++ [t])
            end) r) s1) !! self = Some r' /\
         focuses r' = Some (default [] (focuses r) ++ [t]) /\
         (fo_mask t = Some (CRender self) ->
          depends_on_list r' = depends_on_list r)).
  { intros s1 H1 r Hr. destruct (H1 r Hr) as (r1 & Hr1 & Hf & Hd).
    rewrite heap_upd_eq, Hr1. simpl. eexists. split; [reflexivity |].
    simpl. split; [| exact Hd]. rewrite <- Hf. by destruct (focuses r1). }
  assert (Hsame : forall r, heap s !! self = Some r ->
       exists r1, heap s !! self = Some r1 /\ focuses r1 = focuses r /\
         (fo_mask t = Some (CRender self) ->
          depends_on_list r1 = depends_on_list r)).
  { intros r Hr. by exists r. }
  unfold add_focus. destruct (fo_mask t) as [[m | x | x] |] eqn:Hmask;
    try (eexists; split; [reflexivity | by apply Hdone]).
  destruct (decide (m = self)) as [-> | Hne].
  - eexists. split; [reflexivity | by apply Hdone].
  - unfold depends_on. rewrite decide_False by exact Hne.
    eexists. split; [reflexivity |]. apply Hdone. intros r Hr.
    rewrite heap_link_self, Hr by exact Hne. simpl.
    eexists. split; [reflexivity |]. split; [reflexivity |].
    intros Heq. congruence.
Qed.

(** X6: add_uniform raises exactly when the value is the render itself,
    and then leaves the state as it was; otherwise the uniform is stored
    under its name, and uniforms_has_render is set when the value is a
    Render. *)
Theorem add_uniform_raises_iff (self : nat) (name : string)
    (value : uniform_value) (s : State) :
  (value = URender self ->
   add_uniform self name value s
   = (s, inl (ContractViolation "Render depends on itself."))) /\
  (value ≠ URender self ->
   exists s', add_uniform self name value s = (s', inr tt) /\
     forall r, heap s !! self = Some r ->
       exists r' u, heap s' !! self = Some r' /\ uniforms r' = Some u /\
         dict_get name u = Some value /\
         ((exists v, value = URender v) -> uniforms_has_render r' = true)).
Proof.
  split.
  - intros ->. unfold add_uniform, depends_on. by rewrite decide_True.
  - intros Hne. unfold add_uniform. destruct value as [v | o].
    + assert (Hv : v ≠ self) by congruence.
      unfold depends_on. rewrite decide_False by exact Hv.
      eexists. split; [reflexivity |]. intros r Hr.
      rewrite !heap_upd_eq, heap_link_self, Hr by exact Hv. simpl.
      destruct (uniforms r) as [u|]; eexists _, _;
        (split; [reflexivity |]); simpl; (split; [reflexivity |]);
        (split; [| reflexivity]).
      * apply dict_get_set_eq.
      * simpl. by rewrite decide_True.
    + eexists. split; [reflexivity |]. intros r Hr.
      rewrite heap_upd_eq, Hr. simpl.
      destruct (uniforms r) as [u|]; eexists _, _;
        (split; [reflexivity |]); simpl; (split; [reflexivity |]);
        (split; [| by intros [v Hv]]).
      * apply dict_get_set_eq.
      * simpl. by rewrite decide_True.
Qed.

Lemma add_uniform_raises_iff_witness :
  add_uniform 0 "u_tex" (URender 0) cycle_state
  = (cycle_state, inl (ContractViolation "Render depends on itself.")).
Proof.
  exact (proj1 (add_uniform_raises_iff 0 "u_tex" (URender 0) cycle_state) eq_refl).
Defined.

Lemma elem_of_py_insert {A} (i : Z) (x y : A) (l : list A) :
  y ∈ py_insert i x l <-> y = x \/ y ∈ l.
Proof.
  assert (H : forall n, y ∈ take n l ++ x :: drop n l <-> y = x \/ y ∈ l).
  { intros n. rewrite elem_of_app, elem_of_cons.
    rewrite <- (take_drop n l) at 3. rewrite elem_of_app. tauto. }
  apply H.
Qed.

Lemma children_in_deps_intro s s' :
  children_in_deps s ->
  (forall n r', heap s' !! n = Some r' ->
     exists r, heap s !! n = Some r /\
       depends_on_list r ⊆ depends_on_list r' /\
       forall c m, c ∈ children r' -> ch_source c = CRender m ->
         c ∈ children r \/ m ∈ depends_on_list r') ->
  children_in_deps s'.
Proof.
  intros Hinv H n r' c m Hr' Hc Hm.
  destruct (H n r' Hr') as (r & Hr & Hsub & Hch).
  destruct (Hch c m Hc Hm) as [Hold | Hnew]; [| exact Hnew].
  apply Hsub. by apply (Hinv n r c m).
Qed.

Lemma children_in_deps_upd n f s :
  children_in_deps s ->
  (forall r, children (f r) = children r /\
             depends_on_list r ⊆ depends_on_list (f r)) ->
  children_in_deps (upd n f s).
Proof.
  intros Hinv Hf. apply (children_in_deps_intro s); [exact Hinv |].
  intros m r' Hr'. rewrite heap_upd in Hr'.
  destruct (decide (n = m)) as [-> | Hne].
  - destruct (heap s !! m) as [r|] eqn:Hr; [| discriminate].
    injection Hr' as <-. exists r. split; [reflexivity |].
    destruct (Hf r) as [Hc Hd]. split; [exact Hd |].
    intros c j Hin _. left. by rewrite <- Hc.
  - exists r'. split; [exact Hr' |]. split; [reflexivity |]. by left.
Qed.

Lemma children_in_deps_link self source s :
  children_in_deps s -> children_in_deps (link self source s).
Proof.
  intros Hinv. unfold link. apply children_in_deps_upd.
  - apply children_in_deps_upd; [exact Hinv |].
    intros r. split; [reflexivity |]. simpl.
    intros x Hx. apply elem_of_app. by left.
  - intros r. split; reflexivity.
Qed.

Lemma children_in_deps_depends_on self source focus s :
  children_in_deps s -> children_in_deps (fst (depends_on self source focus s)).
Proof.
  intros Hinv. unfold depends_on.
  destruct (decide (source = self)); [exact Hinv |].
  destruct focus; simpl; [| by apply children_in_deps_link].
  apply children_in_deps_upd; [by apply children_in_deps_link |].
  intros r. split; reflexivity.
Qed.

(** X7: every Render among the children of a node is in the
    depends_on_list of that node, and every method that adds a child, a
    dependency, a focus or a uniform keeps it so, whatever its arguments
    and whether it raises or not. *)
Theorem children_in_deps_kept (s : State) :
  children_in_deps s ->
  (forall conv load_texture self source pos focus main index,
     children_in_deps
       (fst (blit_with conv load_texture self source pos focus main index s))) /\
  (forall self source focus,
     children_in_deps (fst (depends_on self source focus s))) /\
  (forall self t, children_in_deps (fst (add_focus self t s))) /\
  (forall self name value,
     children_in_deps (fst (add_uniform self name value s))).
Proof.
  intros Hinv. split; [| split; [| split]].
  - intros conv load_texture self source pos focus main index.
    unfold blit_with. destruct (decide (source = CRender self)) as [-> | Hne];
      [exact Hinv |].
    assert (Hplain : forall e,
      (forall j, ch_source e ≠ CRender j) ->
      children_in_deps (upd self (fun r =>
        set_children
          (match index with
           | None => children r ++ [e]
           | Some i => py_insert i e (children r)
           end) r) s)).
    { intros e He. apply (children_in_deps_intro s); [exact Hinv |].
      intros n r' Hr'. rewrite heap_upd in Hr'.
      destruct (decide (self = n)) as [-> | Hn].
      - destruct (heap s !! n) as [r|] eqn:Hr; [| discriminate].
        injection Hr' as <-. exists r. split; [reflexivity |].
        split; [reflexivity |]. intros c m Hc Hm. left. simpl in Hc.
        assert (Hor : c = e \/ c ∈ children r).
        { destruct index as [i|].
          - by apply elem_of_py_insert in Hc.
          - apply elem_of_app in Hc as [Hc | Hc]; [by right |].
            apply list_elem_of_singleton in Hc. by left. }
        destruct Hor as [-> | Hold]; [| exact Hold]. by destruct (He m).
      - exists r'. split; [exact Hr' |]. split; [reflexivity |]. by left. }
    assert (Hrender : forall src, src ≠ self ->
      children_in_deps (link self src (upd self (fun r =>
        set_children
          (match index with
           | None => children r ++ [mkChild (CRender src) (conv (fst pos))
                                      (conv (snd pos)) focus main]
           | Some i => py_insert i (mkChild (CRender src) (conv (fst pos))
                                      (conv (snd pos)) focus main) (children r)
           end) r) s))).
    { intros src Hsrc. apply (children_in_deps_intro s); [exact Hinv |].
      intros n r' Hr'. unfold link in Hr'. rewrite !heap_upd in Hr'.
      destruct (decide (self = n)) as [-> | Hn].
      - rewrite decide_False in Hr' by exact Hsrc.
        destruct (heap s !! n) as [r|] eqn:Hr; [| discriminate].
        injection Hr' as <-. exists r. split; [reflexivity |]. simpl.
        split; [intros x Hx; apply elem_of_app; by left |].
        intros c m Hc Hm.
        assert (Hor : c = mkChild (CRender src) (conv (fst pos))
                            (conv (snd pos)) focus main \/ c ∈ children r).
        { destruct index as [i|].
          - by apply elem_of_py_insert in Hc.
          - apply elem_of_app in Hc as [Hc | Hc]; [by right |].
            apply list_elem_of_singleton in Hc. by left. }
        destruct Hor as [-> | Hold]; [| by left].
        right. simpl in Hm. injection Hm as <-.
        apply elem_of_app. right. by left.
      - destruct (decide (src = n)) as [-> | Hn'].
        + destruct (heap s !! n) as [r|] eqn:Hr; [| discriminate].
          injection Hr' as <-. exists r. split; [reflexivity |].
          split; [reflexivity |]. by left.
        + exists r'. split; [exact Hr' |]. split; [reflexivity |]. by left. }
    destruct source as [src | x | x].
    + assert (Hsrc : src ≠ self) by congruence.
      destruct (models s); simpl; by apply Hrender.
    + destruct (models s); simpl; by apply Hplain.
    + destruct (models s); simpl; by apply Hplain.
  - intros self source focus. by apply children_in_deps_depends_on.
  - intros self t. unfold add_focus.
    assert (Hdone : forall s1, children_in_deps s1 ->
      children_in_deps (upd self (fun r =>
         set_focuses
           (match focuses r with
            | None => Some [t]
            | Some l => Some (l ++ [t])
            end) r) s1)).
    { intros s1 H1. apply children_in_deps_upd; [exact H1 |].
      intros r. split; reflexivity. }
    destruct (fo_mask t) as [[m | x | x] |]; try (simpl; by apply Hdone).
    destruct (decide (m = self)); [simpl; by apply Hdone |].
    pose proof (children_in_deps_depends_on self m false s Hinv) as Hd.
    destruct (depends_on self m false s) as [s1 [e | []]]; simpl in *;
      [exact Hd | by apply Hdone].
  - intros self name value. unfold add_uniform.
    assert (Hdone : forall s1 g, children_in_deps s1 ->
      children_in_deps (upd self (fun r =>
         set_uniforms (g r) (uniforms_has_render r) r) s1)).
    { intros s1 g H1. apply children_in_deps_upd; [exact H1 |].
      intros r. split; reflexivity. }
    destruct value as [v | o]; [| simpl; by apply Hdone].
    pose proof (children_in_deps_depends_on self v false s Hinv) as Hd.
    destruct (depends_on self v false s) as [s1 [e | []]]; simpl in *;
      [exact Hd |].
    apply Hdone. apply children_in_deps_upd; [exact Hd |].
    intros r. split; reflexivity.
Qed.

Lemma gc_state_children_in_deps : children_in_deps gc_state.
Proof.
  intros n r c m Hr Hc Hm.
  apply gc_state_lookup in Hr as [[-> ->] | [[-> ->] | [-> ->]]]; simpl in *.
  - by apply elem_of_nil in Hc.
  - apply list_elem_of_singleton in Hc. subst c. simpl in Hm.
    injection Hm as <-. by left.
  - apply list_elem_of_singleton in Hc. subst c. discriminate.
Qed.

Lemma children_in_deps_kept_witness :
  children_in_deps
    (fst (blit_with CoordInt (fun x => x) 3 (CRender 1) (0, 0)%Z true true None
            gc_state)).
Proof.
  exact (proj1 (children_in_deps_kept gc_state gc_state_children_in_deps)
           CoordInt (fun x => x) 3 (CRender 1) (0, 0)%Z true true None).
Defined.

(** ** kill and the cache *)

Lemma render_cache_foldl_upd (g : nat -> Render -> Render) (l : list nat) :
  forall s, render_cache (foldl (fun s i => upd i (g i) s) s l) = render_cache s.
Proof.
  induction l as [|i l IH]; intros s; simpl; [reflexivity |].
  by rewrite IH.
Qed.

Lemma cache_of_kill_finish self s d (kv : cache_key * nat) :
  kv ∈ cache_of d (kill_finish self s) <->
  kv ∈ cache_of d s /\
  (forall r, heap s !! self = Some r -> d ∈ render_of r -> snd kv ≠ self).
Proof.
  unfold kill_finish.
  change (cache_of d (upd self break_references
            (uncache self (discard_from_parents self (upd self (set_parents ∅) s)))))
    with (cache_of d
            (uncache self (discard_from_parents self (upd self (set_parents ∅) s)))).
  rewrite elem_of_cache_of_uncache.
  assert (Hc : cache_of d (discard_from_parents self (upd self (set_parents ∅) s))
               = cache_of d s).
  { unfold cache_of, discard_from_parents.
    by rewrite (render_cache_foldl_upd
                  (fun _ ri => set_parents (parents ri ∖ {[self]}) ri)). }
  rewrite Hc.
  assert (Hro : forall r, heap s !! self = Some r ->
    exists r1, heap (discard_from_parents self (upd self (set_parents ∅) s)) !! self
               = Some r1 /\ render_of r1 = render_of r).
  { intros r Hr. unfold discard_from_parents.
    pose proof (discard_lookup self
      (match heap (upd self (set_parents ∅) s) !! self with
       | Some r0 => depends_on_list r0
       | None => []
       end) (upd self (set_parents ∅) s) self) as Hl.
    rewrite heap_upd_eq, Hr in Hl. simpl in Hl.
    rewrite heap_upd_eq, Hr. simpl.
    inversion Hl as [a b Hlost Ha Hb |]. exists b. split; [reflexivity |].
    destruct Hlost as (He & _). exact (f_equal render_of He). }
  split; intros [Hin Hne]; (split; [exact Hin |]).
  - intros r Hr Hd. destruct (Hro r Hr) as (r1 & Hr1 & Heq).
    apply (Hne r1 Hr1). by rewrite Heq.
  - intros r1 Hr1 Hd.
    destruct (heap s !! self) as [r|] eqn:Hr.
    + destruct (Hro r eq_refl) as (r1' & Hr1' & Heq).
      rewrite Hr1 in Hr1'. injection Hr1' as <-.
      apply (Hne r eq_refl). by rewrite <- Heq.
    + exfalso. unfold discard_from_parents in Hr1.
      pose proof (discard_lookup self
        (match heap (upd self (set_parents ∅) s) !! self with
         | Some r0 => depends_on_list r0
         | None => []
         end) (upd self (set_parents ∅) s) self) as Hl.
      rewrite Hr1, heap_upd_eq, Hr in Hl. inversion Hl.
Qed.

Lemma kill_uncache_rel_refl s : kill_uncache_rel s s.
Proof.
  split; [apply kill_rel_refl |]. split; [auto |].
  intros m r r' Hr Hr' Hk Hk'. congruence.
Qed.

Lemma kill_uncache_rel_trans s1 s2 s3 :
  kill_uncache_rel s1 s2 -> kill_uncache_rel s2 s3 -> kill_uncache_rel s1 s3.
Proof.
  intros (Hk12 & Hs12 & Hn12) (Hk23 & Hs23 & Hn23).
  split; [by apply (kill_rel_trans s1 s2 s3) |]. split; [auto |].
  intros m r1 r3 Hr1 Hr3 Hl1 Hd3 d k Hd.
  destruct Hk12 as [_ Hnode]. destruct (Hnode m r1 Hr1) as (r2 & Hr2 & Hrel).
  destruct (killed r2) eqn:Hl2.
  - intros Hin. apply (Hn12 m r1 r2 Hr1 Hr2 Hl1 Hl2 d k Hd). by apply Hs23.
  - destruct Hrel as (_ & _ & Hsame & _).
    assert (He : erase_parents r2 = erase_parents r1) by (apply Hsame; congruence).
    apply (Hn23 m r2 r3 Hr2 Hr3 Hl2 Hd3).
    by rewrite (f_equal render_of He : render_of r2 = render_of r1).
Qed.

Lemma kill_uncache_rel_node self s r s2 :
  heap s !! self = Some r -> killed r = false ->
  kill_uncache_rel (upd self (set_killed true) s) s2 ->
  kill_uncache_rel s (kill_finish self s2).
Proof.
  intros Hr Hl (Hk & Hs & Hn).
  assert (Hr1 : heap (upd self (set_killed true) s) !! self
                = Some (set_killed true r)) by (by rewrite heap_upd_eq, Hr).
  destruct Hk as [Hdom Hnode].
  destruct (Hnode self _ Hr1) as (r2 & Hr2 & Hrel2).
  assert (Hro2 : render_of r2 = render_of r).
  { destruct Hrel2 as (_ & Hst & Hsame & _).
    assert (He : erase_parents r2 = erase_parents (set_killed true r))
      by (apply Hsame; rewrite Hst; reflexivity).
    exact (f_equal render_of He). }
  split; [apply (kill_rel_node self s r s2 Hr Hl); by split |].
  split.
  - intros d k v Hin. apply cache_of_kill_finish in Hin as [Hin _].
    apply Hs in Hin. exact Hin.
  - intros m rm rm' Hm Hm' Hlm Hdm d k Hd Hin.
    apply cache_of_kill_finish in Hin as [Hin Hne].
    destruct (decide (m = self)) as [-> | Hms].
    + rewrite Hr in Hm. injection Hm as <-.
      apply (Hne r2 Hr2); [by rewrite Hro2 | reflexivity].
    + assert (Hm1 : heap (upd self (set_killed true) s) !! m = Some rm)
        by (by rewrite heap_upd_ne).
      destruct (Hnode m rm Hm1) as (rm2 & Hm2 & _).
      pose proof (kill_finish_other self s2 m Hms) as Hl2.
      rewrite Hm2, Hm' in Hl2. inversion Hl2 as [a b Hlost Ha Hb |]. subst a b.
      destruct Hlost as (He & _).
      assert (Hk2 : killed rm2 = true).
      { rewrite <- Hdm. symmetry. exact (f_equal killed He). }
      exact (Hn m rm rm2 Hm1 Hm2 Hlm Hk2 d k Hd Hin).
Qed.

Lemma kill_uncache_effect fuel self s s' :
  kill fuel self s = Some s' -> kill_uncache_rel s s'.
Proof.
  apply (flagged_rel killed (set_killed true) kill_finish kill).
  - reflexivity.
  - apply kill_S.
  - apply kill_uncache_rel_refl.
  - apply kill_uncache_rel_trans.
  - apply kill_uncache_rel_node.
Qed.

Lemma cache_sound_kill_uncache_rel s s' :
  cache_sound s -> kill_uncache_rel s s' -> cache_sound s'.
Proof.
  intros Hc (Hk & Hs & Hn) d k v Hin.
  destruct (Hc d k v (Hs d k v Hin)) as (r & Hr & Hck & Hl & Hd).
  destruct Hk as [_ Hnode]. destruct (Hnode v r Hr) as (r' & Hr' & Hrel).
  exists r'. split; [exact Hr' |].
  destruct (killed r') eqn:Hl'.
  - exfalso. exact (Hn v r r' Hr Hr' Hl Hl' d k Hd Hin).
  - destruct Hrel as (_ & _ & Hsame & _).
    assert (He : erase_parents r' = erase_parents r) by (apply Hsame; congruence).
    split; [rewrite <- Hck; exact (f_equal cache_killed He) |].
    split; [reflexivity |].
    by rewrite (f_equal render_of He : render_of r' = render_of r).
Qed.




(** X9: kill keeps the cache sound and leaves no killed node in it.  From
    a state in which every cached node is in the heap, unflagged and
    cached under a displayable of its render_of, kill (with more fuel
    than the heap has nodes) returns a state of which the same holds; the
    cache has lost entries only; and the node and the parents it had are
    killed, so that no key of any displayable maps to one of them. *)
Theorem kill_uncaches (fuel self : nat) (s : State) :
  size (heap s) < fuel -> cache_sound s ->
  exists s', kill fuel self s = Some s' /\ cache_sound s' /\
    (forall d k v, cache_lookup d k s' = Some v -> (k, v) ∈ cache_of d s) /\
    (forall d k, cache_lookup d k s' ≠ Some self) /\
    (forall r p, heap s !! self = Some r -> killed r = false ->
       p ∈ parents r -> forall d k, cache_lookup d k s' ≠ Some p).
Proof.
  intros Hsize Hc.
  destruct (kill_total_idempotent fuel self s Hsize) as (s' & Hk & _ & Hself).
  pose proof (kill_uncache_effect _ _ _ _ Hk) as Hrel.
  pose proof (cache_sound_kill_uncache_rel s s' Hc Hrel) as Hc'.
  assert (Hdead : forall p, p ∉ unflagged killed s' ->
            forall d k, cache_lookup d k s' ≠ Some p).
  { intros p Hp d k Hget. apply dict_get_elem_of in Hget.
    destruct (Hc' d k p Hget) as (r & Hr & _ & Hl & _).
    apply Hp, elem_of_unflagged. eauto. }
  exists s'. split; [exact Hk |]. split; [exact Hc' |]. split; [| split].
  - intros d k v Hget. apply dict_get_elem_of in Hget.
    destruct Hrel as (_ & Hs & _). by apply Hs.
  - by apply Hdead.
  - intros r p Hr Hl Hp. apply Hdead.
    eapply (flagged_parents killed (set_killed true) kill_finish kill);
      eauto using kill_S, unflagged_kill_finish, dom_heap_kill_finish.
Qed.

Lemma cycle_state_cache_sound : cache_sound cycle_state.
Proof.
  intros d k v Hin. unfold cache_of, cycle_state in Hin. simpl in Hin.
  destruct (decide (d = 10)) as [-> | H10].
  - rewrite lookup_insert_eq in Hin. simpl in Hin.
    apply list_elem_of_singleton in Hin. injection Hin as -> ->.
    exists (cycle_node 2 10). repeat split. by left.
  - rewrite lookup_insert_ne in Hin by congruence.
    destruct (decide (d = 20)) as [-> | H20].
    + rewrite lookup_singleton_eq in Hin. simpl in Hin.
      apply list_elem_of_singleton in Hin. injection Hin as -> ->.
      exists (cycle_node 1 20). repeat split. by left.
    + rewrite lookup_singleton_ne in Hin by congruence.
      by apply elem_of_nil in Hin.
Qed.

Lemma kill_uncaches_witness :
  exists s', kill 10 1 cycle_state = Some s' /\ cache_sound s' /\
    cache_lookup 20 (10, 10, 0, 0)%Z s' ≠ Some 2.
Proof.
  destruct (kill_uncaches 10 1 cycle_state) as (s' & Hk & Hc & _ & _ & Hp).
  - vm_compute. lia.
  - exact cycle_state_cache_sound.
  - exists s'. split; [exact Hk |]. split; [exact Hc |].
    apply (Hp (cycle_node 2 10) 2); [reflexivity | reflexivity |].
    change (2 ∈ ({[2]} : gset nat)). set_solver.
Defined.

Lemma cache_sound_kill_cache_rel s s' :
  cache_sound s -> kill_cache_rel s s' -> cache_sound s'.
Proof.
  intros Hc (Hf & _ & Hs & Hn) d k v Hin.
  destruct (Hc d k v (Hs d k v Hin)) as (r & Hr & Hck & Hl & Hd).
  destruct (frame_lookup _ _ _ _ _ (Hf v) Hr) as (r' & Hr' & He).
  exists r'. split; [exact Hr' |].
  destruct (cache_killed r') eqn:Hck'.
  - exfalso. exact (Hn v r r' Hr Hr' Hck Hck' d k Hd Hin).
  - split; [reflexivity |].
    split; [rewrite <- Hl; exact (f_equal killed He) |].
    by rewrite (f_equal render_of He : render_of r' = render_of r).
Qed.

(** X10: kill_cache keeps the cache sound and evicts the node under every
    displayable.  From a state in which every cached node is in the heap,
    unflagged and cached under a displayable of its render_of, kill_cache
    (with more fuel than the heap has nodes) returns a state of which the
    same holds, in which no key of any displayable maps to the node or to
    one of the parents it had, and in which no node has been killed. *)
Theorem kill_cache_evicts (fuel self : nat) (s : State) :
  size (heap s) < fuel -> cache_sound s ->
  exists s', kill_cache fuel self s = Some s' /\ cache_sound s' /\
    (forall d k, cache_lookup d k s' ≠ Some self) /\
    (forall r p, heap s !! self = Some r -> cache_killed r = false ->
       p ∈ parents r -> forall d k, cache_lookup d k s' ≠ Some p) /\
    (forall m, killed <$> heap s' !! m = killed <$> heap s !! m).
Proof.
  intros Hsize Hc.
  destruct (kill_cache_total_idempotent fuel self s Hsize)
    as (s' & Hk & _ & Hself).
  pose proof (kill_cache_effect _ _ _ _ Hk) as Hrel.
  pose proof (cache_sound_kill_cache_rel s s' Hc Hrel) as Hc'.
  assert (Hdead : forall p, p ∉ unflagged cache_killed s' ->
            forall d k, cache_lookup d k s' ≠ Some p).
  { intros p Hp d k Hget. apply dict_get_elem_of in Hget.
    destruct (Hc' d k p Hget) as (r & Hr & Hck & _).
    apply Hp, elem_of_unflagged. eauto. }
  exists s'. split; [exact Hk |]. split; [exact Hc' |]. split; [| split].
  - by apply Hdead.
  - intros r p Hr Hl Hp. apply Hdead.
    eapply (flagged_parents cache_killed (set_cache_killed true) uncache
              kill_cache); eauto using kill_cache_S.
  - intros m. destruct Hrel as (Hf & _).
    pose proof (f_equal (fmap killed) (Hf m)) as He.
    rewrite <- !option_fmap_compose in He. exact He.
Qed.

Lemma kill_cache_evicts_witness :
  exists s', kill_cache 10 1 cycle_state = Some s' /\ cache_sound s' /\
    cache_lookup 10 (10, 10, 0, 0)%Z s' ≠ Some 1.
Proof.
  destruct (kill_cache_evicts 10 1 cycle_state) as (s' & Hk & Hc & Hs & _).
  - vm_compute. lia.
  - exact cycle_state_cache_sound.
  - exists s'. split; [exact Hk |]. split; [exact Hc |]. apply Hs.
Defined.

(** ** mark_sweep leaves the state as it needs it *)

Lemma globals_foldl_upd {A} (proj : State -> A) (g : nat -> Render -> Render)
    (l : list nat) :
  (forall n f s, proj (upd n f s) = proj s) ->
  forall s, proj (foldl (fun s i => upd i (g i) s) s l) = proj s.
Proof.
  intros Hp. induction l as [|i l IH]; intros s; simpl; [reflexivity |].
  by rewrite IH, Hp.
Qed.

Lemma mark_all_globals l s :
  render_cache (mark_all l s) = render_cache s /\
  screen_render (mark_all l s) = screen_render s.
Proof.
  unfold mark_all. split.
  - by apply (globals_foldl_upd render_cache (fun _ => set_mark true)).
  - by apply (globals_foldl_upd screen_render (fun _ => set_mark true)).
Qed.

Lemma mark_step_globals acc j :
  render_cache (snd (mark_step acc j)) = render_cache (snd acc) /\
  screen_render (snd (mark_step acc j)) = screen_render (snd acc).
Proof.
  destruct acc as [wl t]. unfold mark_step.
  destruct (heap t !! j) as [rj|]; [| by split].
  destruct (mark rj); by split.
Qed.

Lemma mark_fold_globals deps : forall acc,
  render_cache (snd (foldl mark_step acc deps)) = render_cache (snd acc) /\
  screen_render (snd (foldl mark_step acc deps)) = screen_render (snd acc).
Proof.
  induction deps as [|j deps IH]; intros acc; simpl; [by split |].
  destruct (IH (mark_step acc j)) as [-> ->]. apply mark_step_globals.
Qed.

Lemma mark_loop_globals fuel : forall i wl t wl' t',
  mark_loop fuel i wl t = Some (wl', t') ->
  render_cache t' = render_cache t /\ screen_render t' = screen_render t.
Proof.
  induction fuel as [|fuel IH]; intros i wl t wl' t' Hloop; [discriminate |].
  simpl in Hloop. destruct (wl !! i) as [r|].
  - unfold mark_dependencies in Hloop.
    pose proof (mark_fold_globals
                  match heap t !! r with
                  | Some rr => depends_on_list rr
                  | None => []
                  end (wl, t)) as [Hrc Hsr].
    destruct (foldl mark_step (wl, t)
                match heap t !! r with
                | Some rr => depends_on_list rr
                | None => []
                end) as [wl1 t1].
    destruct (IH _ _ _ _ _ Hloop) as [Hrc' Hsr']. simpl in Hrc, Hsr.
    split; congruence.
  - injection Hloop as <- <-. by split.
Qed.

Lemma mark_step_nodup wl t j wl' t' :
  mark_step (wl, t) j = (wl', t') ->
  (forall m r, heap t !! m = Some r -> (mark r = true <-> m ∈ wl)) ->
  NoDup wl -> NoDup wl'.
Proof.
  intros Hstep Hmk Hnd. unfold mark_step in Hstep.
  destruct (heap t !! j) as [rj|] eqn:Hj.
  - destruct (mark rj) eqn:Hm.
    + by injection Hstep as <- <-.
    + injection Hstep as <- <-.
      apply NoDup_app. split; [exact Hnd |]. split; [| apply NoDup_singleton].
      intros x Hx Hx'. apply list_elem_of_singleton in Hx'. subst x.
      apply (Hmk j rj Hj) in Hx. congruence.
  - by injection Hstep as <- <-.
Qed.

Lemma mark_fold_nodup deps : forall wl t wl' t',
  foldl mark_step (wl, t) deps = (wl', t') ->
  (forall m r, heap t !! m = Some r -> (mark r = true <-> m ∈ wl)) ->
  NoDup wl -> NoDup wl'.
Proof.
  induction deps as [|j deps IH]; intros wl t wl' t' Hfold Hmk Hnd.
  - by injection Hfold as <- <-.
  - change (foldl mark_step (mark_step (wl, t) j) deps = (wl', t')) in Hfold.
    destruct (mark_step (wl, t) j) as [wl1 t1] eqn:Hstep.
    pose proof (mark_step_nodup _ _ _ _ _ Hstep Hmk Hnd) as Hnd1.
    destruct (mark_step_spec t _ _ _ _ _ Hstep (marks_only_refl t) eq_refl Hmk)
      as (_ & _ & Hmk1 & _).
    exact (IH _ _ _ _ Hfold Hmk1 Hnd1).
Qed.

Lemma mark_loop_nodup fuel : forall i wl t wl' t',
  mark_loop fuel i wl t = Some (wl', t') ->
  (forall m r, heap t !! m = Some r -> (mark r = true <-> m ∈ wl)) ->
  NoDup wl -> NoDup wl'.
Proof.
  induction fuel as [|fuel IH]; intros i wl t wl' t' Hloop Hmk Hnd;
    [discriminate |].
  simpl in Hloop. destruct (wl !! i) as [r|].
  - unfold mark_dependencies in Hloop.
    destruct (foldl mark_step (wl, t)
                match heap t !! r with
                | Some rr => depends_on_list rr
                | None => []
                end) as [wl1 t1] eqn:Hfold.
    pose proof (mark_fold_nodup _ _ _ _ _ Hfold Hmk Hnd) as Hnd1.
    destruct (mark_fold_spec t _ _ _ _ _ Hfold (marks_only_refl t) eq_refl Hmk)
      as (_ & _ & Hmk1 & _).
    exact (IH _ _ _ _ _ Hloop Hmk1 Hnd1).
  - by injection Hloop as <- <-.
Qed.

Lemma screen_render_kill_finish self s :
  screen_render (kill_finish self s) = screen_render s.
Proof.
  unfold kill_finish.
  change (screen_render (discard_from_parents self (upd self (set_parents ∅) s))
          = screen_render s).
  unfold discard_from_parents.
  by rewrite (globals_foldl_upd screen_render
                (fun _ ri => set_parents (parents ri ∖ {[self]}) ri)).
Qed.

Lemma screen_render_kill fuel self s s' :
  kill fuel self s = Some s' -> screen_render s' = screen_render s.
Proof.
  apply (flagged_rel killed (set_killed true) kill_finish kill
           (fun _ _ => eq_refl) kill_S
           (fun s s' => screen_render s' = screen_render s)).
  - reflexivity.
  - intros s1 s2 s3 H12 H23. congruence.
  - intros n t r t2 _ _ H. by rewrite screen_render_kill_finish.
Qed.

Lemma sweep_rel (R : State -> State -> Prop) fuel :
  (forall s, R s s) ->
  (forall s1 s2 s3, R s1 s2 -> R s2 s3 -> R s1 s3) ->
  (forall n s s', kill fuel n s = Some s' -> R s s') ->
  (forall n s, R s (upd n (set_mark false) s)) ->
  forall l s s', sweep fuel l s = Some s' -> R s s'.
Proof.
  intros Hrefl Htrans Hkill Hupd. induction l as [|h l IH]; intros s s' Hsw.
  - injection Hsw as <-. apply Hrefl.
  - simpl in Hsw. destruct (heap s !! h) as [rr|]; [| by apply IH].
    destruct (mark rr).
    + apply (Htrans _ (upd h (set_mark false) s)); [apply Hupd | by apply IH].
    + destruct (kill fuel h s) as [s1|] eqn:Hk; [| discriminate].
      apply (Htrans _ s1); [by apply (Hkill h) | by apply IH].
Qed.

Lemma sweep_marks fuel l : forall s s',
  sweep fuel l s = Some s' ->
  forall m r', heap s' !! m = Some r' -> mark r' = true ->
    (m ∉ l) /\ exists r, heap s !! m = Some r /\ mark r = true.
Proof.
  induction l as [|h l IH]; intros s s' Hsw m r' Hr' Hm.
  - injection Hsw as <-. split; [apply not_elem_of_nil | eauto].
  - simpl in Hsw. destruct (heap s !! h) as [rr|] eqn:Hh.
    + destruct (mark rr) eqn:Hmk.
      * destruct (IH _ _ Hsw m r' Hr' Hm) as (Hni & r1 & Hr1 & Hm1).
        rewrite heap_upd in Hr1. destruct (decide (h = m)) as [-> | Hne].
        -- rewrite Hh in Hr1. simpl in Hr1. injection Hr1 as <-. discriminate.
        -- split; [| eauto]. apply not_elem_of_cons. split; [congruence | exact Hni].
      * destruct (kill fuel h s) as [s1|] eqn:Hk; [| discriminate].
        destruct (IH _ _ Hsw m r' Hr' Hm) as (Hni & r1 & Hr1 & Hm1).
        pose proof (kill_marks _ _ _ _ Hk m) as Hmarks.
        rewrite Hr1 in Hmarks. simpl in Hmarks.
        destruct (heap s !! m) as [r|] eqn:Hr; [| discriminate].
        simpl in Hmarks. assert (Hmr : mark r = true) by congruence.
        split; [| eauto]. apply not_elem_of_cons. split; [| exact Hni].
        intros ->. congruence.
    + destruct (IH _ _ Hsw m r' Hr' Hm) as (Hni & r1 & Hr1 & Hm1).
      split; [| eauto]. apply not_elem_of_cons. split; [| exact Hni].
      intros ->. congruence.
Qed.

Lemma kill_uncache_rel_marks n b s : kill_uncache_rel s (upd n (set_mark b) s).
Proof.
  split; [apply kill_rel_marks_only, marks_only_upd |]. split; [auto |].
  intros m r r' Hr Hr' Hl Hl'. rewrite heap_upd in Hr'.
  destruct (decide (n = m)) as [-> | Hne].
  - rewrite Hr in Hr'. simpl in Hr'. injection Hr' as <-. simpl in Hl'. congruence.
  - congruence.
Qed.

Lemma cache_sound_marks_only s t :
  cache_sound s -> marks_only s t -> render_cache t = render_cache s ->
  cache_sound t.
Proof.
  intros Hc Hmo Hrc d k v Hin. unfold cache_of in Hin. rewrite Hrc in Hin.
  destruct (Hc d k v Hin) as (r & Hr & Hck & Hl & Hd).
  destruct (frame_lookup _ _ _ _ _ (Hmo v) Hr) as (r' & Hr' & He).
  exists r'. split; [exact Hr' |].
  split; [rewrite <- Hck; exact (f_equal cache_killed He) |].
  split; [rewrite <- Hl; exact (f_equal killed He) |].
  by rewrite (f_equal render_of He : render_of r' = render_of r).
Qed.

Lemma is_dependency_kill_rel s s' a b :
  kill_rel s s' -> is_dependency s' a b -> is_dependency s a b.
Proof.
  intros [Hdom Hnode] (ra' & Ha' & Hb).
  assert (Hin : a ∈ dom (heap s)) by (rewrite <- Hdom; apply elem_of_dom; eauto).
  apply elem_of_dom in Hin as [ra Ha].
  destruct (Hnode a ra Ha) as (ra'' & Ha'' & Hrel).
  rewrite Ha' in Ha''. injection Ha'' as <-.
  exists ra. split; [exact Ha |].
  destruct Hrel as (_ & Hst & Hsame & Hnew & _).
  destruct (decide (killed ra' = killed ra)) as [Heq | Hne].
  - by rewrite <- (f_equal depends_on_list (Hsame Heq)
                   : depends_on_list ra' = depends_on_list ra).
  - assert (Hl : killed ra = false).
    { destruct (killed ra) eqn:Hk; [| reflexivity]. rewrite Hst in Hne; congruence. }
    assert (Hl' : killed ra' = true).
    { destruct (killed ra') eqn:Hk; [reflexivity |]. congruence. }
    pose proof (f_equal depends_on_list (Hnew Hl Hl')
                : depends_on_list ra' = depends_on_list (break_references _)) as He.
    rewrite depends_on_list_break_references in He. rewrite He in Hb.
    by apply elem_of_nil in Hb.
Qed.

Lemma reach_kill_rel s s' roots m :
  kill_rel s s' -> reach s' roots m -> reach s roots m.
Proof.
  intros Hrel Hreach. induction Hreach as [r Hr | a b _ IH Hdep].
  - by apply reach_root.
  - apply reach_step with (a := a); [exact IH |].
    by apply (is_dependency_kill_rel s s').
Qed.

Lemma screen_render_sweep fuel l s s' :
  sweep fuel l s = Some s' -> screen_render s' = screen_render s.
Proof.
  apply (sweep_rel (fun s s' => screen_render s' = screen_render s) fuel).
  - reflexivity.
  - intros s1 s2 s3 H12 H23. congruence.
  - intros n t t'. apply screen_render_kill.
  - reflexivity.
Qed.

Lemma mark_sweep_screen_render fuel im_cache_renders video_renders s s' :
  mark_sweep fuel im_cache_renders video_renders s = Some s' ->
  screen_render s' = screen_render s.
Proof.
  unfold mark_sweep. intros Hms.
  destruct (mark_loop fuel 0 (gc_roots im_cache_renders s)
              (mark_all (gc_roots im_cache_renders s) s))
    as [[wl s2]|] eqn:Hloop; [| discriminate].
  destruct (mark_loop_globals _ _ _ _ _ _ Hloop) as [_ Hsr2].
  destruct (mark_all_globals (gc_roots im_cache_renders s) s) as [_ Hsr1].
  destruct (sweep fuel _ _) as [s4|] eqn:Hsw; [| discriminate].
  injection Hms as <-. apply screen_render_sweep in Hsw. simpl.
  rewrite Hsw. destruct video_renders as [vs|].
  - destruct (mark_all_globals vs s2) as [_ Hsr3]. congruence.
  - congruence.
Qed.

(** X11: mark_sweep leaves the state as it needs it for the next
    collection.  Let no mark bit be set, live_renders and the roots have
    no duplicates, parents be the inverse of depends_on_list on live
    nodes, the cache be sound and every node of the heap that the roots
    reach be in live_renders (each Render enters it when it is made).
    Then mark_sweep, outside emscripten and with enough fuel, returns a
    state of which all of this holds again. *)
Theorem mark_sweep_reestablishes (fuel : nat) (im_cache_renders : list nat)
    (s : State) :
  unmarked s -> NoDup (live_renders s) -> parents_inverse s ->
  cache_sound s -> NoDup (gc_roots im_cache_renders s) ->
  (forall m, reach s (gc_roots im_cache_renders s) m -> m ∈ dom (heap s) ->
             m ∈ live_renders s) ->
  length (gc_roots im_cache_renders s) + size (heap s) < fuel ->
  exists s', mark_sweep fuel im_cache_renders None s = Some s' /\
    unmarked s' /\ NoDup (live_renders s') /\ parents_inverse s' /\
    cache_sound s' /\ NoDup (gc_roots im_cache_renders s') /\
    (forall m, reach s' (gc_roots im_cache_renders s') m ->
               m ∈ dom (heap s') -> m ∈ live_renders s').
Proof.
  intros Hun Hnd Hpi Hcs Hndr Hreg Hfuel.
  destruct (mark_sweep_spec fuel im_cache_renders None s Hun Hnd
              (parents_inverse_sound s Hpi) Hfuel)
    as (s' & wl & Hms & Hlr & _ & Hrel & _ & _).
  exists s'. split; [exact Hms |].
  pose proof (mark_sweep_screen_render _ _ _ _ _ Hms) as Hsr.
  assert (Hroots : gc_roots im_cache_renders s' = gc_roots im_cache_renders s)
    by (unfold gc_roots; by rewrite Hsr).
  unfold mark_sweep in Hms.
  set (roots := gc_roots im_cache_renders s) in *.
  destruct (mark_all_spec roots s) as (Hmo1 & Hlr1 & Hmk1).
  assert (Hmk0 : forall m r, heap (mark_all roots s) !! m = Some r ->
                   (mark r = true <-> m ∈ roots)).
  { intros m r Hr. rewrite (Hmk1 m r Hr). split; [| auto].
    intros [Hin | (r0 & Hr0 & Hm0)]; [exact Hin |].
    rewrite (Hun m r0 Hr0) in Hm0. discriminate. }
  assert (Hinv0 : mark_inv s roots 0 roots (mark_all roots s)).
  { split; [exact Hmo1 |]. split; [exact Hlr1 |]. split; [exact Hmk0 |].
    split; [| split].
    - intros m Hm. apply reach_root. exact Hm.
    - auto.
    - intros k a r j Hk. lia. }
  destruct (mark_loop_spec s roots fuel 0 roots (mark_all roots s) Hinv0)
    as (wl2 & s2 & Hloop & Hinv).
  { pose proof (size_unflagged mark (mark_all roots s)) as Hsz.
    rewrite <- size_dom, (marks_only_dom _ _ Hmo1), size_dom in Hsz. lia. }
  rewrite Hloop in Hms.
  destruct (sweep fuel (live_renders s2) s2) as [s4|] eqn:Hsw; [| discriminate].
  injection Hms as <-.
  pose proof Hinv as (Hmo2 & Hlr2 & Hmk2 & Hreach2 & _ & _).
  pose proof (mark_loop_nodup _ _ _ _ _ _ Hloop Hmk0 Hndr) as Hndw.
  destruct (mark_loop_globals _ _ _ _ _ _ Hloop) as [Hrc2 _].
  destruct (mark_all_globals roots s) as [Hrc1 _].
  assert (Hrel4 : kill_uncache_rel s2 s4).
  { apply (sweep_rel kill_uncache_rel fuel) with (l := live_renders s2);
      [apply kill_uncache_rel_refl | apply kill_uncache_rel_trans | |
       intros n t; apply kill_uncache_rel_marks | exact Hsw].
    intros n t t'. apply kill_uncache_effect. }
  split; [| split; [| split; [| split; [| split]]]].
  - intros m r' Hr'. change (heap s4 !! m = Some r') in Hr'.
    destruct (mark r') eqn:Hm; [exfalso | reflexivity].
    destruct (sweep_marks _ _ _ _ Hsw m r' Hr' Hm) as (Hni & r2 & Hr2 & Hm2).
    apply Hni. rewrite Hlr2. apply Hreg.
    + apply Hreach2. by apply (Hmk2 m r2 Hr2).
    + rewrite <- (marks_only_dom _ _ Hmo2). apply elem_of_dom. eauto.
  - exact Hndw.
  - exact (parents_inverse_kill_rel _ _ Hpi Hrel).
  - apply (cache_sound_kill_uncache_rel s2 s4); [| exact Hrel4].
    apply (cache_sound_marks_only s s2 Hcs Hmo2). congruence.
  - rewrite Hroots. exact Hndr.
  - intros m Hreach Hdom. rewrite Hroots in Hreach.
    change (m ∈ wl2).
    apply (reach_kill_rel s _ roots m Hrel) in Hreach.
    apply (mark_inv_complete _ _ _ _ Hinv m Hreach).
    destruct Hrel as [Hd _]. by rewrite <- Hd.
Qed.

Lemma gc_state_cache_sound : cache_sound gc_state.
Proof. intros d k v Hin. by apply elem_of_nil in Hin. Qed.

Lemma mark_sweep_reestablishes_witness :
  exists s', mark_sweep 10 [] None gc_state = Some s' /\ unmarked s' /\
             NoDup (live_renders s').
Proof.
  destruct (mark_sweep_reestablishes 10 [] gc_state)
    as (s' & Hms & Hun & Hnd & _).
  - exact gc_state_unmarked.
  - apply (bool_decide_unpack _). vm_compute. reflexivity.
  - exact gc_state_parents_inverse.
  - exact gc_state_cache_sound.
  - apply (bool_decide_unpack _). vm_compute. reflexivity.
  - intros m Hm _. apply gc_state_reach in Hm. subst m.
    apply (bool_decide_unpack _). vm_compute. reflexivity.
  - vm_compute. lia.
  - exists s'. split; [exact Hms |]. split; [exact Hun | exact Hnd].
Defined.

(** ** free_memory *)

Lemma reach_set_screen_render o s roots m :
  reach (set_screen_render o s) roots m <-> reach s roots m.
Proof.
  split; intros H; induction H as [r Hr | a b _ IH Hdep];
    try (by apply reach_root);
    (apply reach_step with (a := a); [exact IH | exact Hdep]).
Qed.

(** X12: free_memory empties the cache and forgets the screen render, and
    what it keeps alive is what the image cache reaches.  From a state
    with no mark bit set, no duplicate in live_renders and parents the
    inverse of depends_on_list on live nodes, free_memory with enough
    fuel returns a state with no screen render and an empty render
    cache, in which live_renders holds only nodes the image cache's
    Renders reach and every other node of the old live_renders (video
    renders apart) is killed; with an empty image cache and outside
    emscripten live_renders is empty and every node of the old list is
    killed. *)
Theorem free_memory_frees (fuel : nat) (im_cache_renders : list nat)
    (video_renders : option (list nat)) (s : State) :
  unmarked s -> NoDup (live_renders s) -> parents_inverse s ->
  length im_cache_renders + size (heap s) < fuel ->
  exists s', free_memory fuel im_cache_renders video_renders s = Some s' /\
    screen_render s' = None /\ render_cache s' = ∅ /\
    (forall d k, cache_lookup d k s' = None) /\
    (forall m, m ∈ live_renders s' -> reach s im_cache_renders m) /\
    (forall m, m ∈ live_renders s -> ~ reach s im_cache_renders m ->
       (forall vs, video_renders = Some vs -> m ∉ vs) -> ~ live s' m) /\
    (im_cache_renders = [] -> video_renders = None ->
     live_renders s' = [] /\ forall m, m ∈ live_renders s -> ~ live s' m).
Proof.
  intros Hun Hnd Hpi Hfuel. unfold free_memory.
  destruct (mark_sweep_spec fuel im_cache_renders video_renders
              (set_screen_render None s) Hun Hnd (parents_inverse_sound s Hpi) Hfuel)
    as (s1 & wl & Hms & Hlr & Hreach & _ & _ & Hdead).
  rewrite Hms. eexists. split; [reflexivity |].
  pose proof (mark_sweep_screen_render _ _ _ _ _ Hms) as Hsr.
  change (gc_roots im_cache_renders (set_screen_render None s))
    with im_cache_renders in *.
  assert (Hin : forall m, m ∈ live_renders s1 -> reach s im_cache_renders m).
  { intros m Hm. apply (reach_set_screen_render None s). apply Hreach.
    by rewrite <- Hlr. }
  assert (Hout : forall m, m ∈ live_renders s -> ~ reach s im_cache_renders m ->
       (forall vs, video_renders = Some vs -> m ∉ vs) -> ~ live s1 m).
  { intros m Hm Hnr Hv. apply (Hdead m Hm); [| exact Hv].
    intros Hr. apply Hnr. by apply (reach_set_screen_render None s). }
  assert (Hnone : im_cache_renders = [] -> forall m, ~ reach s im_cache_renders m).
  { intros -> m Hr. induction Hr as [r Hr | a b _ IH _]; [| exact IH].
    by apply elem_of_nil in Hr. }
  split; [exact Hsr |]. split; [reflexivity |]. split; [reflexivity |].
  split; [exact Hin |]. split; [exact Hout |].
  intros Him Hvid. split.
  - change (live_renders s1 = []).
    destruct (live_renders s1) as [|m l] eqn:Hl; [reflexivity |].
    exfalso. apply (Hnone Him m), Hin. by left.
  - intros m Hm. apply Hout; [exact Hm | by apply Hnone |].
    intros vs Hvs. congruence.
Qed.

Lemma free_memory_frees_witness :
  exists s', free_memory 10 [] None gc_state = Some s' /\
    render_cache s' = ∅ /\ live_renders s' = [] /\ ~ live s' 1.
Proof.
  destruct (free_memory_frees 10 [] None gc_state)
    as (s' & Hf & _ & Hrc & _ & _ & _ & Hall).
  - exact gc_state_unmarked.
  - apply (bool_decide_unpack _). vm_compute. reflexivity.
  - exact gc_state_parents_inverse.
  - vm_compute. lia.
  - destruct (Hall eq_refl eq_refl) as [Hl Hd].
    exists s'. split; [exact Hf |]. split; [exact Hrc |]. split; [exact Hl |].
    apply Hd. apply (bool_decide_unpack _). vm_compute. reflexivity.
Defined.

(** ** render: failures, counters, and the second key *)

Lemma render_miss_failure_frame env d orig_wh wh changed w h st at_ s d' k e :
  out_result (render_miss env d orig_wh wh changed w h st at_ s) = inl e ->
  (forall w h st at_ t,
     cache_lookup d' k (fst (d_render d w h st at_ t)) = cache_lookup d' k t) ->
  (forall rv t,
     cache_lookup d' k (fst (subsurface_full env rv t)) = cache_lookup d' k t) ->
  cache_lookup d' k
    (out_state (render_miss env d orig_wh wh changed w h st at_ s))
  = cache_lookup d' k s.
Proof.
  intros Hres Hfcb Hfss. revert Hres. unfold render_miss.
  set (s1 := set_rendering (rendering s + 1) st at_ s).
  assert (Hl2 : cache_lookup d' k (fst (d_render d w h st at_ s1))
                = cache_lookup d' k s).
  { rewrite Hfcb. reflexivity. }
  destruct (d_render d w h st at_ s1) as [s2 [e' | [rv0 | |]]]; simpl in Hl2;
    try (intros _; exact Hl2).
  destruct (clipping d).
  - set (s4 := upd rv0 _ _).
    assert (Hl5 : cache_lookup d' k (fst (subsurface_full env rv0 s4))
                  = cache_lookup d' k s).
    { rewrite Hfss. exact Hl2. }
    destruct (subsurface_full env rv0 s4) as [s5 [e' | rv']]; simpl in Hl5.
    + intros _. exact Hl5.
    + simpl. discriminate.
  - simpl. discriminate.
Qed.

(** X13: a render that raises stores nothing.  When render returns an
    exception (the refusal during the init phase, an exception of the
    displayable's render method or of the crop, or the complaint that the
    method returned something that is not a Render), every cache lookup
    that the method and the crop leave alone gives afterwards what it
    gave before, whether the sizing flag is set or not. *)
Theorem render_failure_stores_nothing (env : Env) (d : Displayable)
    (w h st at_ : Z) (s : State) (d' : nat) (k : cache_key) (e : exn) :
  out_result (render env d w h st at_ s) = inl e ->
  (forall w h st at_ t,
     cache_lookup d' k (fst (d_render d w h st at_ t)) = cache_lookup d' k t) ->
  (forall rv t,
     cache_lookup d' k (fst (subsurface_full env rv t)) = cache_lookup d' k t) ->
  cache_lookup d' k (out_state (render env d w h st at_ s)) = cache_lookup d' k s.
Proof.
  intros Hres Hfcb Hfss.
  destruct (negb (render_is_ready s) && config_developer env) eqn:Hm.
  { destruct (render_refused env d w h st at_ s) as [e' ->];
      [unfold may_render; congruence | reflexivity]. }
  change (may_render env s) in Hm.
  revert Hres. rewrite (render_cases _ _ _ _ _ _ _ Hm). simpl.
  set (s0 := cache_touch (d_id d) (set_render_size w h s)).
  assert (H0 : cache_lookup d' k s0 = cache_lookup d' k s).
  { subst s0. rewrite cache_lookup_touch. reflexivity. }
  destruct (cache_lookup (d_id d) (request_key s w h st at_) s);
    [discriminate |].
  destruct (cache_lookup (d_id d) (clamped_key env d s w h st at_) s);
    [discriminate |].
  intros Hres. rewrite (render_miss_failure_frame _ _ _ _ _ _ _ _ _ _ _ _ e);
    auto.
Qed.

Lemma render_failure_stores_nothing_witness :
  out_result (render example_env faulty_displayable 10 10 0 0 initial_state)
    = inl (ContractViolation "faulty.render() must return a Render.") /\
  cache_lookup 4 (10, 10, 0, 0)%Z
    (out_state (render example_env faulty_displayable 10 10 0 0 initial_state))
  = None.
Proof.
  split; [reflexivity |].
  rewrite (render_failure_stores_nothing example_env faulty_displayable
             10 10 0 0 initial_state 4 (10, 10, 0, 0)%Z
             (ContractViolation "faulty.render() must return a Render.")).
  - reflexivity.
  - reflexivity.
  - intros w h st at_ t. reflexivity.
  - intros rv t. simpl. unfold depends_on. case_decide; reflexivity.
Defined.

Lemma render_miss_counters env d orig_wh wh changed w h st at_ s :
  (forall w h st at_ t, rendering (fst (d_render d w h st at_ t)) = rendering t) ->
  (forall rv t,
     rendering (fst (subsurface_full env rv t)) = rendering t /\
     render_st (fst (subsurface_full env rv t)) = render_st t /\
     render_at (fst (subsurface_full env rv t)) = render_at t) ->
  rendering (out_state (render_miss env d orig_wh wh changed w h st at_ s))
    = rendering s /\
  render_st (out_state (render_miss env d orig_wh wh changed w h st at_ s))
    = render_st s /\
  render_at (out_state (render_miss env d orig_wh wh changed w h st at_ s))
    = render_at s.
Proof.
  intros Hcb Hss. unfold render_miss.
  set (s1 := set_rendering (rendering s + 1) st at_ s).
  pose proof (Hcb w h st at_ s1) as H2.
  destruct (d_render d w h st at_ s1) as [s2 [e | [rv0 | |]]]; simpl in H2;
    try (simpl; rewrite H2; repeat split; lia).
  assert (Hstore : forall rv1 s6,
    rendering s6 = rendering s /\ render_st s6 = render_st s /\
    render_at s6 = render_at s ->
    let s7 := upd rv1 (fun r => set_debug (style_debug d || debug r) r) s6 in
    let s8 := if sizing s7 then s7
              else let s' := cache_store (d_id d) wh rv1 s7 in
                   if changed then cache_store (d_id d) orig_wh rv1 s' else s' in
    rendering s8 = rendering s /\ render_st s8 = render_st s /\
    render_at s8 = render_at s).
  { intros rv1 s6 H6. simpl. destruct (sizing s6); [exact H6 |].
    assert (Hcs : forall id k v t,
      rendering (cache_store id k v t) = rendering t /\
      render_st (cache_store id k v t) = render_st t /\
      render_at (cache_store id k v t) = render_at t).
    { intros id k v t. unfold cache_store, cache_touch.
      destruct (render_cache t !! id); repeat split. }
    destruct changed.
    - destruct (Hcs (d_id d) orig_wh rv1
                  (cache_store (d_id d) wh rv1
                     (upd rv1 (fun r => set_debug (style_debug d || debug r) r) s6)))
        as (-> & -> & ->).
      destruct (Hcs (d_id d) wh rv1
                  (upd rv1 (fun r => set_debug (style_debug d || debug r) r) s6))
        as (-> & -> & ->).
      exact H6.
    - destruct (Hcs (d_id d) wh rv1
                  (upd rv1 (fun r => set_debug (style_debug d || debug r) r) s6))
        as (-> & -> & ->).
      exact H6. }
  destruct (clipping d).
  - match goal with
    | |- context [subsurface_full env rv0 ?x] =>
        pose proof (Hss rv0 x) as (H5 & H5s & H5a);
        destruct (subsurface_full env rv0 x) as [s5 [e | rv']]
    end; simpl in H5, H5s, H5a.
    + simpl. rewrite H5, H5s, H5a, H2. repeat split; lia.
    + apply Hstore. simpl. rewrite H5, H5s, H5a, H2. repeat split; lia.
  - apply Hstore. simpl. rewrite H2. repeat split; lia.
Qed.

(** X14: render restores its counters whatever the outcome.  When the
    displayable's render method leaves the rendering count as it finds
    it (as render itself does) and the crop leaves the count and the two
    times alone, then after render, whether it returned from the cache,
    rendered, or raised, the rendering count, render_st and render_at are
    what they were before the call. *)
Theorem render_restores_counters (env : Env) (d : Displayable)
    (w h st at_ : Z) (s : State) :
  (forall w h st at_ t, rendering (fst (d_render d w h st at_ t)) = rendering t) ->
  (forall rv t,
     rendering (fst (subsurface_full env rv t)) = rendering t /\
     render_st (fst (subsurface_full env rv t)) = render_st t /\
     render_at (fst (subsurface_full env rv t)) = render_at t) ->
  rendering (out_state (render env d w h st at_ s)) = rendering s /\
  render_st (out_state (render env d w h st at_ s)) = render_st s /\
  render_at (out_state (render env d w h st at_ s)) = render_at s.
Proof.
  intros Hcb Hss.
  destruct (negb (render_is_ready s) && config_developer env) eqn:Hm.
  { destruct (render_refused env d w h st at_ s) as [e' ->];
      [unfold may_render; congruence | repeat split]. }
  change (may_render env s) in Hm.
  rewrite (render_cases _ _ _ _ _ _ _ Hm). simpl.
  set (s0 := cache_touch (d_id d) (set_render_size w h s)).
  assert (H0 : rendering s0 = rendering s /\ render_st s0 = render_st s /\
               render_at s0 = render_at s).
  { subst s0. unfold cache_touch. simpl.
    destruct (render_cache s !! d_id d); repeat split. }
  destruct H0 as (H0r & H0s & H0a).
  destruct (cache_lookup (d_id d) (request_key s w h st at_) s);
    [by repeat split |].
  destruct (cache_lookup (d_id d) (clamped_key env d s w h st at_) s);
    [by repeat split |].
  rewrite <- H0r, <- H0s, <- H0a. by apply render_miss_counters.
Qed.

Lemma render_restores_counters_witness :
  rendering (out_state (render example_env plain_displayable 10 10 0 0
                          initial_state)) = 0%Z.
Proof.
  destruct (render_restores_counters example_env plain_displayable 10 10 0 0
              initial_state) as (H & _).
  - intros w h st at_ t. reflexivity.
  - intros rv t. simpl. unfold depends_on. case_decide; repeat split.
  - exact H.
Defined.

(** X15: a render that invoked the callback stores the node under both
    keys.  With the sizing flag unset and a well-behaved displayable, when
    render returns a node after invoking the render method, the node is
    cached under the key of the size asked for and under the key of the
    size the method was invoked with (the clamped size as the C floats
    hold it, when that differs from the size asked for); so the same
    request again, and a request at the size the method was invoked
    with, both return that node without invoking the method. *)
Theorem render_stores_both_keys (env : Env) (d : Displayable)
    (w h st at_ : Z) (s : State) (rv : nat) :
  well_behaved env d -> sizing s = false ->
  out_result (render env d w h st at_ s) = inr rv ->
  out_calls (render env d w h st at_ s) ≠ [] ->
  out_calls (render env d w h st at_ s)
  = [mkCall (d_id d) (fst (render_size env d w h))
       (snd (render_size env d w h)) st at_] /\
  cache_lookup (d_id d) (request_key s w h st at_)
    (out_state (render env d w h st at_ s)) = Some rv /\
  cache_lookup (d_id d)
    (request_key s (fst (render_size env d w h)) (snd (render_size env d w h))
       st at_)
    (out_state (render env d w h st at_ s)) = Some rv /\
  (out_result (render env d w h st at_ (out_state (render env d w h st at_ s)))
     = inr rv /\
   out_calls (render env d w h st at_ (out_state (render env d w h st at_ s)))
     = []) /\
  (out_result (render env d (fst (render_size env d w h))
                 (snd (render_size env d w h)) st at_
                 (out_state (render env d w h st at_ s))) = inr rv /\
   out_calls (render env d (fst (render_size env d w h))
                (snd (render_size env d w h)) st at_
                (out_state (render env d w h st at_ s))) = []).
Proof.
  intros Hwb Hsz Hres Hcalls.
  assert (Hm : may_render env s).
  { destruct (negb (render_is_ready s) && config_developer env) eqn:Hm;
      [| exact Hm].
    destruct (render_refused env d w h st at_ s) as [e He];
      [unfold may_render; congruence |].
    rewrite He in Hres. discriminate. }
  pose proof (render_globals env d w h st at_ s Hwb) as Hg.
  pose proof (may_render_globals env _ _ Hg Hm) as Hm'.
  assert (Hkeys :
    out_calls (render env d w h st at_ s)
    = [mkCall (d_id d) (fst (render_size env d w h))
         (snd (render_size env d w h)) st at_] /\
    cache_lookup (d_id d) (request_key s w h st at_)
      (out_state (render env d w h st at_ s)) = Some rv /\
    cache_lookup (d_id d) (clamped_key env d s w h st at_)
      (out_state (render env d w h st at_ s)) = Some rv).
  { revert Hres Hcalls. rewrite (render_cases _ _ _ _ _ _ _ Hm). simpl.
    set (s0 := cache_touch (d_id d) (set_render_size w h s)).
    assert (Hsz0 : sizing s0 = false)
      by (subst s0; rewrite sizing_touch; exact Hsz).
    destruct (cache_lookup (d_id d) (request_key s w h st at_) s);
      [intros _ Hc; by destruct Hc |].
    destruct (cache_lookup (d_id d) (clamped_key env d s w h st at_) s);
      [intros _ Hc; by destruct Hc |].
    intros Hres _. split; [apply render_miss_calls |].
    destruct (render_miss_stored _ _ _ _ _ _ _ _ _ _ _ Hwb Hsz0 Hres)
      as [Hwh Horig].
    split; [| exact Hwh].
    destruct (decide (size_changed env d w h)) as [Hch | Hch].
    - apply Horig. by apply bool_decide_eq_true_2.
    - rewrite <- (clamped_key_unchanged env d s w h st at_ Hch) at 1.
      exact Hwh. }
  destruct Hkeys as (Hc & Horig & Hwh).
  split; [exact Hc |]. split; [exact Horig |]. split; [exact Hwh |]. split.
  - rewrite (render_hit env d w h st at_ _ rv Hm').
    + by split.
    + left. rewrite (request_key_globals _ _ _ _ _ _ Hg). exact Horig.
  - rewrite (render_hit env d _ _ st at_ _ rv Hm').
    + by split.
    + left. rewrite (request_key_globals _ _ _ _ _ _ Hg). exact Hwh.
Qed.

Lemma render_stores_both_keys_witness :
  cache_lookup 2 (200, 80, 0, 0)%Z
    (out_state (render example_env capped_displayable 200 80 0 0 initial_state))
    = Some 0 /\
  cache_lookup 2 (100, 80, 0, 0)%Z
    (out_state (render example_env capped_displayable 200 80 0 0 initial_state))
    = Some 0.
Proof.
  destruct (render_stores_both_keys example_env capped_displayable 200 80 0 0
              initial_state 0) as (_ & H1 & H2 & _).
  - exact (proj1 (proj2 well_behaved_plain)).
  - reflexivity.
  - vm_compute. reflexivity.
  - vm_compute. discriminate.
  - split; [exact H1 | exact H2].
Defined.

(** ** Redraw scheduling *)

Lemma heap_cache_touch id_d s : heap (cache_touch id_d s) = heap s.
Proof. unfold cache_touch. by destruct (render_cache s !! id_d). Qed.

Lemma kill_cache_rel_touch id_d s : kill_cache_rel s (cache_touch id_d s).
Proof.
  split; [intros m; by rewrite heap_cache_touch |].
  split; [intros m r r' Hr Hr'; rewrite heap_cache_touch in Hr'; congruence |].
  split; [intros d k v; by rewrite cache_of_touch |].
  intros m r r' Hr Hr'. rewrite heap_cache_touch in Hr'. congruence.
Qed.

Lemma kill_cache_globals fuel self s s' :
  kill_cache fuel self s = Some s' -> same_globals s s'.
Proof.
  apply (flagged_rel cache_killed (set_cache_killed true) uncache kill_cache
           (fun _ _ => eq_refl) kill_cache_S same_globals).
  - apply same_globals_refl.
  - apply same_globals_trans.
  - intros n t r t2 _ _ H. exact H.
Qed.

Lemma kill_cached_spec fuel d s :
  size (heap s) < fuel ->
  exists s', kill_cached fuel d s = Some s' /\
    kill_cache_rel s s' /\ same_globals s s' /\
    dom (heap s') = dom (heap s) /\
    (cache_sound s -> cache_sound s' /\ cache_of d s' = []).
Proof.
  intros Hsize. unfold kill_cached.
  set (s0 := cache_touch d s). set (l := map snd (cache_of d s0)).
  assert (H0 : size (unflagged cache_killed s0) < fuel).
  { pose proof (size_unflagged cache_killed s0) as Hle.
    subst s0. rewrite heap_cache_touch in Hle. lia. }
  destruct (for_each_total cache_killed (set_cache_killed true) uncache
              kill_cache (fun _ => eq_refl) (fun _ _ => eq_refl)
              (fun _ _ => eq_refl) (fun _ _ => eq_refl) kill_cache_S
              (kill_cache fuel) fuel) with (l := l) (s := s0)
    as (s' & Hfe & _ & Hdom); [| exact H0 |].
  { intros n t Ht.
    destruct (flagged_total cache_killed (set_cache_killed true) uncache
                kill_cache (fun _ => eq_refl) (fun _ _ => eq_refl)
                (fun _ _ => eq_refl) (fun _ _ => eq_refl) kill_cache_S
                fuel n t Ht) as (t' & H1 & H2 & H3 & _).
    eauto. }
  exists s'. split; [exact Hfe |].
  assert (Hrel : kill_cache_rel s s').
  { apply (kill_cache_rel_trans _ s0); [apply kill_cache_rel_touch |].
    apply (for_each_rel kill_cache_rel (kill_cache fuel)) with (l := l);
      [apply kill_cache_rel_refl | apply kill_cache_rel_trans | | exact Hfe].
    intros n t t'. apply kill_cache_effect. }
  split; [exact Hrel |]. split; [| split].
  - apply (same_globals_trans _ s0); [apply same_globals_touch |].
    apply (for_each_rel same_globals (kill_cache fuel)) with (l := l);
      [apply same_globals_refl | apply same_globals_trans | | exact Hfe].
    intros n t t'. apply kill_cache_globals.
  - rewrite Hdom. subst s0. by rewrite heap_cache_touch.
  - intros Hcs.
    pose proof (cache_sound_kill_cache_rel s s' Hcs Hrel) as Hcs'.
    split; [exact Hcs' |].
    destruct (cache_of d s') as [|[k v] rest] eqn:Hc; [reflexivity |].
    exfalso.
    assert (Hin' : (k, v) ∈ cache_of d s') by (rewrite Hc; by left).
    destruct (Hcs' d k v Hin') as (r & Hr & Hck & _).
    destruct (for_each_flags cache_killed (set_cache_killed true) uncache
                kill_cache (fun _ => eq_refl) (fun _ _ => eq_refl)
                (fun _ _ => eq_refl) (fun _ _ => eq_refl) kill_cache_S
                fuel l s0 s' Hfe) as [_ Hall].
    apply (Hall v).
    + subst l. apply list_elem_of_fmap. exists (k, v). split; [reflexivity |].
      subst s0. rewrite cache_of_touch.
      destruct Hrel as (_ & _ & Hs & _). by apply Hs.
    + apply elem_of_unflagged. eauto.
Qed.

Lemma cache_of_nil_rel s s' d :
  kill_cache_rel s s' -> cache_of d s = [] -> cache_of d s' = [].
Proof.
  intros (_ & _ & Hs & _) Hnil.
  destruct (cache_of d s') as [|[k v] rest] eqn:Hc; [reflexivity |].
  assert (Hin : (k, v) ∈ cache_of d s') by (rewrite Hc; by left).
  apply Hs in Hin. rewrite Hnil in Hin. by apply elem_of_nil in Hin.
Qed.

Lemma cache_of_not_cached s d : cached s d = false -> cache_of d s = [].
Proof.
  unfold cached, cache_of. intros H. apply bool_decide_eq_false in H.
  destruct (render_cache s !! d) as [c|]; [| reflexivity].
  exfalso. apply H. eauto.
Qed.

(** The sort. *)

Lemma insert_by_time_perm t l : insert_by_time t l ≡ₚ t :: l.
Proof.
  induction l as [|u l IH]; simpl; [reflexivity |].
  destruct (fst t <=? fst u)%Z; [reflexivity |].
  rewrite IH. apply Permutation_swap.
Qed.

Lemma sort_by_time_perm l : sort_by_time l ≡ₚ l.
Proof.
  induction l as [|t l IH]; simpl; [reflexivity |].
  rewrite insert_by_time_perm. by rewrite IH.
Qed.

Lemma sorted_insert_by_time t l :
  sorted_by_time l -> sorted_by_time (insert_by_time t l).
Proof.
  induction l as [|u l IH]; simpl; [auto |].
  intros [Hu Hl]. destruct (fst t <=? fst u)%Z eqn:Hle.
  - apply Z.leb_le in Hle. simpl. split; [| by split].
    apply Forall_cons. split; [exact Hle |].
    eapply Forall_impl; [exact Hu |]. simpl. intros x Hx. lia.
  - apply Z.leb_gt in Hle. simpl. split; [| by apply IH].
    rewrite insert_by_time_perm. apply Forall_cons. split; [lia | exact Hu].
Qed.

Lemma sorted_sort_by_time l : sorted_by_time (sort_by_time l).
Proof.
  induction l as [|t l IH]; simpl; [exact I |]. by apply sorted_insert_by_time.
Qed.

Lemma filter_insert_by_time (k : Z) t l :
  filter (fun u => fst u = k) (insert_by_time t l)
  = filter (fun u => fst u = k) (t :: l).
Proof.
  induction l as [|u l IH]; simpl; [reflexivity |].
  destruct (fst t <=? fst u)%Z eqn:Hle; [reflexivity |].
  apply Z.leb_gt in Hle. rewrite filter_cons, IH, !filter_cons.
  destruct (decide (fst u = k)) as [Hu | Hu];
    destruct (decide (fst t = k)) as [Ht | Ht]; try reflexivity.
  lia.
Qed.

(** The sort is stable: the entries of one time keep their order. *)
Lemma sort_by_time_stable (k : Z) l :
  filter (fun u => fst u = k) (sort_by_time l) = filter (fun u => fst u = k) l.
Proof.
  induction l as [|t l IH]; simpl; [reflexivity |].
  by rewrite filter_insert_by_time, !filter_cons, IH.
Qed.

Lemma sorted_by_time_sublist l1 l2 :
  l1 `sublist_of` l2 -> sorted_by_time l2 -> sorted_by_time l1.
Proof.
  intros Hsub. induction Hsub as [| x l1 l2 Hsub IH | x l1 l2 Hsub IH]; simpl.
  - auto.
  - intros [Hx Hl]. split; [| by apply IH].
    rewrite Forall_forall in Hx. apply Forall_forall. intros y Hy. apply Hx.
    apply (elem_of_submseteq l1 l2 y Hy). by apply sublist_submseteq.
  - intros [_ Hl]. by apply IH.
Qed.

(** The loop of process_redraws. *)

Lemma process_loop_total fuel now q : forall s seen new rv,
  size (heap s) < fuel ->
  exists s' new' rv',
    process_loop fuel now q s seen new rv = Some (s', new', rv') /\
    kill_cache_rel s s' /\ same_globals s s' /\
    dom (heap s') = dom (heap s) /\
    (rv = true -> rv' = true) /\ (cache_sound s -> cache_sound s').
Proof.
  induction q as [|t q IH]; intros s seen new rv Hsize; simpl.
  - exists s, new, rv. split; [reflexivity |].
    split; [apply kill_cache_rel_refl |]. split; [apply same_globals_refl |].
    by repeat split.
  - destruct (decide (snd t ∈ seen)); [by apply IH |].
    destruct (cached s (snd t)); [| by apply IH].
    destruct (fst t <=? now)%Z; [| by apply IH].
    destruct (kill_cached_spec fuel (snd t) s Hsize)
      as (s1 & Hk & Hrel & Hg & Hdom & Hcs).
    rewrite Hk.
    destruct (IH s1 ({[snd t]} ∪ seen) new true)
      as (s' & new' & rv' & Hp & Hrel' & Hg' & Hdom' & Hrv & Hcs').
    { by rewrite <- size_dom, Hdom, size_dom. }
    exists s', new', rv'. split; [exact Hp |].
    split; [by apply (kill_cache_rel_trans _ s1) |].
    split; [by apply (same_globals_trans _ s1) |].
    split; [congruence |]. split.
    + intros _. by apply Hrv.
    + intros H. apply Hcs'. by apply Hcs.
Qed.

Lemma process_loop_rv fuel now q : forall s seen new,
  sorted_by_time q ->
  (forall t, t ∈ q -> snd t ∈ seen -> due now s t = false) ->
  size (heap s) < fuel ->
  exists s' new' rv',
    process_loop fuel now q s seen new false = Some (s', new', rv') /\
    rv' = existsb (due now s) q /\ (rv' = false -> s' = s).
Proof.
  induction q as [|t q IH]; intros s seen new Hsorted Hseen Hsize.
  - exists s, new, false. by repeat split.
  - destruct Hsorted as [Ht Hsorted]. rewrite Forall_forall in Ht.
    change (existsb (due now s) (t :: q))
      with (due now s t || existsb (due now s) q).
    cbn [process_loop].
    destruct (decide (snd t ∈ seen)) as [Hin | Hni].
    + rewrite (Hseen t) by (by left || exact Hin). simpl.
      apply IH; [exact Hsorted | | exact Hsize].
      intros t' Ht'. apply Hseen. by right.
    + unfold due at 1. destruct (cached s (snd t)) eqn:Hc.
      * destruct (fst t <=? now)%Z eqn:Hle.
        -- destruct (kill_cached_spec fuel (snd t) s Hsize)
             as (s1 & Hk & _ & _ & Hdom & _).
           rewrite Hk.
           destruct (process_loop_total fuel now q s1 ({[snd t]} ∪ seen) new true)
             as (s' & new' & rv' & Hp & _ & _ & _ & Hrv & _).
           { by rewrite <- size_dom, Hdom, size_dom. }
           exists s', new', rv'. split; [exact Hp |].
           rewrite (Hrv eq_refl). by split.
        -- apply Z.leb_gt in Hle. simpl.
           apply IH; [exact Hsorted | | exact Hsize].
           intros t' Ht' Hs'. apply elem_of_union in Hs' as [Hd | Hs'].
           ++ unfold due. specialize (Ht t' Ht').
              assert (Hgt : (fst t' <=? now)%Z = false) by (apply Z.leb_gt; lia).
              rewrite Hgt. apply andb_false_r.
           ++ apply Hseen; [by right | exact Hs'].
      * simpl. apply IH; [exact Hsorted | | exact Hsize].
        intros t' Ht' Hs'. apply elem_of_union in Hs' as [Hd | Hs'].
        -- apply elem_of_singleton in Hd. unfold due. by rewrite Hd, Hc.
        -- apply Hseen; [by right | exact Hs'].
Qed.

Lemma process_loop_queue fuel now q : forall s seen new rv s' new' rv',
  process_loop fuel now q s seen new rv = Some (s', new', rv') ->
  exists added, new' = new ++ added /\ added `sublist_of` q /\
    (forall t, t ∈ added -> (now < fst t)%Z /\ (snd t ∉ seen)) /\
    NoDup (map snd added).
Proof.
  induction q as [|t q IH]; intros s seen new rv s' new' rv' Hp;
    cbn [process_loop] in Hp.
  - injection Hp as <- <- <-. exists []. rewrite app_nil_r.
    split; [reflexivity |]. split; [reflexivity |].
    split; [| apply NoDup_nil_2]. intros t Ht. by apply elem_of_nil in Ht.
  - destruct (decide (snd t ∈ seen)) as [Hin | Hni].
    { destruct (IH _ _ _ _ _ _ _ Hp) as (added & -> & Hsub & Hall & Hnd).
      exists added. split; [reflexivity |]. split; [by apply sublist_cons |].
      by split. }
    assert (Hrest : forall s1 new1 rv1,
      process_loop fuel now q s1 ({[snd t]} ∪ seen) new1 rv1 = Some (s', new', rv') ->
      exists added, new' = new1 ++ added /\ added `sublist_of` q /\
        (forall u, u ∈ added ->
           (now < fst u)%Z /\ (snd u ∉ seen) /\ snd u ≠ snd t) /\
        NoDup (map snd added)).
    { intros s1 new1 rv1 H1.
      destruct (IH _ _ _ _ _ _ _ H1) as (added & -> & Hsub & Hall & Hnd).
      exists added. split; [reflexivity |]. split; [exact Hsub |].
      split; [| exact Hnd].
      intros u Hu. destruct (Hall u Hu) as [Hlt Hns]. split; [exact Hlt |].
      split; set_solver. }
    destruct (cached s (snd t)).
    + destruct (fst t <=? now)%Z eqn:Hle.
      * destruct (kill_cached fuel (snd t) s) as [s1|]; [| discriminate].
        destruct (Hrest _ _ _ Hp) as (added & -> & Hsub & Hall & Hnd).
        exists added. split; [reflexivity |]. split; [by apply sublist_cons |].
        split; [| exact Hnd]. intros u Hu. destruct (Hall u Hu) as (? & ? & ?).
        by split.
      * apply Z.leb_gt in Hle.
        destruct (Hrest _ _ _ Hp) as (added & -> & Hsub & Hall & Hnd).
        exists (t :: added). split; [by rewrite <- app_assoc |].
        split; [by apply sublist_skip |]. split.
        -- intros u Hu. apply elem_of_cons in Hu as [-> | Hu]; [by split |].
           destruct (Hall u Hu) as (? & ? & ?). by split.
        -- simpl. apply NoDup_cons. split; [| exact Hnd].
           intros Hin. apply list_elem_of_fmap in Hin as (u & Heq & Hu).
           destruct (Hall u Hu) as (_ & _ & Hne). congruence.
    + destruct (Hrest _ _ _ Hp) as (added & -> & Hsub & Hall & Hnd).
      exists added. split; [reflexivity |]. split; [by apply sublist_cons |].
      split; [| exact Hnd]. intros u Hu. destruct (Hall u Hu) as (? & ? & ?).
      by split.
Qed.

Lemma process_loop_evicts fuel now q : forall s seen new rv,
  sorted_by_time q -> cache_sound s -> size (heap s) < fuel ->
  (forall t, t ∈ q -> snd t ∈ seen -> (fst t <= now)%Z ->
             cache_of (snd t) s = []) ->
  exists s' new' rv',
    process_loop fuel now q s seen new rv = Some (s', new', rv') /\
    kill_cache_rel s s' /\ cache_sound s' /\
    forall t, t ∈ q -> (fst t <= now)%Z -> cache_of (snd t) s' = [].
Proof.
  induction q as [|t q IH]; intros s seen new rv Hsorted Hcs Hsize Hseen.
  - exists s, new, rv. split; [reflexivity |].
    split; [apply kill_cache_rel_refl |]. split; [exact Hcs |].
    intros t Ht. by apply elem_of_nil in Ht.
  - destruct Hsorted as [Ht Hsorted]. rewrite Forall_forall in Ht.
    cbn [process_loop].
    assert (Hfin : forall s1 seen1 new1 rv1,
      kill_cache_rel s s1 -> cache_sound s1 -> size (heap s1) < fuel ->
      ((fst t <= now)%Z -> cache_of (snd t) s1 = []) ->
      (forall u, u ∈ q -> snd u ∈ seen1 -> (fst u <= now)%Z ->
                 cache_of (snd u) s1 = []) ->
      exists s' new' rv',
        process_loop fuel now q s1 seen1 new1 rv1 = Some (s', new', rv') /\
        kill_cache_rel s s' /\ cache_sound s' /\
        forall u, u ∈ t :: q -> (fst u <= now)%Z -> cache_of (snd u) s' = []).
    { intros s1 seen1 new1 rv1 Hrel1 Hcs1 Hsize1 Hhead Hseen1.
      destruct (IH s1 seen1 new1 rv1 Hsorted Hcs1 Hsize1 Hseen1)
        as (s' & new' & rv' & Hp & Hrel' & Hcs' & Hall).
      exists s', new', rv'. split; [exact Hp |].
      split; [by apply (kill_cache_rel_trans _ s1) |]. split; [exact Hcs' |].
      intros u Hu Hdue. apply elem_of_cons in Hu as [-> | Hu]; [| by apply Hall].
      apply (cache_of_nil_rel s1 s' _ Hrel'). by apply Hhead. }
    destruct (decide (snd t ∈ seen)) as [Hin | Hni].
    { apply Hfin; [apply kill_cache_rel_refl | exact Hcs | exact Hsize | |].
      - intros Hdue. apply Hseen; [by left | exact Hin | exact Hdue].
      - intros u Hu. apply Hseen. by right. }
    destruct (cached s (snd t)) eqn:Hc.
    + destruct (fst t <=? now)%Z eqn:Hle.
      * destruct (kill_cached_spec fuel (snd t) s Hsize)
          as (s1 & Hk & Hrel & _ & Hdom & Hsound).
        destruct (Hsound Hcs) as [Hcs1 Hnil]. rewrite Hk.
        apply Hfin; [exact Hrel | exact Hcs1 | | by intros _ |].
        -- by rewrite <- size_dom, Hdom, size_dom.
        -- intros u Hu Hs Hdue. apply elem_of_union in Hs as [Hd | Hs].
           ++ apply elem_of_singleton in Hd. by rewrite Hd.
           ++ apply (cache_of_nil_rel s s1 _ Hrel).
              apply Hseen; [by right | exact Hs | exact Hdue].
      * apply Z.leb_gt in Hle.
        apply Hfin; [apply kill_cache_rel_refl | exact Hcs | exact Hsize | |].
        -- intros Hdue. lia.
        -- intros u Hu Hs Hdue. apply elem_of_union in Hs as [Hd | Hs].
           ++ specialize (Ht u Hu). lia.
           ++ apply Hseen; [by right | exact Hs | exact Hdue].
    + apply Hfin; [apply kill_cache_rel_refl | exact Hcs | exact Hsize | |].
      * intros _. by apply cache_of_not_cached.
      * intros u Hu Hs Hdue. apply elem_of_union in Hs as [Hd | Hs].
        -- apply elem_of_singleton in Hd. rewrite Hd.
           by apply cache_of_not_cached.
        -- apply Hseen; [by right | exact Hs | exact Hdue].
Qed.

(** The equation of redraw in the source, with its call of invalidate. *)
Lemma redraw_invalidate fuel interface d when sc :
  redraw fuel interface d when sc =
  match interface with
  | None => Some sc
  | Some interface_frame_time =>
      if per_frame sc then invalidate fuel interface d sc
      else Some (set_redraw_queue
                   (redraw_queue sc ++ [((when + interface_frame_time)%Z, d)]) sc)
  end.
Proof.
  unfold redraw, invalidate. destruct interface as [ft|]; [| reflexivity].
  destruct (per_frame sc); [| reflexivity].
  by rewrite andb_false_r.
Qed.

(** X16: the two regimes of invalidate.  Outside a render, a per-frame
    update and a sizing pass it only schedules: the state and the cache
    are untouched, the queue gains one entry for the displayable at the
    frame time of the interface, and without an interface nothing
    happens.  Otherwise, from a sound cache and with more fuel than the
    heap has nodes, it empties the cache of the displayable, keeps the
    cache sound and the queue as it was, and the next render of that
    displayable, at any size and times, when rendering is allowed (the
    init phase is over or config.developer is unset), invokes its render
    method once, with the size render settles on. *)
Theorem invalidate_regimes (fuel : nat) (interface : option Z) (d : nat)
    (sc : Sched) :
  size (heap (sched_state sc)) < fuel -> cache_sound (sched_state sc) ->
  (rendering (sched_state sc) = 0%Z -> per_frame sc = false ->
   sizing (sched_state sc) = false ->
   invalidate fuel interface d sc
   = Some (match interface with
           | None => sc
           | Some interface_frame_time =>
               set_redraw_queue
                 (redraw_queue sc ++ [(interface_frame_time, d)]) sc
           end)) /\
  (rendering (sched_state sc) ≠ 0%Z \/ per_frame sc = true \/
   sizing (sched_state sc) = true ->
   exists s', invalidate fuel interface d sc = Some (set_sched_state s' sc) /\
     cache_sound s' /\ cache_of d s' = [] /\
     forall env D w h st at_, d_id D = d -> may_render env (sched_state sc) ->
       out_calls (render env D w h st at_ s')
       = [mkCall d (fst (render_size env D w h)) (snd (render_size env D w h))
            st at_]).
Proof.
  intros Hsize Hcs. split.
  - intros Hr Hp Hs. unfold invalidate. rewrite Hr, Hp, Hs.
    rewrite bool_decide_eq_true_2 by reflexivity. simpl.
    unfold redraw. rewrite Hp. by destruct interface.
  - intros Hbusy. unfold invalidate.
    assert (Htest : bool_decide (rendering (sched_state sc) = 0%Z)
                    && negb (per_frame sc) && negb (sizing (sched_state sc))
                    = false).
    { destruct Hbusy as [Hr | [Hp | Hs]].
      - by rewrite bool_decide_eq_false_2.
      - rewrite Hp. simpl. by rewrite andb_false_r.
      - rewrite Hs. simpl. by rewrite andb_false_r. }
    rewrite Htest.
    destruct (kill_cached_spec fuel d (sched_state sc) Hsize)
      as (s' & Hk & _ & Hg & _ & Hsound).
    destruct (Hsound Hcs) as [Hcs' Hnil]. rewrite Hk.
    exists s'. split; [reflexivity |]. split; [exact Hcs' |].
    split; [exact Hnil |].
    intros env D w h st at_ HD Hm.
    pose proof (may_render_globals env _ _ Hg Hm) as Hm'.
    rewrite (render_calls env D w h st at_ s' Hm'). subst d.
    unfold cache_lookup. rewrite Hnil. reflexivity.
Qed.

(** X17: process_redraws returns what check_redraws returns.  With more
    fuel than the heap has nodes, process_redraws returns, and its result
    is the result check_redraws gives on the same queue, cache and time;
    when that is False, it has left the state as it was. *)
Theorem process_redraws_agrees_with_check (fuel : nat) (now : Z) (sc : Sched) :
  size (heap (sched_state sc)) < fuel ->
  exists rv sc', process_redraws fuel now sc = Some (rv, sc') /\
    rv = fst (check_redraws now sc) /\
    per_frame sc' = per_frame sc /\
    (rv = false -> sched_state sc' = sched_state sc).
Proof.
  intros Hsize. unfold process_redraws, check_redraws.
  destruct (process_loop_rv fuel now (sort_by_time (redraw_queue sc))
              (sched_state sc) ∅ [] (sorted_sort_by_time _))
    as (s' & new' & rv' & Hp & Hrv & Hsame); [| exact Hsize |].
  { intros t _ Hin. by apply elem_of_empty in Hin. }
  rewrite Hp. eexists _, _. split; [reflexivity |]. simpl.
  split; [exact Hrv |]. split; [reflexivity | exact Hsame].
Qed.

(** X18: the queue process_redraws leaves.  Its entries are entries of
    the old queue, each later than now; they are in the order of their
    times; no displayable has two of them; and redraw_time, when there is
    one, is the earliest of them. *)
Theorem process_redraws_queue (fuel : nat) (now : Z) (sc sc' : Sched)
    (rv : bool) :
  process_redraws fuel now sc = Some (rv, sc') ->
  sorted_by_time (redraw_queue sc') /\
  NoDup (map snd (redraw_queue sc')) /\
  (forall t, t ∈ redraw_queue sc' -> t ∈ redraw_queue sc /\ (now < fst t)%Z) /\
  (forall m, redraw_time sc' = Some m ->
     (now < m)%Z /\ forall t, t ∈ redraw_queue sc' -> (m <= fst t)%Z).
Proof.
  unfold process_redraws. intros Hp.
  destruct (process_loop fuel now (sort_by_time (redraw_queue sc))
              (sched_state sc) ∅ [] false) as [[[s' new'] rv']|] eqn:Hloop;
    [| discriminate].
  injection Hp as <- <-. simpl.
  destruct (process_loop_queue _ _ _ _ _ _ _ _ _ _ Hloop)
    as (added & -> & Hsub & Hall & Hnd). simpl.
  assert (Hsorted : sorted_by_time added).
  { apply (sorted_by_time_sublist _ _ Hsub), sorted_sort_by_time. }
  split; [exact Hsorted |]. split; [exact Hnd |]. split.
  - intros t Ht. split; [| by apply Hall].
    rewrite <- (sort_by_time_perm (redraw_queue sc)).
    apply (elem_of_submseteq added _ t Ht). by apply sublist_submseteq.
  - unfold redraw_time. simpl. destruct added as [|u rest]; [discriminate |].
    intros m [= <-]. split; [apply Hall; by left |].
    intros t Ht. apply elem_of_cons in Ht as [-> | Ht]; [lia |].
    destruct Hsorted as [Hu _]. rewrite Forall_forall in Hu. by apply Hu.
Qed.

(** X19: check_redraws sorts the queue in place and changes nothing
    else.  The queue it leaves is a permutation of the old one in the
    order of the times, entries of equal time in the order they had, so
    that redraw_time is then the earliest time of the queue; and the
    result is True exactly when some entry is due, at a time not after
    now and for a displayable that has a cache. *)
Theorem check_redraws_sorts (now : Z) (sc : Sched) :
  redraw_queue (snd (check_redraws now sc)) ≡ₚ redraw_queue sc /\
  sorted_by_time (redraw_queue (snd (check_redraws now sc))) /\
  (forall k, filter (fun u => fst u = k) (redraw_queue (snd (check_redraws now sc)))
             = filter (fun u => fst u = k) (redraw_queue sc)) /\
  sched_state (snd (check_redraws now sc)) = sched_state sc /\
  (fst (check_redraws now sc) = true <->
   exists t, t ∈ redraw_queue sc /\
             is_Some (render_cache (sched_state sc) !! snd t) /\
             (fst t <= now)%Z) /\
  (forall t, t ∈ redraw_queue sc ->
     exists m, redraw_time (snd (check_redraws now sc)) = Some m /\
               (m <= fst t)%Z).
Proof.
  unfold check_redraws. simpl.
  split; [apply sort_by_time_perm |]. split; [apply sorted_sort_by_time |].
  split; [intros k; apply sort_by_time_stable |]. split; [reflexivity |].
  split.
  - rewrite existsb_exists. split.
    + intros (t & Hin & Hdue). exists t.
      apply list_elem_of_In in Hin. rewrite sort_by_time_perm in Hin.
      unfold due in Hdue. apply andb_true_iff in Hdue as [Hc Hle].
      split; [exact Hin |]. split; [by apply bool_decide_eq_true in Hc |].
      by apply Z.leb_le.
    + intros (t & Hin & Hc & Hle). exists t. split.
      * apply list_elem_of_In. by rewrite sort_by_time_perm.
      * unfold due, cached. apply andb_true_iff.
        split; [by apply bool_decide_eq_true | by apply Z.leb_le].
  - intros t Ht. unfold redraw_time. simpl.
    pose proof (sorted_sort_by_time (redraw_queue sc)) as Hsorted.
    rewrite <- (sort_by_time_perm (redraw_queue sc)) in Ht.
    destruct (sort_by_time (redraw_queue sc)) as [|u rest].
    + by apply elem_of_nil in Ht.
    + exists (fst u). split; [reflexivity |].
      apply elem_of_cons in Ht as [-> | Ht]; [lia |].
      destruct Hsorted as [Hu _]. rewrite Forall_forall in Hu. by apply Hu.
Qed.

(** X20: process_redraws evicts what is due.  From a sound cache and
    with more fuel than the heap has nodes, process_redraws returns a
    state whose cache is sound and holds no render of any displayable
    that had an entry in the queue at a time not after now. *)
Theorem process_redraws_evicts (fuel : nat) (now : Z) (sc : Sched) :
  size (heap (sched_state sc)) < fuel -> cache_sound (sched_state sc) ->
  exists rv sc', process_redraws fuel now sc = Some (rv, sc') /\
    cache_sound (sched_state sc') /\
    forall t, t ∈ redraw_queue sc -> (fst t <= now)%Z ->
      cache_of (snd t) (sched_state sc') = [].
Proof.
  intros Hsize Hcs. unfold process_redraws.
  destruct (process_loop_evicts fuel now (sort_by_time (redraw_queue sc))
              (sched_state sc) ∅ [] false (sorted_sort_by_time _) Hcs Hsize)
    as (s' & new' & rv' & Hp & _ & Hcs' & Hall).
  { intros t _ Hin. by apply elem_of_empty in Hin. }
  rewrite Hp. eexists _, _. split; [reflexivity |]. simpl.
  split; [exact Hcs' |]. intros t Ht. apply Hall.
  by rewrite sort_by_time_perm.
Qed.

Lemma invalidate_regimes_witness :
  exists s', invalidate 10 (Some 7%Z) 10 (mkSched cycle_state [] true)
             = Some (set_sched_state s' (mkSched cycle_state [] true)) /\
    cache_of 10 s' = [].
Proof.
  destruct (invalidate_regimes 10 (Some 7%Z) 10 (mkSched cycle_state [] true))
    as [_ Hbusy].
  - vm_compute. lia.
  - exact cycle_state_cache_sound.
  - destruct Hbusy as (s' & Hi & _ & Hnil & _); [right; left; reflexivity |].
    exists s'. split; [exact Hi | exact Hnil].
Defined.

Lemma process_redraws_agrees_with_check_witness :
  exists rv sc', process_redraws 10 6 sched_example = Some (rv, sc') /\
    rv = fst (check_redraws 6 sched_example).
Proof.
  destruct (process_redraws_agrees_with_check 10 6 sched_example)
    as (rv & sc' & Hp & Hrv & _).
  - vm_compute. lia.
  - exists rv, sc'. split; [exact Hp | exact Hrv].
Defined.

Lemma process_redraws_queue_witness :
  exists rv sc', process_redraws 10 6 sched_example = Some (rv, sc') /\
    sorted_by_time (redraw_queue sc') /\ NoDup (map snd (redraw_queue sc')).
Proof.
  destruct (process_redraws 10 6 sched_example) as [[rv sc']|] eqn:Hp.
  - exists rv, sc'. split; [reflexivity |].
    destruct (process_redraws_queue _ _ _ _ _ Hp) as (H1 & H2 & _).
    split; [exact H1 | exact H2].
  - vm_compute in Hp. discriminate.
Defined.

Lemma process_redraws_evicts_witness :
  exists rv sc', process_redraws 10 6 sched_example = Some (rv, sc') /\
    cache_of 10 (sched_state sc') = [].
Proof.
  destruct (process_redraws_evicts 10 6 sched_example)
    as (rv & sc' & Hp & _ & Hall).
  - vm_compute. lia.
  - exact cycle_state_cache_sound.
  - exists rv, sc'. split; [exact Hp |].
    apply (Hall (5%Z, 10)); [| simpl; lia].
    apply (bool_decide_unpack _). vm_compute. reflexivity.
Defined.

(** ** adjust_render_cache_times, once more *)

Lemma elem_of_dict_set {K V} `{EqDecision K} (k q : K) (x v : V) d :
  (q, v) ∈ dict_set k x d -> (q = k /\ v = x) \/ (q, v) ∈ d.
Proof.
  induction d as [|[k' v'] d IH]; simpl.
  - intros H. apply list_elem_of_singleton in H. left.
    split; congruence.
  - destruct (decide (k' = k)) as [-> | Hne].
    + intros H. apply elem_of_cons in H as [H | H].
      * left. split; congruence.
      * right. by right.
    + intros H. apply elem_of_cons in H as [H | H].
      * right. rewrite H. by left.
      * destruct (IH H) as [Heq | Hin]; [by left | right; by right].
Qed.

Lemma rebase_renders_keys old_time new_time l q v :
  (q, v) ∈ rebase_renders old_time new_time l ->
  exists k, q = rebase_key old_time new_time k.
Proof.
  induction l as [|kv l IH] using rev_ind.
  - intros H. by apply elem_of_nil in H.
  - rewrite rebase_renders_snoc. intros H.
    apply elem_of_dict_set in H as [[-> _] | H]; [eauto | by apply IH].
Qed.

Lemma key_st_rebase_key old_time new_time k :
  old_time ≠ new_time -> key_st (rebase_key old_time new_time k) ≠ old_time.
Proof.
  intros Hne. destruct k as [[[w h] st_base] at_base]. unfold key_st. simpl.
  destruct (decide (st_base = old_time)); congruence.
Qed.

Lemma has_st_base_false old_time l :
  has_st_base old_time l = false <->
  forall k v, (k, v) ∈ l -> key_st k ≠ old_time.
Proof.
  unfold has_st_base. split.
  - intros H k v Hin Heq.
    assert (Ht : existsb (fun kv => bool_decide (key_st (fst kv) = old_time)) l
                 = true); [| congruence].
    apply existsb_exists. exists (k, v).
    split; [by apply list_elem_of_In | by apply bool_decide_eq_true].
  - intros H. destruct (existsb _ l) eqn:He; [| reflexivity].
    apply existsb_exists in He as ([k v] & Hin & Hb).
    apply list_elem_of_In in Hin. apply bool_decide_eq_true in Hb.
    by destruct (H k v Hin).
Qed.

Lemma adjust_renders_no_st_base old_time new_time l :
  old_time ≠ new_time ->
  has_st_base old_time (adjust_renders old_time new_time l) = false.
Proof.
  intros Hne. unfold adjust_renders.
  destruct (has_st_base old_time l) eqn:Hb; [| exact Hb].
  apply has_st_base_false. intros k v Hin.
  apply rebase_renders_keys in Hin as [k0 ->]. by apply key_st_rebase_key.
Qed.

(** X21: after adjust_render_cache_times no render starts at old_time.
    When the two times differ, no key of the adjusted cache has the
    shown-time base old_time, so adjusting a second time changes nothing;
    and the adjustment keeps the set of displayables that have a cache
    and leaves the heap alone. *)
Theorem adjust_render_cache_times_settles (old_time new_time : Z) (s : State) :
  old_time ≠ new_time ->
  (forall d k v,
     (k, v) ∈ cache_of d (adjust_render_cache_times old_time new_time s) ->
     key_st k ≠ old_time) /\
  adjust_render_cache_times old_time new_time
    (adjust_render_cache_times old_time new_time s)
  = adjust_render_cache_times old_time new_time s /\
  dom (render_cache (adjust_render_cache_times old_time new_time s))
  = dom (render_cache s) /\
  heap (adjust_render_cache_times old_time new_time s) = heap s.
Proof.
  intros Hne. split; [| split; [| split]].
  - intros d k v Hin. unfold cache_of in Hin. rewrite adjust_lookup in Hin.
    destruct (render_cache s !! d) as [l|]; simpl in Hin;
      [| by apply elem_of_nil in Hin].
    exact (proj1 (has_st_base_false old_time _)
             (adjust_renders_no_st_base old_time new_time l Hne) k v Hin).
  - assert (Hmap : adjust_renders old_time new_time
                     <$> (adjust_renders old_time new_time <$> render_cache s)
                   = adjust_renders old_time new_time <$> render_cache s).
    { rewrite <- map_fmap_compose. apply map_fmap_ext. intros d l _. simpl.
      unfold adjust_renders at 1.
      by rewrite adjust_renders_no_st_base. }
    unfold adjust_render_cache_times.
    change (set_render_cache
              (adjust_renders old_time new_time
                 <$> (adjust_renders old_time new_time <$> render_cache s)) s
            = set_render_cache
                (adjust_renders old_time new_time <$> render_cache s) s).
    by rewrite Hmap.
  - unfold adjust_render_cache_times. simpl. apply dom_fmap_L.
  - reflexivity.
Qed.

Lemma adjust_render_cache_times_settles_witness :
  adjust_render_cache_times 3 9 (adjust_render_cache_times 3 9 rebase_state_st)
  = adjust_render_cache_times 3 9 rebase_state_st.
Proof.
  destruct (adjust_render_cache_times_settles 3 9 rebase_state_st) as (_ & H & _).
  - discriminate.
  - exact H.
Defined.

(** ** render keeps the cache sound *)

Lemma cache_sound_upd n f s :
  (forall r, killed (f r) = killed r /\
             (cache_killed r = false -> cache_killed (f r) = false) /\
             (forall d, d ∈ render_of r -> d ∈ render_of (f r))) ->
  cache_sound s -> cache_sound (upd n f s).
Proof.
  intros Hf Hcs d k v Hin.
  destruct (Hcs d k v Hin) as (r & Hr & Hck & Hl & Hd).
  rewrite heap_upd. destruct (decide (n = v)) as [-> | Hne].
  - rewrite Hr. simpl. exists (f r). destruct (Hf r) as (Hk & Hc & Hro).
    split; [reflexivity |]. split; [by apply Hc |].
    split; [congruence | by apply Hro].
  - exists r. by repeat split.
Qed.

Lemma cache_sound_touch id_d s : cache_sound s -> cache_sound (cache_touch id_d s).
Proof.
  intros Hcs d k v Hin. rewrite cache_of_touch in Hin.
  rewrite heap_cache_touch. exact (Hcs d k v Hin).
Qed.

Lemma cache_sound_store d k rv s :
  cache_sound s ->
  (exists r, heap s !! rv = Some r /\ cache_killed r = false /\
             killed r = false /\ d ∈ render_of r) ->
  cache_sound (cache_store d k rv s).
Proof.
  intros Hcs Hrv d' q v Hin. rewrite heap_cache_store.
  rewrite cache_of_store in Hin. destruct (decide (d = d')) as [<- | Hne].
  - apply elem_of_dict_set in Hin as [[_ ->] | Hin]; [exact Hrv |].
    exact (Hcs d q v Hin).
  - exact (Hcs d' q v Hin).
Qed.

Lemma render_miss_cache_sound env d orig_wh wh changed w h st at_ s :
  (forall w h st at_ t, cache_sound t ->
     cache_sound (fst (d_render d w h st at_ t)) /\
     forall rv, snd (d_render d w h st at_ t) = inr (VRender rv) ->
                live (fst (d_render d w h st at_ t)) rv) ->
  (forall rv t, cache_sound t -> live t rv ->
     cache_sound (fst (subsurface_full env rv t)) /\
     forall rv', snd (subsurface_full env rv t) = inr rv' ->
       exists r, heap (fst (subsurface_full env rv t)) !! rv' = Some r /\
                 cache_killed r = false /\ killed r = false) ->
  cache_sound s ->
  cache_sound (out_state (render_miss env d orig_wh wh changed w h st at_ s)) /\
  forall rv,
    out_result (render_miss env d orig_wh wh changed w h st at_ s) = inr rv ->
    exists r,
      heap (out_state (render_miss env d orig_wh wh changed w h st at_ s)) !! rv
        = Some r /\
      cache_killed r = false /\ killed r = false /\ d_id d ∈ render_of r.
Proof.
  intros Hcb Hss Hcs. unfold render_miss.
  set (s1 := set_rendering (rendering s + 1) st at_ s).
  assert (Hcs1 : cache_sound s1) by exact Hcs.
  destruct (Hcb w h st at_ s1 Hcs1) as [Hcs2 Hlive].
  destruct (d_render d w h st at_ s1) as [s2 [e | [rv0 | |]]];
    simpl in Hcs2, Hlive; try (split; [exact Hcs2 | discriminate]).
  destruct (Hlive rv0 eq_refl) as (r0 & Hr0 & Hl0).
  set (s3 := set_rendering (rendering s2 - 1) (render_st s) (render_at s) s2).
  set (s4 := upd rv0 (fun r => set_cache_killed false
                                 (set_render_of (render_of r ++ [d_id d]) r)) s3).
  assert (Hcs4 : cache_sound s4).
  { apply cache_sound_upd; [| exact Hcs2].
    intros r. split; [reflexivity |]. split; [reflexivity |].
    intros x Hx. simpl. apply elem_of_app. by left. }
  assert (Hn4 : exists r, heap s4 !! rv0 = Some r /\ cache_killed r = false /\
                          killed r = false /\ d_id d ∈ render_of r).
  { subst s4. rewrite heap_upd_eq.
    change (heap s3) with (heap s2). rewrite Hr0. simpl.
    eexists. split; [reflexivity |]. split; [reflexivity |].
    split; [exact Hl0 |]. simpl. apply elem_of_app. right. by left. }
  assert (Hstore : forall rv1 s6, cache_sound s6 ->
    (exists r, heap s6 !! rv1 = Some r /\ cache_killed r = false /\
               killed r = false /\ d_id d ∈ render_of r) ->
    let s7 := upd rv1 (fun r => set_debug (style_debug d || debug r) r) s6 in
    let s8 := if sizing s7 then s7
              else let s' := cache_store (d_id d) wh rv1 s7 in
                   if changed then cache_store (d_id d) orig_wh rv1 s' else s' in
    cache_sound s8 /\
    exists r, heap s8 !! rv1 = Some r /\ cache_killed r = false /\
              killed r = false /\ d_id d ∈ render_of r).
  { intros rv1 s6 Hcs6 (r6 & Hr6 & Hck6 & Hl6 & Hd6).
    set (s7 := upd rv1 (fun r => set_debug (style_debug d || debug r) r) s6).
    assert (Hcs7 : cache_sound s7).
    { apply cache_sound_upd; [| exact Hcs6]. intros r. by repeat split. }
    assert (Hn7 : exists r, heap s7 !! rv1 = Some r /\ cache_killed r = false /\
                            killed r = false /\ d_id d ∈ render_of r).
    { subst s7. rewrite heap_upd_eq, Hr6. simpl. eexists.
      split; [reflexivity |]. by repeat split. }
    cbv zeta. destruct (sizing s7); [by split |].
    assert (Hcs8 : cache_sound (cache_store (d_id d) wh rv1 s7))
      by (by apply cache_sound_store).
    assert (Hn8 : exists r, heap (cache_store (d_id d) wh rv1 s7) !! rv1 = Some r /\
                   cache_killed r = false /\ killed r = false /\
                   d_id d ∈ render_of r)
      by (by rewrite heap_cache_store).
    destruct changed; [| by split].
    split; [by apply cache_sound_store |]. by rewrite heap_cache_store. }
  destruct (clipping d).
  - destruct (Hss rv0 s4 Hcs4) as [Hcs5 Hn5].
    { destruct Hn4 as (r & Hr & _ & Hl & _). exists r. by split. }
    destruct (subsurface_full env rv0 s4) as [s5 [e | rv']]; simpl in Hcs5, Hn5.
    + split; [exact Hcs5 | discriminate].
    + destruct (Hn5 rv' eq_refl) as (r5 & Hr5 & Hck5 & Hl5).
      destruct (Hstore rv'
                  (upd rv' (fun r => set_render_of (render_of r ++ [d_id d]) r) s5))
        as [Hc Hn].
      * apply cache_sound_upd; [| exact Hcs5].
        intros r. split; [reflexivity |]. split; [auto |].
        intros x Hx. simpl. apply elem_of_app. by left.
      * rewrite heap_upd_eq, Hr5. simpl. eexists. split; [reflexivity |].
        split; [exact Hck5 |]. split; [exact Hl5 |].
        simpl. apply elem_of_app. right. by left.
      * split; [exact Hc |]. intros rv [= <-]. exact Hn.
  - destruct (Hstore rv0 s4 Hcs4 Hn4) as [Hc Hn].
    split; [exact Hc |]. intros rv [= <-]. exact Hn.
Qed.

(** X22: render keeps the cache sound and never returns a dead node.
    Let the displayable's render method keep the cache sound and return
    only nodes that are not killed, and let the crop of such a node keep
    the cache sound and return a node that is neither killed nor
    cache-killed.  Then from a sound cache render leaves a sound cache,
    whatever the outcome and whether the sizing flag is set or not; and
    the node it returns, from the cache or freshly rendered, is in the
    heap, neither killed nor cache-killed, and has the displayable in its
    render_of. *)
Theorem render_keeps_cache_sound (env : Env) (d : Displayable)
    (w h st at_ : Z) (s : State) :
  (forall w h st at_ t, cache_sound t ->
     cache_sound (fst (d_render d w h st at_ t)) /\
     forall rv, snd (d_render d w h st at_ t) = inr (VRender rv) ->
                live (fst (d_render d w h st at_ t)) rv) ->
  (forall rv t, cache_sound t -> live t rv ->
     cache_sound (fst (subsurface_full env rv t)) /\
     forall rv', snd (subsurface_full env rv t) = inr rv' ->
       exists r, heap (fst (subsurface_full env rv t)) !! rv' = Some r /\
                 cache_killed r = false /\ killed r = false) ->
  cache_sound s ->
  cache_sound (out_state (render env d w h st at_ s)) /\
  forall rv, out_result (render env d w h st at_ s) = inr rv ->
    exists r, heap (out_state (render env d w h st at_ s)) !! rv = Some r /\
      cache_killed r = false /\ killed r = false /\ d_id d ∈ render_of r.
Proof.
  intros Hcb Hss Hcs.
  destruct (negb (render_is_ready s) && config_developer env) eqn:Hm.
  { destruct (render_refused env d w h st at_ s) as [e ->];
      [unfold may_render; congruence |].
    split; [exact Hcs | discriminate]. }
  change (may_render env s) in Hm.
  rewrite (render_cases _ _ _ _ _ _ _ Hm). simpl.
  set (s0 := cache_touch (d_id d) (set_render_size w h s)).
  assert (Hcs0 : cache_sound s0).
  { subst s0. apply cache_sound_touch. exact Hcs. }
  assert (Hhit : forall q rv, cache_lookup (d_id d) q s = Some rv ->
    exists r, heap s0 !! rv = Some r /\ cache_killed r = false /\
              killed r = false /\ d_id d ∈ render_of r).
  { intros q rv Hq. apply dict_get_elem_of in Hq.
    subst s0. rewrite heap_cache_touch. exact (Hcs _ _ _ Hq). }
  destruct (cache_lookup (d_id d) (request_key s w h st at_) s) as [rv1|] eqn:H1.
  { split; [exact Hcs0 |]. intros rv [= <-]. by apply (Hhit _ _ H1). }
  destruct (cache_lookup (d_id d) (clamped_key env d s w h st at_) s)
    as [rv2|] eqn:H2.
  { split; [exact Hcs0 |]. intros rv [= <-]. by apply (Hhit _ _ H2). }
  by apply render_miss_cache_sound.
Qed.

Lemma cache_sound_alloc w h s :
  cache_sound s ->
  cache_sound (snd (alloc_render w h s)) /\
  heap (snd (alloc_render w h s)) !! fst (alloc_render w h s)
  = Some (new_render w h).
Proof.
  intros Hcs. unfold alloc_render. simpl. split.
  - intros d k v Hin. destruct (Hcs d k v Hin) as (r & Hr & Hrest).
    exists r. split; [| exact Hrest].
    change (<[fresh (dom (heap s)) := new_render w h]> (heap s) !! v = Some r).
    rewrite lookup_insert_ne; [exact Hr |].
    intros Heq. apply (is_fresh (dom (heap s))). rewrite Heq.
    apply elem_of_dom. eauto.
  - apply lookup_insert_eq.
Qed.

Lemma plain_render_sound w h st at_ t :
  cache_sound t ->
  cache_sound (fst (plain_render w h st at_ t)) /\
  forall rv, snd (plain_render w h st at_ t) = inr (VRender rv) ->
             live (fst (plain_render w h st at_ t)) rv.
Proof.
  intros Hcs. destruct (cache_sound_alloc w h t Hcs) as [Hc Hn].
  unfold plain_render. destruct (alloc_render w h t) as [n s1]; simpl in *.
  split; [exact Hc |]. intros rv [= <-]. exists (new_render w h). by split.
Qed.

Lemma example_env_crop_sound rv t :
  cache_sound t ->
  cache_sound (fst (subsurface_full example_env rv t)) /\
  forall rv', snd (subsurface_full example_env rv t) = inr rv' ->
    exists r, heap (fst (subsurface_full example_env rv t)) !! rv' = Some r /\
              cache_killed r = false /\ killed r = false.
Proof.
  intros Hcs. cbn [subsurface_full example_env].
  destruct (cache_sound_alloc (default 0%Z (width <$> heap t !! rv))
              (default 0%Z (height <$> heap t !! rv)) t Hcs) as [Hc Hn].
  destruct (alloc_render _ _ t) as [n s1]; simpl in *.
  unfold depends_on. destruct (decide (rv = n)) as [-> | Hne]; cbn [fst snd].
  - split; [exact Hc |]. intros rv' [= <-]. eexists. split; [exact Hn |].
    by split.
  - split.
    + unfold link. apply cache_sound_upd; [by intros r; repeat split |].
      apply cache_sound_upd; [by intros r; repeat split | exact Hc].
    + intros rv' [= <-]. rewrite heap_link_self, Hn by exact Hne. simpl.
      eexists. split; [reflexivity |]. by split.
Qed.

Lemma render_keeps_cache_sound_witness :
  cache_sound
    (out_state (render example_env plain_displayable 10 10 0 0 initial_state)).
Proof.
  destruct (render_keeps_cache_sound example_env plain_displayable 10 10 0 0
              initial_state) as [H _].
  - intros w h st at_ t. apply plain_render_sound.
  - intros rv t Hcs _. by apply example_env_crop_sound.
  - intros d k v Hin. by apply elem_of_nil in Hin.
  - exact H.
Defined.
